(** * flint-ls: a shallow embedding of the execution and scheduling core

    The development follows the Go packages [types], [core] and [lsp] of
    flint-ls.  Go values are embedded as follows.

    - [int] is a 64-bit two's complement integer: a [Z] whose arithmetic is
      wrapped by [wrap].
    - A Go [string] is embedded as the sequence of its runes (Unicode code
      points), which is what [[]rune(s)], the regexp engine and
      [strings.TrimSpace] observe; [len(s)] is recovered by [len], the sum
      of the UTF-8 widths.  Strings that are not valid UTF-8 are outside the
      embedding.
    - Go maps are [gmap]s; a nil map and an empty map are both [∅].
    - A function that can panic returns an [option]; a function returning
      [(T, error)] returns a pair or a sum.
    - Subprocesses, the file system and the clock are explicit parameters. *)

From stdpp Require Import base option list gmap strings sorting pretty relations.
From Stdlib Require Import ZArith Lia Ascii.

(** ** Go base types *)

Module Go.

Abbreviation rune := Z (only parsing).
Abbreviation gostring := (list Z) (only parsing).

(** A string literal of the source, as its runes (ASCII literals only). *)
Definition lit (s : string) : gostring :=
  (λ a, Z.of_N (N_of_ascii a)) <$> String.list_ascii_of_string s.

(** 64-bit wrap-around of Go's [int]. *)
Definition wrap (z : Z) : Z := ((z + 2 ^ 63) `mod` 2 ^ 64 - 2 ^ 63)%Z.
Definition int_add (a b : Z) : Z := wrap (a + b).
Definition int_sub (a b : Z) : Z := wrap (a - b).

(** [utf8.RuneError], the replacement character. *)
Definition RuneError : rune := 65533%Z.

(** [utf8.ValidRune]. *)
Definition ValidRune (r : rune) : bool :=
  ((0 <=? r) && (r <? 55296) || (57343 <? r) && (r <=? 1114111))%Z.

(** The conversion [string(r)] of a rune: its UTF-8 encoding, the encoding
    of U+FFFD when [r] is not a valid code point. *)
Definition string_of_rune (r : rune) : gostring :=
  [if ValidRune r then r else RuneError].

(** [utf8.RuneLen] on the runes of a string. *)
Definition RuneLen (r : rune) : Z :=
  (if r <? 128 then 1 else if r <? 2048 then 2 else if r <? 65536 then 3 else 4)%Z.

(** [len(s)]: the number of bytes of [s]. *)
Definition len (s : gostring) : Z := foldr (λ r n, RuneLen r + n)%Z 0%Z s.

End Go.
Export Go.

(** ** Package [types] *)

Module types.

Abbreviation DocumentURI := (list Z) (only parsing).

Definition Wildcard : gostring := lit "=".

Abbreviation DiagnosticSeverity := Z (only parsing).
Definition DiagError : DiagnosticSeverity := 1%Z.
Definition DiagWarning : DiagnosticSeverity := 2%Z.
Definition DiagInformation : DiagnosticSeverity := 3%Z.
Definition DiagHint : DiagnosticSeverity := 4%Z.

Inductive EventType := EventTypeChange | EventTypeSave | EventTypeOpen.

Record Language := {
  Env : list gostring;
  RootMarkers : list gostring;
  RequireMarker : bool;
  Prefix : gostring;
  LintFormats : list gostring;
  LintStdin : bool;
  LintOffset : Z;
  LintOffsetColumns : Z;
  LintCommand : gostring;
  LintIgnoreExitCode : bool;
  LintCategoryMap : gmap gostring gostring;
  LintSource : gostring;
  LintSeverity : DiagnosticSeverity;
  LintAfterOpen : option bool;
  LintOnChange : option bool;
  LintOnSave : option bool;
  FormatCommand : gostring;
  FormatCanRange : bool
}.

Record Position := { Line : Z; Character : Z }.
Record Range := { Start : Position; End : Position }.
Record TextEdit := { Range_ : Range; NewText : gostring }.

Record Diagnostic := {
  DRange : Range;
  Severity : DiagnosticSeverity;
  Code : option Z;
  Source : option gostring;
  Message : gostring
}.

Record PublishDiagnosticsParams := {
  URI : DocumentURI;
  Diagnostics : list Diagnostic;
  PVersion : Z
}.

Inductive workDoneProgressKind := workBegin | workReport | workDone.

Record workDoneProgress := {
  Kind : workDoneProgressKind;
  Title : option gostring;
  WMessage : option gostring;
  Percentage : option Z
}.

Definition NewWorkDoneProgressBegin (title : gostring) (message : option gostring)
    (percentage : option Z) : workDoneProgress :=
  {| Kind := workBegin; Title := Some title; WMessage := message; Percentage := percentage |}.

Definition NewWorkDoneProgressEnd (message : option gostring) : workDoneProgress :=
  {| Kind := workDone; Title := None; WMessage := message; Percentage := None |}.

Record ProgressParams := { Token : gostring; Value : workDoneProgress }.

End types.
Export types.

(** ** Package [core]: the document store (handler.go) *)

Module Store.

Record fileRef := {
  Version : Z;
  NormalizedFilename : gostring;
  LanguageID : gostring;
  Text : gostring;
  Uri : DocumentURI
}.

Record LangHandler := {
  configs : gmap gostring (list Language);
  files : gmap DocumentURI fileRef;
  RootPath : gostring
}.

Inductive error :=
| ErrInvalidUri (cause : gostring) (uri : DocumentURI)
| ErrDocumentNotFound (uri : DocumentURI).

Section WithURIs.

(** [PathFromURI] lives in a file of package [core] that is not part of the
    sources at hand; it is a parameter.  [inr] is its error result. *)
Variable PathFromURI : DocumentURI → gostring + gostring.

(** [filepath.ToSlash] where the separator is the slash. *)
Definition ToSlash (p : gostring) : gostring := p.

Definition normalizedFilenameFromUri (uri : DocumentURI) : gostring + error :=
  match PathFromURI uri with
  | inr err => inr (ErrInvalidUri err uri)
  | inl fname => inl (ToSlash fname)
  end.

Definition CloseFile (h : LangHandler) (uri : DocumentURI) : LangHandler * option error :=
  ({| configs := configs h; files := delete uri (files h); RootPath := RootPath h |}, None).

Definition OpenFile (h : LangHandler) (uri : DocumentURI) (languageID : gostring)
    (version : Z) (text : gostring) : LangHandler * option error :=
  match normalizedFilenameFromUri uri with
  | inr err => (h, Some err)
  | inl fname =>
      let f := {| Text := text; LanguageID := languageID; Version := version;
                  NormalizedFilename := fname; Uri := uri |} in
      ({| configs := configs h; files := <[uri := f]> (files h); RootPath := RootPath h |},
       None)
  end.

Definition UpdateFile (h : LangHandler) (uri : DocumentURI) (text : gostring)
    (version : option Z) : LangHandler * option error :=
  match files h !! uri with
  | None => (h, Some (ErrDocumentNotFound uri))
  | Some f =>
      let f1 := {| Text := text; LanguageID := LanguageID f; Version := Version f;
                   NormalizedFilename := NormalizedFilename f; Uri := Uri f |} in
      let f2 := match version with
                | Some v => {| Text := Text f1; LanguageID := LanguageID f1; Version := v;
                               NormalizedFilename := NormalizedFilename f1; Uri := Uri f1 |}
                | None => f1
                end in
      ({| configs := configs h; files := <[uri := f2]> (files h); RootPath := RootPath h |},
       None)
  end.

(** A client drives the store with a sequence of open and update requests. *)
Inductive fileOp :=
| OpOpen (uri : DocumentURI) (languageID : gostring) (version : Z) (text : gostring)
| OpUpdate (uri : DocumentURI) (text : gostring) (version : option Z).

Definition apply_op (h : LangHandler) (op : fileOp) : LangHandler :=
  match op with
  | OpOpen uri l v t => fst (OpenFile h uri l v t)
  | OpUpdate uri t v => fst (UpdateFile h uri t v)
  end.

(** The version stored for [uri], when the document is open. *)
Definition stored_version (h : LangHandler) (uri : DocumentURI) : list Z :=
  match files h !! uri with
  | Some f => [Version f]
  | None => []
  end.

(** The successive versions stored for [uri]: the one held at the start and
    the one held after each operation. *)
Fixpoint version_history (h : LangHandler) (ops : list fileOp) (uri : DocumentURI) : list Z :=
  match ops with
  | [] => stored_version h uri
  | op :: ops' => stored_version h uri ++ version_history (apply_op h op) ops' uri
  end.

(** The versions the client passes for [uri], in order. *)
Definition supplied_version (uri : DocumentURI) (op : fileOp) : list Z :=
  match op with
  | OpOpen u _ v _ => if decide (u = uri) then [v] else []
  | OpUpdate u _ (Some v) => if decide (u = uri) then [v] else []
  | OpUpdate _ _ None => []
  end.

Definition supplied_versions (uri : DocumentURI) (ops : list fileOp) : list Z :=
  ops ≫= supplied_version uri.

End WithURIs.

(** A list of versions never decreases. *)
Definition non_decreasing (l : list Z) : Prop := StronglySorted Z.le l.

(** The handler of a freshly started server. *)
Definition empty_handler : LangHandler :=
  {| configs := ∅; files := ∅; RootPath := [] |}.

Definition uri_a : DocumentURI := lit "file:///a.go".

(** Every URI is a local path in these examples. *)
Definition path_of_uri (u : DocumentURI) : gostring + gostring := inl (drop 7 u).

End Store.

(** ** Package [strings] and [unicode] of the Go library, on runes *)

Module strings.

Fixpoint drop_while {A} (p : A → bool) (l : list A) : list A :=
  match l with
  | [] => []
  | x :: l' => if p x then drop_while p l' else l
  end.

Fixpoint take_while {A} (p : A → bool) (l : list A) : list A :=
  match l with
  | [] => []
  | x :: l' => if p x then x :: take_while p l' else []
  end.

(** [a == b] on strings. *)
Definition eqb (a b : gostring) : bool := bool_decide (a = b).

Fixpoint HasPrefix (s pre : gostring) : bool :=
  match pre, s with
  | [], _ => true
  | p :: pre', c :: s' => (p =? c)%Z && HasPrefix s' pre'
  | _ :: _, [] => false
  end.

Definition HasSuffix (s suf : gostring) : bool := HasPrefix (reverse s) (reverse suf).

Definition TrimPrefix (s pre : gostring) : gostring :=
  if HasPrefix s pre then drop (length pre) s else s.

(** [strings.TrimRight(s, cutset)]. *)
Definition TrimRight (s cutset : gostring) : gostring :=
  reverse (drop_while (λ c, bool_decide (c ∈ cutset)) (reverse s)).

Fixpoint Contains (s sub : gostring) : bool :=
  HasPrefix s sub ||
  match s with
  | [] => false
  | _ :: s' => Contains s' sub
  end.

(** The scan of [strings.ReplaceAll] for a non-empty [old]: [skip] counts
    the runes of the occurrence that is being passed over. *)
Fixpoint replace_scan (old new : gostring) (skip : nat) (s : gostring) : gostring :=
  match s with
  | [] => []
  | c :: s' =>
      match skip with
      | S k => replace_scan old new k s'
      | O =>
          if HasPrefix s old then new ++ replace_scan old new (pred (length old)) s'
          else c :: replace_scan old new 0 s'
      end
  end.

(** [strings.ReplaceAll(s, old, new)]; an empty [old] matches before every
    rune and at the end. *)
Definition ReplaceAll (s old new : gostring) : gostring :=
  match old with
  | [] => new ++ (s ≫= λ c, c :: new)
  | _ :: _ => replace_scan old new 0 s
  end.

(** [strings.Split(s, sep)] for a separator of one rune: the pieces between
    the separators, at least one piece. *)
Fixpoint Split1 (sep : Z) (s : gostring) : list gostring :=
  match s with
  | [] => [[]]
  | c :: s' =>
      if (c =? sep)%Z then [] :: Split1 sep s'
      else match Split1 sep s' with
           | [] => [[c]]
           | piece :: pieces => (c :: piece) :: pieces
           end
  end.

(** [strings.SplitAfter(s, sep)] for a separator of one rune: each piece
    keeps the separator that ends it. *)
Fixpoint SplitAfter1 (sep : Z) (s : gostring) : list gostring :=
  match s with
  | [] => [[]]
  | c :: s' =>
      if (c =? sep)%Z then [c] :: SplitAfter1 sep s'
      else match SplitAfter1 sep s' with
           | [] => [[c]]
           | piece :: pieces => (c :: piece) :: pieces
           end
  end.

(** [strings.Join(elems, sep)]. *)
Fixpoint Join (elems : list gostring) (sep : gostring) : gostring :=
  match elems with
  | [] => []
  | [e] => e
  | e :: es => e ++ sep ++ Join es sep
  end.

(** [unicode.IsSpace]: the White_Space property. *)
Definition IsSpace (r : rune) : bool :=
  ((9 <=? r) && (r <=? 13) || (r =? 32) || (r =? 133) || (r =? 160) || (r =? 5760)
   || (8192 <=? r) && (r <=? 8202) || (r =? 8232) || (r =? 8233) || (r =? 8239)
   || (r =? 8287) || (r =? 12288))%Z.

Definition TrimLeftSpace (s : gostring) : gostring := drop_while IsSpace s.
Definition TrimRightSpace (s : gostring) : gostring :=
  reverse (drop_while IsSpace (reverse s)).

(** [strings.TrimSpace]. *)
Definition TrimSpace (s : gostring) : gostring := TrimRightSpace (TrimLeftSpace s).

Definition newline : Z := 10.
Definition carriageReturn : gostring := [13%Z].

End strings.

(** ** Package [path/filepath] of the Go library, with [/] as separator *)

Module filepath.
Import strings.

Definition Separator : Z := 47.
Definition dot : Z := 46.

Definition IsPathSeparator (c : Z) : bool := (c =? Separator)%Z.

(** [filepath.FromSlash] and [filepath.ToSlash] are the identity here. *)
Definition FromSlash (p : gostring) : gostring := p.

(** The elimination of [.] and [..] elements by [Clean].  [out] holds the
    elements written so far, the last one first; it plays the role of the
    output buffer and of the [dotdot] mark of [Clean]: a [..] element
    removes the element written last, unless nothing or only [..] elements
    are written, in which case it is kept when the path is not rooted and
    dropped when it is. *)
Fixpoint clean_elems (rooted : bool) (out : list gostring) (elems : list gostring)
    : list gostring :=
  match elems with
  | [] => reverse out
  | e :: es =>
      if eqb e [] || eqb e [dot] then clean_elems rooted out es
      else if eqb e [dot; dot] then
        match out with
        | top :: out' =>
            if eqb top [dot; dot] then clean_elems rooted (e :: out) es
            else clean_elems rooted out' es
        | [] => if rooted then clean_elems rooted [] es else clean_elems rooted [e] es
        end
      else clean_elems rooted (e :: out) es
  end.

(** [filepath.Clean]: the shortest path equivalent to [path] by lexical
    processing. *)
Definition Clean (path : gostring) : gostring :=
  match path with
  | [] => [dot]
  | c :: _ =>
      let rooted := IsPathSeparator c in
      let elems := clean_elems rooted [] (Split1 Separator path) in
      if rooted then Separator :: Join elems [Separator]
      else match elems with
           | [] => [dot]
           | _ :: _ => Join elems [Separator]
           end
  end.

(** [path[:i+1]] where [i] is the index of the last separator of [path]
    (-1 when there is none). *)
Definition upto_last_separator (path : gostring) : gostring :=
  reverse (drop_while (λ c, negb (IsPathSeparator c)) (reverse path)).

(** [filepath.Dir]. *)
Definition Dir (path : gostring) : gostring := Clean (upto_last_separator path).

(** [filepath.Ext]: the suffix of the last element that starts at its last
    dot. *)
Fixpoint ext_scan (rev_path acc : gostring) : gostring :=
  match rev_path with
  | [] => []
  | c :: rest =>
      if IsPathSeparator c then []
      else if (c =? dot)%Z then c :: acc
      else ext_scan rest (c :: acc)
  end.

Definition Ext (path : gostring) : gostring := ext_scan (reverse path) [].

End filepath.

(** ** Package [core]: the root resolver (handler.go) *)

Module Root.
Import strings filepath.

(** An entry returned by [os.ReadDir]. *)
Record DirEntry := { Name : gostring; IsDir : bool }.

Section WithFileSystem.

(** The directory listing of the file system; [os.ReadDir] errors are
    dropped by the caller, which then sees the entries read so far. *)
Variable ReadDir : gostring → list DirEntry.

(** [filepath.Match(pattern, name)]; a malformed pattern does not match. *)
Variable Match : gostring → gostring → bool.

(** The body of the innermost loop of [matchRootPath]. *)
Definition marker_matches (file : DirEntry) (marker : gostring) : bool :=
  if HasSuffix marker (lit "/") then
    if negb (IsDir file) then false
    else Match (TrimRight marker (lit "/")) (Name file)
  else
    if IsDir file then false
    else Match marker (Name file).

(** Some entry of [dir] matches some marker. *)
Definition dir_matches (dir : gostring) (markers : list gostring) : bool :=
  existsb (λ file, existsb (marker_matches file) markers) (ReadDir dir).

(** The loop [for dir != prev] of [matchRootPath]; [None] when [fuel]
    iterations do not finish it. *)
Fixpoint walk (fuel : nat) (markers : list gostring) (dir prev : gostring)
    : option gostring :=
  match fuel with
  | O => None
  | S n =>
      if eqb dir prev then Some []
      else if dir_matches dir markers then Some dir
      else walk n markers (Dir dir) dir
  end.

Definition matchRootPath_fuel (fuel : nat) (fname : gostring) (markers : list gostring)
    : option gostring :=
  walk fuel markers (Dir fname) [].

(** [matchRootPath]; the walk from [fname] never needs more than
    [len(fname) + 2] iterations. *)
Definition matchRootPath (fname : gostring) (markers : list gostring) : gostring :=
  default [] (matchRootPath_fuel (length fname + 2) fname markers).

End WithFileSystem.

(** The length of a list of path elements once joined, counting one
    separator after each element. *)
Definition total_len (l : list gostring) : nat :=
  foldr (λ e n, S (length e) + n) 0 l.

(** A path element written by [Clean]: not empty and free of separators. *)
Definition element (e : gostring) : Prop := e ≠ [] ∧ Separator ∉ e.

(** The measure of the upward walk. *)
Definition rank (dir : gostring) : nat :=
  if eqb dir [dot] then 0 else length dir.

End Root.

(** ** Package [core]: configuration lookup and command lines (utils.go,
    handler.go) *)

Module Command.
Import strings filepath Root Store.

Definition inputPlaceholder : gostring := lit "${INPUT}".
Definition fileextPlaceholder : gostring := lit "${FILEEXT}".
Definition filenamePlaceholder : gostring := lit "${FILENAME}".
Definition rootPlaceholder : gostring := lit "${ROOT}".

Definition shell : gostring := lit "sh".
Definition shellFlag : gostring := lit "-c".

Definition getAllConfigsForLang (allConfigs : gmap gostring (list Language))
    (langId : gostring) : list Language :=
  let configsForLang := [] in
  let configsForLang :=
    match allConfigs !! langId with
    | Some cfgs => configsForLang ++ cfgs
    | None => configsForLang
    end in
  match allConfigs !! Wildcard with
  | Some cfgs => configsForLang ++ cfgs
  | None => configsForLang
  end.

Definition itoaPtrIfNotZero (n : Z) : option Z :=
  if (n =? 0)%Z then None else Some n.

Definition boolOrDefault (b : option bool) (def : bool) : bool :=
  match b with
  | None => def
  | Some v => v
  end.

Definition escapeBrackets (path : gostring) : gostring :=
  let path := ReplaceAll path (lit "(") (lit "\(") in
  ReplaceAll path (lit ")") (lit "\)").

Definition replaceMagicStrings (command fname rootPath : gostring) : gostring :=
  let ext := Ext fname in
  let ext := TrimPrefix ext (lit ".") in
  let command := ReplaceAll command inputPlaceholder (escapeBrackets fname) in
  let command := ReplaceAll command fileextPlaceholder ext in
  let command := ReplaceAll command filenamePlaceholder (escapeBrackets (FromSlash fname)) in
  ReplaceAll command rootPlaceholder (escapeBrackets rootPath).

Definition isStdinPlaceholder (s : gostring) : bool :=
  eqb s (lit "stdin") || eqb s (lit "-") || eqb s (lit "<text>") || eqb s (lit "<stdin>").

(** The fields of [exec.Cmd] that [buildExecCmd] sets. *)
Record Cmd := {
  Args : list gostring;
  CmdDir : gostring;
  CmdEnv : list gostring;
  Stdin : option gostring
}.

(** The state of a child process for which [Wait] reported an
    [*exec.ExitError]: it exited with a status other than zero, or it did
    not exit (it was killed by a signal). *)
Inductive ProcessState :=
| Exited (status : positive)
| Signaled.

(** [ProcessState.ExitCode]: the exit status, -1 for a process that did not
    exit. *)
Definition ExitCode (ps : ProcessState) : Z :=
  match ps with
  | Exited status => Z.pos status
  | Signaled => (-1)%Z
  end.

(** The errors of [cmd.Output] and [cmd.CombinedOutput]. *)
Inductive cmdError :=
| ExitError (ps : ProcessState)
| OtherError (msg : gostring).

Section WithEnvironment.

Variable ReadDir : gostring → list DirEntry.
Variable Match : gostring → gostring → bool.
(** [os.Environ()]. *)
Variable Environ : list gostring.

Definition findRootPath (h : LangHandler) (fname : gostring) (lang : Language) : gostring :=
  let dir := matchRootPath ReadDir Match fname (RootMarkers lang) in
  if negb (eqb dir []) then dir else RootPath h.

Definition buildExecCmd (command rootPath textToFormat : gostring) (config : Language)
    (stdin : bool) : Cmd :=
  {| Args := [shell; shellFlag; command];
     CmdDir := rootPath;
     CmdEnv := Environ ++ Env config;
     Stdin := if stdin then Some textToFormat else None |}.

End WithEnvironment.

End Command.

(** ** The entries of the errorformat scanner (library
    [reviewdog/errorformat]) *)

Module errorformat.

Record Entry := {
  Filename : gostring;
  Lnum : Z;
  EndLnum : Z;
  Col : Z;
  EndCol : Z;
  Nr : Z;
  Text : gostring;
  Type_ : rune;
  Valid : bool
}.

End errorformat.

(** ** Package [core]: the linting pipeline (linting.go) *)

Module Lint.
Import strings filepath Root Store Command.

Inductive error :=
| ErrDocumentNotFound (uri : DocumentURI)
| ErrCommand (e : cmdError)
| ErrInvalidErrorFormat (configFormats : list gostring).

Definition unknownExitCode : Z := (-999)%Z.
Definition defaultLintFormats : list gostring := [lit "%f:%l:%m"; lit "%f:%l:%c:%m"].

Definition getSeverity (typ : rune) (categoryMap : gmap gostring gostring)
    (defaultSeverity : DiagnosticSeverity) : option DiagnosticSeverity :=
  typ ← (if bool_decide (0 < size categoryMap)
         then head (default [] (categoryMap !! string_of_rune typ))
         else Some typ);
  let severity := DiagError in
  let severity := if bool_decide (defaultSeverity ≠ 0%Z) then defaultSeverity else severity in
  Some (if bool_decide (typ = 69 ∨ typ = 101)%Z then DiagError
        else if bool_decide (typ = 87 ∨ typ = 119)%Z then DiagWarning
        else if bool_decide (typ = 73 ∨ typ = 105)%Z then DiagInformation
        else if bool_decide (typ = 78 ∨ typ = 110)%Z then DiagHint
        else severity).

Definition parseErrorExitCode (err : cmdError) : Z :=
  match err with
  | ExitError ps => ExitCode ps
  | OtherError _ => unknownExitCode
  end.

(** [runLintCommand], given what [cmd.CombinedOutput()] returned.  The
    first component of the result is [None] for a nil slice. *)
Definition runLintCommand (combined : gostring * option cmdError) (config : Language)
    : option gostring * option cmdError :=
  let '(lintOutput, lintCmdError) := combined in
  match lintCmdError with
  | None => if LintIgnoreExitCode config then (Some lintOutput, None) else (None, None)
  | Some e =>
      let code := parseErrorExitCode e in
      if (code =? unknownExitCode)%Z then (Some lintOutput, lintCmdError)
      else if (code <? 0)%Z then (None, None)
      else (Some lintOutput, None)
  end.

Definition getLintSource (config : Language) : option gostring :=
  if negb (eqb (LintSource config) []) then Some (LintSource config) else None.

Definition getLintMessagePrefix (config : Language) : gostring :=
  if negb (eqb (Prefix config) []) then lit "[" ++ Prefix config ++ lit "] " else [].

Definition buildLintCommandString (rootPath : gostring) (f : fileRef) (config : Language)
    : gostring :=
  let command := LintCommand config in
  let command :=
    if negb (LintStdin config) && negb (Contains command inputPlaceholder)
    then command ++ lit " " ++ inputPlaceholder else command in
  replaceMagicStrings command (NormalizedFilename f) rootPath.

Definition replaceStdinInEntryFilename (entryFilename : gostring) (config : Language)
    (fname : gostring) : gostring :=
  let entryFilename :=
    if LintStdin config && isStdinPlaceholder entryFilename then fname else entryFilename in
  ToSlash entryFilename.

(** [comparePaths] of the non-Windows build. *)
Definition comparePaths (path1 path2 : gostring) : bool := eqb path1 path2.

(** [filepath.IsAbs] and [filepath.Join] for two elements. *)
Definition IsAbs (path : gostring) : bool := HasPrefix path (lit "/").
Definition Join2 (a b : gostring) : gostring :=
  if negb (eqb a []) then Clean (a ++ lit "/" ++ b)
  else if negb (eqb b []) then Clean b else [].

Section WithEnvironment.

Variable ReadDir : gostring → list DirEntry.
Variable Match : gostring → gostring → bool.
Variable Environ : list gostring.

(** What running a command and collecting its output gives. *)
Variable CombinedOutput : Cmd → gostring * option cmdError.

(** [errorformat.NewErrorformat] followed by a scan of the output; [None]
    for formats that do not compile. *)
Variable NewErrorformat : list gostring → option (gostring → list errorformat.Entry).

(** [ParseLocalFileToURI] and [WordAtUtf16] live in files of package [core]
    that are not part of the sources at hand; they are parameters.  The word
    is given by its UTF-16 code units. *)
Variable ParseLocalFileToURI : gostring → DocumentURI.
Variable WordAtUtf16 : gostring → Position → list Z.

Definition getLintConfigsForDocument (fname langId : gostring)
    (allConfigs : gmap gostring (list Language)) (eventType : EventType) : list Language :=
  filter (λ cfg,
    negb (eqb (LintCommand cfg) [])
    && negb (eqb (matchRootPath ReadDir Match fname (RootMarkers cfg)) [] && RequireMarker cfg)
    && match eventType with
       | EventTypeOpen => boolOrDefault (LintAfterOpen cfg) true
       | EventTypeChange => boolOrDefault (LintOnChange cfg) true
       | EventTypeSave => boolOrDefault (LintOnSave cfg) true
       end = true)
    (getAllConfigsForLang allConfigs langId).

Definition buildErrorformats (configFormats : list gostring)
    : (gostring → list errorformat.Entry) + error :=
  let formats := if bool_decide (length configFormats = 0) then defaultLintFormats
                 else configFormats in
  match NewErrorformat formats with
  | None => inr (ErrInvalidErrorFormat formats)
  | Some efms => inl efms
  end.

Definition isEntryForRequestedURI (rootPath : gostring) (uri : DocumentURI)
    (entry : errorformat.Entry) : bool :=
  if eqb (errorformat.Filename entry) [] then true
  else
    let diagURI :=
      if IsAbs (errorformat.Filename entry)
      then ParseLocalFileToURI (errorformat.Filename entry)
      else ParseLocalFileToURI (Join2 rootPath (errorformat.Filename entry)) in
    comparePaths diagURI uri.

(** [parseEfmEntryToDiagnostic]; [None] when [getSeverity] panics. *)
Definition parseEfmEntryToDiagnostic (entry : errorformat.Entry) (config : Language)
    (f : fileRef) : option Diagnostic :=
  let lineStart := Z.max (int_sub (int_sub (errorformat.Lnum entry) 1) (LintOffset config)) 0 in
  let lineEnd := lineStart in
  let lineEnd :=
    if negb (errorformat.EndLnum entry =? 0)%Z
    then Z.max (int_sub (int_sub (errorformat.EndLnum entry) 1) (LintOffset config)) 0
    else lineEnd in
  let colStart := Z.max (int_sub (errorformat.Col entry) 1) 0 in
  let colEnd := colStart in
  let '(colStart, colEnd) :=
    if negb (errorformat.Col entry =? 0)%Z then
      let colStart := int_add colStart (LintOffsetColumns config) in
      if negb (errorformat.EndCol entry =? 0)%Z then
        let colEnd := Z.max (int_sub (errorformat.EndCol entry) 1) 0 in
        (colStart, int_add colEnd (LintOffsetColumns config))
      else
        let word := WordAtUtf16 (Text f) {| Line := lineStart; Character := colStart |} in
        (colStart, int_add colStart (Z.of_nat (length word)))
    else (colStart, colEnd) in
  severity ← getSeverity (errorformat.Type_ entry) (LintCategoryMap config) (LintSeverity config);
  Some {| DRange := {| Start := {| Line := lineStart; Character := colStart |};
                       End := {| Line := lineEnd; Character := colEnd |} |};
          Code := itoaPtrIfNotZero (errorformat.Nr entry);
          Message := getLintMessagePrefix config ++ errorformat.Text entry;
          Severity := severity;
          Source := getLintSource config |}.

(** The scanner loop of [lintDocument]. *)
Fixpoint scan_entries (rootPath : gostring) (f : fileRef) (config : Language)
    (entries : list errorformat.Entry) (diagnostics : list Diagnostic)
    : option (list Diagnostic) :=
  match entries with
  | [] => Some diagnostics
  | entry :: rest =>
      if negb (errorformat.Valid entry) then scan_entries rootPath f config rest diagnostics
      else
        let entry := {| errorformat.Filename :=
                          replaceStdinInEntryFilename (errorformat.Filename entry) config
                            (NormalizedFilename f);
                        errorformat.Lnum := errorformat.Lnum entry;
                        errorformat.EndLnum := errorformat.EndLnum entry;
                        errorformat.Col := errorformat.Col entry;
                        errorformat.EndCol := errorformat.EndCol entry;
                        errorformat.Nr := errorformat.Nr entry;
                        errorformat.Text := errorformat.Text entry;
                        errorformat.Type_ := errorformat.Type_ entry;
                        errorformat.Valid := errorformat.Valid entry |} in
        if negb (isEntryForRequestedURI rootPath (Uri f) entry)
        then scan_entries rootPath f config rest diagnostics
        else
          diagnostic ← parseEfmEntryToDiagnostic entry config f;
          scan_entries rootPath f config rest (diagnostics ++ [diagnostic])
  end.

(** [lintDocument]; [None] when it panics. *)
Definition lintDocument (rootPath : gostring) (f : fileRef) (config : Language)
    : option (list Diagnostic + error) :=
  let diagnostics := [] in
  let cmdStr := buildLintCommandString rootPath f config in
  let cmd := buildExecCmd Environ cmdStr rootPath (Text f) config (LintStdin config) in
  match runLintCommand (CombinedOutput cmd) config with
  | (_, Some err) => Some (inr (ErrCommand err))
  | (lintOutput, None) =>
      match buildErrorformats (LintFormats config) with
      | inr err => Some (inr err)
      | inl efms =>
          inl <$> scan_entries rootPath f config (efms (default [] lintOutput)) diagnostics
      end
  end.

(** *** [RunAllLinters]

    [RunAllLinters] sends on three unbuffered channels, each drained in
    order by one goroutine of its caller, and runs one goroutine per
    selected config.  Every such task ends with one send, so a run is
    determined by the order in which the tasks get to send.  The run is a
    transition system: [at_] is the point the function has reached, the
    other fields are the messages received from each channel so far.  The
    store is the one found when the run starts. *)

Inductive point :=
| Resetting (configs : list Language)
| Beginning (configs : list Language)
| Waiting (pending : list Language)
| Returned (err : option error)
| Panicked.

Record run := {
  diagnosticsOut : list PublishDiagnosticsParams;
  errorsOut : list error;
  progress : list ProgressParams;
  at_ : point
}.

(** The message that resets the diagnostics of [uri]. *)
Definition reset_message (uri : DocumentURI) (f : fileRef) : PublishDiagnosticsParams :=
  {| URI := uri; Diagnostics := []; PVersion := Version f |}.

(** The place of the reset in a run: nothing is sent on the diagnostics
    channel before it, and from then on it heads the channel. *)
Definition reset_leads (uri : DocumentURI) (f : fileRef) (r : run) : Prop :=
  match at_ r with
  | Resetting _ => diagnosticsOut r = []
  | _ => ∃ rest, diagnosticsOut r = reset_message uri f :: rest
  end.

(** The statements of [RunAllLinters] up to the first send. *)
Definition RunAllLinters_enter (h : LangHandler) (uri : DocumentURI) (eventType : EventType)
    : run :=
  let at_ :=
    match files h !! uri with
    | None => Returned (Some (ErrDocumentNotFound uri))
    | Some f =>
        let configs := getLintConfigsForDocument (NormalizedFilename f) (LanguageID f)
                         (configs h) eventType in
        if bool_decide (length configs = 0) then Returned None else Resetting configs
    end in
  {| diagnosticsOut := []; errorsOut := []; progress := []; at_ := at_ |}.

(** One send of [RunAllLinters]; while it waits for its tasks, the send of
    the task at index [pick] of the pending ones. *)
Definition RunAllLinters_step (h : LangHandler) (progressToken : gostring) (uri : DocumentURI)
    (pick : nat) (r : run) : option run :=
  f ← files h !! uri;
  match at_ r with
  | Resetting configs =>
      Some {| diagnosticsOut := diagnosticsOut r ++ [reset_message uri f];
              errorsOut := errorsOut r; progress := progress r; at_ := Beginning configs |}
  | Beginning configs =>
      Some {| diagnosticsOut := diagnosticsOut r; errorsOut := errorsOut r;
              progress := progress r ++
                [{| Token := progressToken;
                    Value := NewWorkDoneProgressBegin (lit "Linting document") None None |}];
              at_ := Waiting configs |}
  | Waiting [] =>
      Some {| diagnosticsOut := diagnosticsOut r; errorsOut := errorsOut r;
              progress := progress r ++
                [{| Token := progressToken; Value := NewWorkDoneProgressEnd None |}];
              at_ := Returned None |}
  | Waiting pending =>
      config ← pending !! pick;
      let rootPath := findRootPath ReadDir Match h (NormalizedFilename f) config in
      match lintDocument rootPath f config with
      | None =>
          Some {| diagnosticsOut := diagnosticsOut r; errorsOut := errorsOut r;
                  progress := progress r; at_ := Panicked |}
      | Some (inr err) =>
          Some {| diagnosticsOut := diagnosticsOut r; errorsOut := errorsOut r ++ [err];
                  progress := progress r; at_ := Waiting (delete pick pending) |}
      | Some (inl diagnostics) =>
          Some {| diagnosticsOut := diagnosticsOut r ++
                    [{| URI := uri; Diagnostics := diagnostics; PVersion := Version f |}];
                  errorsOut := errorsOut r; progress := progress r;
                  at_ := Waiting (delete pick pending) |}
      end
  | Returned _ | Panicked => None
  end.

(** A step of a run, whichever task sends. *)
Definition RunAllLinters_steps (h : LangHandler) (progressToken : gostring)
    (uri : DocumentURI) (r r' : run) : Prop :=
  ∃ pick, RunAllLinters_step h progressToken uri pick r = Some r'.

(** The run in which the tasks send in the order given by [picks]. *)
Fixpoint RunAllLinters_play (h : LangHandler) (progressToken : gostring) (uri : DocumentURI)
    (picks : list nat) (r : run) : run :=
  match picks with
  | [] => r
  | pick :: picks' =>
      match RunAllLinters_step h progressToken uri pick r with
      | Some r' => RunAllLinters_play h progressToken uri picks' r'
      | None => r
      end
  end.

End WithEnvironment.

(** The severity of section 4.6 of the specification, for a type rune that
    went through the category map: the letters E, W, I and N in either case
    give their severity, any other rune falls back to [lintSeverity] when it
    is set and to Error otherwise. *)
Definition severity_of_letter (typ : rune) (lintSeverity : DiagnosticSeverity)
    : DiagnosticSeverity :=
  if bool_decide (typ ∈ [69; 101]%Z) then DiagError
  else if bool_decide (typ ∈ [87; 119]%Z) then DiagWarning
  else if bool_decide (typ ∈ [73; 105]%Z) then DiagInformation
  else if bool_decide (typ ∈ [78; 110]%Z) then DiagHint
  else if bool_decide (lintSeverity = 0%Z) then DiagError
  else lintSeverity.

(** Inputs of the examples. *)
Definition plain_config : Language :=
  {| Env := []; RootMarkers := []; RequireMarker := false; Prefix := [];
     LintFormats := []; LintStdin := true; LintOffset := 0; LintOffsetColumns := 5;
     LintCommand := lit "lint"; LintIgnoreExitCode := true; LintCategoryMap := ∅;
     LintSource := []; LintSeverity := 0; LintAfterOpen := None; LintOnChange := None;
     LintOnSave := None; FormatCommand := []; FormatCanRange := false |}.

Definition whole_line_entry : errorformat.Entry :=
  {| errorformat.Filename := []; errorformat.Lnum := 2; errorformat.EndLnum := 0;
     errorformat.Col := 0; errorformat.EndCol := 0; errorformat.Nr := 0;
     errorformat.Text := lit "msg"; errorformat.Type_ := 69; errorformat.Valid := true |}.

Definition file_a : fileRef :=
  {| Version := 7; NormalizedFilename := lit "/a.go"; LanguageID := lit "go";
     Text := lit "package a"; Uri := uri_a |}.

Definition handler_a : LangHandler :=
  {| configs := {[ lit "go" := [plain_config] ]}; files := {[ uri_a := file_a ]};
     RootPath := lit "/" |}.

(** An environment for the examples: empty directories, a linter that
    prints nothing and succeeds, a scanner that reports one whole-line
    entry. *)
Definition empty_dir (dir : gostring) : list DirEntry := [].
Definition literal_match (pattern name : gostring) : bool := eqb pattern name.
Definition silent_linter (cmd : Cmd) : gostring * option cmdError := ([], None).
Definition one_entry (formats : list gostring)
    : option (gostring → list errorformat.Entry) :=
  Some (λ _, [whole_line_entry]).
Definition uri_of_path (path : gostring) : DocumentURI := lit "file://" ++ path.
Definition no_word (text : gostring) (position : Position) : list Z := [].

(** The category map of the test [TestLintCategoryMap]. *)
Definition refactor_to_info : gmap gostring gostring := {[ lit "R" := lit "I" ]}.

End Lint.

(** ** Package [core]: the edit computer (diff.go) and its test oracle
    (diff_test.go) *)

Module Diff.
Import strings.

(** One step of a line edit script. *)
Inductive lineOp :=
| Keep (line : gostring)
| Delete (line : gostring)
| Insert (line : gostring).

(** The lines of the old text and of the new text that a script spells. *)
Definition old_lines (ops : list lineOp) : list gostring :=
  ops ≫= λ o, match o with Keep l | Delete l => [l] | Insert _ => [] end.
Definition new_lines (ops : list lineOp) : list gostring :=
  ops ≫= λ o, match o with Keep l | Insert l => [l] | Delete _ => [] end.

(** The number of deleted and inserted lines. *)
Fixpoint cost (ops : list lineOp) : nat :=
  match ops with
  | [] => 0
  | Keep _ :: ops' => cost ops'
  | _ :: ops' => S (cost ops')
  end.

(** A shortest line edit script from [xs] to [ys] ([diff_lines_shortest]):
    equal first lines are kept, otherwise the cheaper of deleting the first
    old line and inserting the first new line is taken. *)
Fixpoint diff_lines (xs ys : list gostring) {struct xs} : list lineOp :=
  match xs with
  | [] => Insert <$> ys
  | x :: xs' =>
      (fix against (ys : list gostring) : list lineOp :=
         match ys with
         | [] => Delete <$> (x :: xs')
         | y :: ys' =>
             if eqb x y then Keep x :: diff_lines xs' ys'
             else
               let del := Delete x :: diff_lines xs' (y :: ys') in
               let ins := Insert y :: against ys' in
               if cost del <=? cost ins then del else ins
         end) ys
  end.

(** [ops] is an edit script from the lines [xs] to the lines [ys]. *)
Definition script_for (xs ys : list gostring) (ops : list lineOp) : Prop :=
  old_lines ops = xs ∧ new_lines ops = ys.

(** The edit of a finished hunk: it replaces the old lines from [start] up
    to [line] by [text]. *)
Definition hunk_edit (start line : nat) (text : gostring) : TextEdit :=
  {| Range_ := {| Start := {| Line := Z.of_nat start; Character := 0 |};
                  End := {| Line := Z.of_nat line; Character := 0 |} |};
     NewText := text |}.

(** The edits of a script.  [line] counts the old lines passed; [hunk] is
    the hunk being gathered, with its first line and its new text.  Adjacent
    deletions and insertions are gathered in one hunk, which a kept line
    closes. *)
Fixpoint hunks (ops : list lineOp) (line : nat) (hunk : option (nat * gostring))
    : list TextEdit :=
  match ops with
  | [] =>
      match hunk with
      | Some (start, text) => [hunk_edit start line text]
      | None => []
      end
  | Keep _ :: ops' =>
      match hunk with
      | Some (start, text) => hunk_edit start line text :: hunks ops' (S line) None
      | None => hunks ops' (S line) None
      end
  | Delete _ :: ops' =>
      match hunk with
      | Some (start, text) => hunks ops' (S line) (Some (start, text))
      | None => hunks ops' (S line) (Some (line, []))
      end
  | Insert l :: ops' =>
      match hunk with
      | Some (start, text) => hunks ops' line (Some (start, text ++ l))
      | None => hunks ops' line (Some (line, l))
      end
  end.

(** Modelled from the spec: [ComputeEdits], whose file (diff.go of package
    [core]) is not part of the sources at hand.  Following section 4.3 of
    the specification it is a minimal line diff: the edits are sorted and do
    not overlap, every range runs from character 0 of a line to character 0
    of a line, a deletion has an empty new text, an insertion an empty
    range, adjacent changes are one replacement, and equal texts give no
    edit.  Lines are cut after each newline, as [applyEdits] cuts them.  The
    error result is always nil and is left out.  The tests of diff_test.go
    show that the implementation sometimes widens a hunk to the line before
    it (an insertion in the middle of a text replaces the previous line by
    itself and the new line); such choices are not part of the contract and
    the model does not make them. *)
Definition ComputeEdits (uri : DocumentURI) (before after : gostring) : list TextEdit :=
  hunks (diff_lines (SplitAfter1 newline before) (SplitAfter1 newline after)) 0 None.

(** The loop [for i := lastLine; i < hi; i++] of [applyEdits], for [n]
    iterations from [i]; [None] when [lines[i]] panics. *)
Fixpoint write_lines (lines : list gostring) (n : nat) (i : Z) (result : gostring)
    : option gostring :=
  match n with
  | O => Some result
  | S n' =>
      if (i <? Z.of_nat (length lines))%Z then
        if (i <? 0)%Z then None
        else write_lines lines n' (i + 1) (result ++ default [] (lines !! Z.to_nat i))
      else write_lines lines n' (i + 1) result
  end.

(** The loop over the edits of [applyEdits], followed by the loop that
    appends the remaining lines. *)
Fixpoint apply_loop (lines : list gostring) (edits : list TextEdit) (lastLine : Z)
    (result : gostring) : option gostring :=
  match edits with
  | [] => write_lines lines (Z.to_nat (Z.of_nat (length lines) - lastLine)) lastLine result
  | e :: edits' =>
      result ← write_lines lines (Z.to_nat (Line (Start (Range_ e)) - lastLine)) lastLine result;
      apply_loop lines edits' (Line (End (Range_ e))) (result ++ NewText e)
  end.

(** [applyEdits] of diff_test.go. *)
Definition applyEdits (text : gostring) (edits : list TextEdit) : option gostring :=
  apply_loop (SplitAfter1 newline text) edits 0 [].

(** A text of the tests: each line followed by a newline. *)
Definition text_of_lines (lines : list string) : gostring :=
  lines ≫= λ l, lit l ++ [newline].

Definition line_edit (start end_ : Z) (newText : gostring) : TextEdit :=
  {| Range_ := {| Start := {| Line := start; Character := 0 |};
                  End := {| Line := end_; Character := 0 |} |};
     NewText := newText |}.

End Diff.

(** ** Package [core]: the formatting pipeline (formatting.go) *)

Module Format.
Import strings filepath Root Store Command Diff.

(** A value of [FormattingOptions], a [map[string]any]: a boolean, or a
    value of another dynamic type given by its [%v] rendering. *)
Inductive optionValue :=
| OptBool (b : bool)
| OptOther (rendered : gostring).

(** The compiled regular expressions of the package:
    [\${[^}]*}], [\$\{([^:}]+):([^}]+)\}] and [\$\{([^=}]+)=([^}]+)\}]. *)
Inductive regexp := reUnfilledPlaceholders | reColon | reEquals.

Definition dollar : Z := 36.
Definition lbrace : Z := 123.
Definition rbrace : Z := 125.
Definition colon : Z := 58.
Definition equals : Z := 61.

(** The match of [\$\{([^sep}]+)sep([^}]+)\}] that starts at the head of
    [s], with its two groups.  Each group is a longest run, as no shorter
    run can be followed by the rune that must come next. *)
Definition match_option (sep : Z) (s : gostring) : option (list gostring) :=
  match s with
  | d :: b :: rest =>
      if (d =? dollar)%Z && (b =? lbrace)%Z then
        let flag := take_while (λ c, negb (c =? sep)%Z && negb (c =? rbrace)%Z) rest in
        match drop (length flag) rest with
        | c :: rest' =>
            if negb (eqb flag []) && (c =? sep)%Z then
              let opt := take_while (λ c, negb (c =? rbrace)%Z) rest' in
              match drop (length opt) rest' with
              | c' :: _ =>
                  if negb (eqb opt []) && (c' =? rbrace)%Z
                  then Some [[dollar; lbrace] ++ flag ++ [sep] ++ opt ++ [rbrace]; flag; opt]
                  else None
              | [] => None
              end
            else None
        | [] => None
        end
      else None
  | _ => None
  end.

(** The match of [\${[^}]*}] that starts at the head of [s]. *)
Definition match_unfilled (s : gostring) : option (list gostring) :=
  match s with
  | d :: b :: rest =>
      if (d =? dollar)%Z && (b =? lbrace)%Z then
        let body := take_while (λ c, negb (c =? rbrace)%Z) rest in
        match drop (length body) rest with
        | _ :: _ => Some [[dollar; lbrace] ++ body ++ [rbrace]]
        | [] => None
        end
      else None
  | _ => None
  end.

(** The match of [re] at the head of [s]: the matched text, then the
    groups. *)
Definition match_at (re : regexp) (s : gostring) : option (list gostring) :=
  match re with
  | reUnfilledPlaceholders => match_unfilled s
  | reColon => match_option colon s
  | reEquals => match_option equals s
  end.

(** [re.FindStringSubmatch(s)]: the leftmost match; nil when there is
    none. *)
Fixpoint FindStringSubmatch (re : regexp) (s : gostring) : list gostring :=
  match match_at re s with
  | Some parts => parts
  | None =>
      match s with
      | [] => []
      | _ :: s' => FindStringSubmatch re s'
      end
  end.

(** The scan of [re.ReplaceAllStringFunc]: the matches are taken from left
    to right without overlap; [skip] counts the runes of the match that is
    being passed over.  [repl] may panic. *)
Fixpoint replace_matches (re : regexp) (repl : gostring → option gostring) (skip : nat)
    (s : gostring) : option gostring :=
  match s with
  | [] => Some []
  | c :: s' =>
      match skip with
      | S k => replace_matches re repl k s'
      | O =>
          match match_at re s with
          | Some (m :: _) =>
              r ← repl m;
              rest ← replace_matches re repl (pred (length m)) s';
              Some (r ++ rest)
          | _ =>
              rest ← replace_matches re repl 0 s';
              Some (c :: rest)
          end
      end
  end.

Definition ReplaceAllStringFunc (re : regexp) (src : gostring)
    (repl : gostring → option gostring) : option gostring :=
  replace_matches re repl 0 src.

(** [re.ReplaceAllString(src, repl)] for a [repl] without [$]. *)
Definition ReplaceAllString (re : regexp) (src repl : gostring) : gostring :=
  default [] (replace_matches re (λ _, Some repl) 0 src).

Section Placeholders.

Context {T : Type}.
(** The type switch [any(v).(type)] with the [%v] rendering. *)
Variable render : T → optionValue.

(** [resolveOptionsPlaceholder]; [None] when [parts[1]] panics. *)
Definition resolveOptionsPlaceholder (re : regexp) (match_ : gostring)
    (options : gmap gostring T) (sep : gostring) : option gostring :=
  let parts := FindStringSubmatch re match_ in
  flag ← parts !! 1;
  opt ← parts !! 2;
  let neg := HasPrefix opt (lit "!") in
  let key := TrimPrefix opt (lit "!") in
  match options !! key with
  | None => Some match_
  | Some v =>
      match render v with
      | OptBool b => if Bool.eqb b (negb neg) then Some flag else Some []
      | OptOther rendered => if neg then Some [] else Some (flag ++ sep ++ rendered)
      end
  end.

(** [applyOptionsPlaceholders]; its error result is always nil and is left
    out. *)
Definition applyOptionsPlaceholders (command : gostring) (options : gmap gostring T)
    : option gostring :=
  command ← ReplaceAllStringFunc reColon command
               (λ match_, resolveOptionsPlaceholder reColon match_ options (lit " "));
  command ← ReplaceAllStringFunc reEquals command
               (λ match_, resolveOptionsPlaceholder reEquals match_ options (lit "="));
  Some (TrimSpace command).

End Placeholders.

(** A formatting option is its own case of the type switch; an [int] is
    never a [bool] and is rendered in decimal. *)
Definition render_any (v : optionValue) : optionValue := v.
Definition render_int (n : Z) : optionValue := OptOther (lit (pretty n)).

(** [convertRowColToIndex]; [None] when an index panics. *)
Definition convertRowColToIndex (lines : list gostring) (row col : Z) : option Z :=
  let row := Z.max row 0 in
  let row := Z.min row (Z.of_nat (length lines) - 1) in
  let col := Z.max col 0 in
  line ← (if (row <? 0)%Z then None else lines !! Z.to_nat row);
  let col := Z.min col (len line) in
  let index := foldl (λ index l, int_add index (int_add (len l) 1)) 0%Z
                 (take (Z.to_nat row) lines) in
  Some (int_add index col).

Definition applyRangePlaceholders (command : gostring) (rng : Range) (text : gostring)
    : option gostring :=
  let lines := Split1 newline text in
  charStart ← convertRowColToIndex lines (Line (Start rng)) (Character (Start rng));
  charEnd ← convertRowColToIndex lines (Line (End rng)) (Character (End rng));
  let rangeOptions : gmap gostring Z :=
    <[lit "charStart" := charStart]> (
    <[lit "charEnd" := charEnd]> (
    <[lit "rowStart" := Line (Start rng)]> (
    <[lit "colStart" := Character (Start rng)]> (
    <[lit "rowEnd" := Line (End rng)]> (
    <[lit "colEnd" := Character (End rng)]> ∅))))) in
  applyOptionsPlaceholders render_int command rangeOptions.

(** [buildFormatCommandString]; its error result is always nil and is left
    out. *)
Definition buildFormatCommandString (rootPath filename textToFormat : gostring)
    (options : gmap gostring optionValue) (rng : option Range) (command : gostring)
    : option gostring :=
  let command := replaceMagicStrings command filename rootPath in
  command ← applyOptionsPlaceholders render_any command options;
  command ← match rng with
             | Some rng => applyRangePlaceholders command rng textToFormat
             | None => Some command
             end;
  Some (ReplaceAllString reUnfilledPlaceholders command []).

Inductive error :=
| ErrDocumentNotFound (uri : DocumentURI)
| ErrCouldNotFormat (languageID : gostring) (errors : list gostring).

(** The variables of the loop of [RunAllFormatters]. *)
Record loopState := {
  formattedText : gostring;
  formatted : bool;
  errors : list gostring
}.

Section WithEnvironment.

Variable ReadDir : gostring → list DirEntry.
Variable Match : gostring → gostring → bool.
Variable Environ : list gostring.

(** What running a command gives to [cmd.Output()]: the standard output,
    the standard error and the error of the run. *)
Variable Output : Cmd → gostring * gostring * option cmdError.

(** [runFormattingCommand]; [inr] is the message of its error. *)
Definition runFormattingCommand (cmd : Cmd) : gostring + gostring :=
  let '(b, buf, err) := Output cmd in
  match err with
  | Some _ => inr (Join (Args cmd) (lit " ") ++ lit ": " ++ buf)
  | None => inl b
  end.

(** [formatDocument]; [inr] is the message of its error, [None] a panic. *)
Definition formatDocument (rootPath filename textToFormat : gostring) (rng : option Range)
    (options : gmap gostring optionValue) (config : Language) : option (gostring + gostring) :=
  cmdStr ← buildFormatCommandString rootPath filename textToFormat options rng
              (FormatCommand config);
  let cmd := buildExecCmd Environ cmdStr rootPath textToFormat config true in
  match runFormattingCommand cmd with
  | inr err => Some (inr (lit "formatting error: " ++ err))
  | inl out => Some (inl (ReplaceAll out carriageReturn []))
  end.

Definition getFormatConfigsForDocument (fname langId : gostring)
    (allConfigs : gmap gostring (list Language)) : list Language :=
  filter (λ cfg,
    negb (eqb (FormatCommand cfg) [])
    && negb (eqb (matchRootPath ReadDir Match fname (RootMarkers cfg)) [] && RequireMarker cfg)
    = true)
    (getAllConfigsForLang allConfigs langId).

(** The loop over the selected configs. *)
Fixpoint format_loop (h : LangHandler) (f : fileRef) (rng : option Range)
    (options : gmap gostring optionValue) (configs : list Language) (st : loopState)
    : option loopState :=
  match configs with
  | [] => Some st
  | config :: configs' =>
      let rootPath := findRootPath ReadDir Match h (NormalizedFilename f) config in
      r ← formatDocument rootPath (NormalizedFilename f) (formattedText st) rng options config;
      match r with
      | inr err =>
          format_loop h f rng options configs'
            {| formattedText := formattedText st; formatted := formatted st;
               errors := errors st ++ [err] |}
      | inl newText =>
          format_loop h f rng options configs'
            {| formattedText := newText; formatted := true; errors := errors st |}
      end
  end.

(** [RunAllFormatters]: the result and the messages sent on [progress], in
    order; [None] when it panics.  [progressToken] is the fresh token. *)
Definition RunAllFormatters (h : LangHandler) (progressToken : gostring) (uri : DocumentURI)
    (rng : option Range) (options : gmap gostring optionValue)
    : option ((list TextEdit + error) * list ProgressParams) :=
  match files h !! uri with
  | None => Some (inr (ErrDocumentNotFound uri), [])
  | Some f =>
      let configs := getFormatConfigsForDocument (NormalizedFilename f) (LanguageID f)
                       (configs h) in
      if bool_decide (length configs = 0) then Some (inl [], [])
      else
        let progress :=
          [{| Token := progressToken;
              Value := NewWorkDoneProgressBegin (lit "Formatting document") None None |}] in
        let originalText := Text f in
        st ← format_loop h f rng options configs
                {| formattedText := originalText; formatted := false; errors := [] |};
        if negb (formatted st)
        then Some (inr (ErrCouldNotFormat (LanguageID f) (errors st)), progress)
        else
          let progress :=
            progress ++ [{| Token := progressToken; Value := NewWorkDoneProgressEnd None |}] in
          Some (inl (ComputeEdits uri originalText (formattedText st)), progress)
  end.

(** What the formatter of [config] gives when it is run on [current]: its
    standard output, or the message of its failure. *)
Definition formatter_output (h : LangHandler) (f : fileRef) (rng : option Range)
    (options : gmap gostring optionValue) (config : Language) (current : gostring)
    : gostring + gostring :=
  let rootPath := findRootPath ReadDir Match h (NormalizedFilename f) config in
  match buildFormatCommandString rootPath (NormalizedFilename f) current options rng
          (FormatCommand config) with
  | Some cmdStr => runFormattingCommand (buildExecCmd Environ cmdStr rootPath current config true)
  | None => inr []
  end.

(** The chain of formatters in the words of section 4.4 of the
    specification, step 5, with the shell invocation of section 4.7 and the
    root of section 4.2.

    The per-command root is [matchRootPath] when it is not empty, else the
    root path of the server. *)
Definition effective_root (h : LangHandler) (f : fileRef) (config : Language) : gostring :=
  let dir := matchRootPath ReadDir Match (NormalizedFilename f) (RootMarkers config) in
  if bool_decide (dir = []) then RootPath h else dir.

(** The shell command [sh -c cmdStr], with the resolved root as working
    directory, the environment of the process followed by that of the
    config, and [current] on its standard input. *)
Definition shell_invocation (cmdStr root current : gostring) (config : Language) : Cmd :=
  {| Args := [lit "sh"; lit "-c"; cmdStr];
     CmdDir := root;
     CmdEnv := Environ ++ Env config;
     Stdin := Some current |}.

(** All carriage returns stripped. *)
Definition strip_carriage_returns (s : gostring) : gostring :=
  filter (λ c, c ≠ 13%Z) s.

(** The error recorded for a formatter that failed: the command line and
    what the process wrote on its standard error. *)
Definition recorded_error (cmdStr stderr : gostring) : gostring :=
  lit "formatting error: " ++ Join [lit "sh"; lit "-c"; cmdStr] (lit " ") ++ lit ": " ++ stderr.

(** For each config in order: expand the placeholders against [current],
    the range and the options; run the shell command with standard input
    [current], capturing standard output and standard error; when the
    process does not exit with status zero, record the error and skip;
    else strip every carriage return from the standard output and let
    [current] be the result.
    [chained configs current final errors successes] relates the configs
    and the text they start from with the text they end with, the recorded
    errors and the number of formatters that succeeded. *)
Inductive chained (h : LangHandler) (f : fileRef) (rng : option Range)
    (options : gmap gostring optionValue)
    : list Language → gostring → gostring → list gostring → nat → Prop :=
| chained_done current :
    chained h f rng options [] current current [] 0
| chained_failure config configs current cmdStr stdout stderr failure final errs successes :
    buildFormatCommandString (effective_root h f config) (NormalizedFilename f) current
      options rng (FormatCommand config) = Some cmdStr →
    Output (shell_invocation cmdStr (effective_root h f config) current config)
      = (stdout, stderr, Some failure) →
    chained h f rng options configs current final errs successes →
    chained h f rng options (config :: configs) current final
      (recorded_error cmdStr stderr :: errs) successes
| chained_success config configs current cmdStr stdout stderr final errs successes :
    buildFormatCommandString (effective_root h f config) (NormalizedFilename f) current
      options rng (FormatCommand config) = Some cmdStr →
    Output (shell_invocation cmdStr (effective_root h f config) current config)
      = (stdout, stderr, None) →
    chained h f rng options configs (strip_carriage_returns stdout) final errs successes →
    chained h f rng options (config :: configs) current final errs (S successes).

End WithEnvironment.

(** A string without leading or trailing white space. *)
Definition trimmed (s : gostring) : Prop :=
  (∀ c, head s = Some c → IsSpace c = false) ∧ (∀ c, last s = Some c → IsSpace c = false).

(** Inputs of the examples: the command line and the options of the test
    [TestBuildCommand_HandlesPlaceholders], a handler with the formatter
    [cat], and a process runner that copies the standard input. *)
Definition test_command : gostring := lit "echo ${flag:opt} ${anotherflag:tpo}".
Definition test_options : gmap gostring optionValue :=
  {[ lit "opt" := OptOther (lit "value") ]}.

Definition cat_config : Language :=
  {| Env := []; RootMarkers := []; RequireMarker := false; Prefix := [];
     LintFormats := []; LintStdin := false; LintOffset := 0; LintOffsetColumns := 0;
     LintCommand := []; LintIgnoreExitCode := false; LintCategoryMap := ∅;
     LintSource := []; LintSeverity := 0; LintAfterOpen := None; LintOnChange := None;
     LintOnSave := None; FormatCommand := lit "cat"; FormatCanRange := false |}.

Definition hello_file : fileRef :=
  {| Version := 1; NormalizedFilename := lit "/a.go"; LanguageID := lit "go";
     Text := lit "hello"; Uri := uri_a |}.

Definition cat_handler : LangHandler :=
  {| configs := {[ lit "go" := [cat_config] ]}; files := {[ uri_a := hello_file ]};
     RootPath := lit "/" |}.

Definition no_entries (dir : gostring) : list DirEntry := [].
Definition no_match (pattern name : gostring) : bool := false.
Definition copy_stdin (cmd : Cmd) : gostring * gostring * option cmdError :=
  (default [] (Stdin cmd), [], None).

End Format.

(** ** Package [lsp]: the lint debounce (handler.go) *)

Module Scheduler.

(** A [time.Timer] made by [time.AfterFunc]: the instant at which it fires
    and the variables its function closes over. *)
Record Timer := {
  deadline : Z;
  closure_uri : DocumentURI;
  closure_eventType : EventType
}.

(** The fields of [LspHandler] that [ScheduleLinting] uses. *)
Record LspHandler := {
  lintTimer : option Timer;
  lintDebounce : Z
}.

(** The server as the scheduler sees it: the handler, the clock, the calls
    of [RunAllLinters] with the instant of each call, the package variable
    [running] (each URI is bound to the index of its latest run) and the
    runs whose context was cancelled. *)
Record server := {
  handler : LspHandler;
  now : Z;
  dispatched : list (Z * DocumentURI * EventType);
  running : gmap DocumentURI nat;
  cancelled : list nat
}.

(** [ScheduleLinting], called at the instant [now]. *)
Definition ScheduleLinting (s : server) (uri : DocumentURI) (eventType : EventType) : server :=
  match lintTimer (handler s) with
  | Some t =>
      (* h.lintTimer.Reset(h.lintDebounce) *)
      {| handler := {| lintTimer := Some {| deadline := now s + lintDebounce (handler s);
                                            closure_uri := closure_uri t;
                                            closure_eventType := closure_eventType t |};
                       lintDebounce := lintDebounce (handler s) |};
         now := now s; dispatched := dispatched s; running := running s;
         cancelled := cancelled s |}
  | None =>
      {| handler := {| lintTimer := Some {| deadline := now s + lintDebounce (handler s);
                                            closure_uri := uri;
                                            closure_eventType := eventType |};
                       lintDebounce := lintDebounce (handler s) |};
         now := now s; dispatched := dispatched s; running := running s;
         cancelled := cancelled s |}
  end.

(** The function given to [time.AfterFunc], run when the timer [t] fires:
    it clears the timer, cancels the run registered for its URI, registers
    a new one and calls [RunAllLinters]. *)
Definition fire (s : server) (t : Timer) : server :=
  {| handler := {| lintTimer := None; lintDebounce := lintDebounce (handler s) |};
     now := now s;
     dispatched := dispatched s ++ [(now s, closure_uri t, closure_eventType t)];
     running := <[closure_uri t := length (dispatched s)]> (running s);
     cancelled := match running s !! closure_uri t with
                  | Some previous => cancelled s ++ [previous]
                  | None => cancelled s
                  end |}.

(** Time passes until the instant [t]: a timer whose deadline is reached
    fires at its deadline. *)
Definition advance (s : server) (t : Z) : server :=
  let s :=
    match lintTimer (handler s) with
    | Some tm =>
        if (deadline tm <=? t)%Z then
          fire {| handler := handler s; now := Z.max (now s) (deadline tm);
                  dispatched := dispatched s; running := running s;
                  cancelled := cancelled s |} tm
        else s
    | None => s
    end in
  {| handler := handler s; now := Z.max (now s) t; dispatched := dispatched s;
     running := running s; cancelled := cancelled s |}.

(** The server after the calls of [ScheduleLinting] made at the given
    instants. *)
Fixpoint play (calls : list (Z * DocumentURI * EventType)) (s : server) : server :=
  match calls with
  | [] => s
  | (t, uri, eventType) :: calls' => play calls' (ScheduleLinting (advance s t) uri eventType)
  end.

(** The server once no timer is pending any more. *)
Definition settle (s : server) : server :=
  match lintTimer (handler s) with
  | Some tm => advance s (deadline tm)
  | None => s
  end.

(** The lint runs that a sequence of calls leads to, from a server started
    at instant 0 with the given debounce. *)
Definition start (debounce : Z) : server :=
  {| handler := {| lintTimer := None; lintDebounce := debounce |}; now := 0;
     dispatched := []; running := ∅; cancelled := [] |}.

Definition lint_runs (debounce : Z) (calls : list (Z * DocumentURI * EventType))
    : list (Z * DocumentURI * EventType) :=
  dispatched (settle (play calls (start debounce))).

(** Each call comes less than [debounce] after the one before. *)
Fixpoint within_window (debounce previous : Z) (calls : list (Z * DocumentURI * EventType))
    : Prop :=
  match calls with
  | [] => True
  | (t, _, _) :: calls' =>
      (previous ≤ t < previous + debounce)%Z ∧ within_window debounce t calls'
  end.

(** The instant of the last call. *)
Definition last_call (first : Z) (calls : list (Z * DocumentURI * EventType)) : Z :=
  match last calls with
  | Some (t, _, _) => t
  | None => first
  end.

Definition uri_b : DocumentURI := lit "file:///b.go".

End Scheduler.

(** ** Package [core]: the life cycle of the handler (handler.go) *)

Module Handler.
Import strings filepath Store.

(** [types.Config]; [Languages] is a pointer, [None] when it is nil. *)
Record Config := {
  Languages : option (gmap gostring (list Language));
  LintDebounce : Z;
  FormatDebounce : Z
}.

Definition NewConfig : Config :=
  {| Languages := Some ∅; LintDebounce := 0; FormatDebounce := 0 |}.

(** [NewHandler]; [None] when [*config.Languages] dereferences nil. *)
Definition NewHandler (config : Config) : option LangHandler :=
  languages ← Languages config;
  Some {| configs := languages; files := ∅; RootPath := [] |}.

(** [LangHandler.UpdateConfiguration]. *)
Definition UpdateConfiguration (h : LangHandler) (config : Config) : LangHandler :=
  match Languages config with
  | Some languages => {| configs := languages; files := files h; RootPath := RootPath h |}
  | None => h
  end.

Record InitializeOptions := { DocumentFormatting : bool; RangeFormatting : bool }.

Record InitializeParams := {
  RootURI : DocumentURI;
  InitializationOptions : option InitializeOptions
}.

Inductive TextDocumentSyncKind := TDSKNone | TDSKFull | TDSKIncremental.

Record TextDocumentSyncOptions := { OpenClose : bool; Change : TextDocumentSyncKind }.

Record ServerCapabilities := {
  PositionEncoding : gostring;
  TextDocumentSync : TextDocumentSyncOptions;
  DocumentFormattingProvider : bool;
  RangeFormattingProvider : bool
}.

Definition UTF16 : gostring := lit "utf-16".

(** The inner loop of [Initialize] over the languages of one map entry,
    on the pair [(hasFormatCommand, hasRangeFormatCommand)]; the [break]
    leaves the loop at the first language that formats ranges. *)
Fixpoint scan_languages (config : list Language) (has : bool * bool) : bool * bool :=
  match config with
  | [] => has
  | lang :: config' =>
      if negb (eqb (FormatCommand lang) []) then
        if FormatCanRange lang then (true, true)
        else scan_languages config' (true, snd has)
      else scan_languages config' has
  end.

(** The outer loop, over the entries of [h.configs] in the order [order] in
    which the map is ranged over. *)
Definition scan_configs (order : list (gostring * list Language)) (has : bool * bool)
    : bool * bool :=
  foldl (λ has entry, scan_languages entry.2 has) has order.

Section WithURIs.

Variable PathFromURI : DocumentURI → gostring + gostring.

(** [Initialize], for a map ranged over in the order [order]; [inr] is the
    error of [PathFromURI]. *)
Definition Initialize_in (order : list (gostring * list Language)) (h : LangHandler)
    (params : InitializeParams) : LangHandler * (ServerCapabilities + gostring) :=
  let rooted :=
    if negb (eqb (RootURI params) []) then
      match PathFromURI (RootURI params) with
      | inr err => inr err
      | inl rootPath =>
          inl {| configs := configs h; files := files h; RootPath := Clean rootPath |}
      end
    else inl h in
  match rooted with
  | inr err => (h, inr err)
  | inl h =>
      let has :=
        match InitializationOptions params with
        | Some options => (DocumentFormatting options, RangeFormatting options)
        | None => (false, false)
        end in
      let has := scan_configs order has in
      (h, inl {| PositionEncoding := UTF16;
                 TextDocumentSync := {| OpenClose := true; Change := TDSKFull |};
                 DocumentFormattingProvider := fst has;
                 RangeFormattingProvider := snd has |})
  end.

(** [Initialize], with the map ranged over in the order of its list of
    entries. *)
Definition Initialize (h : LangHandler) (params : InitializeParams)
    : LangHandler * (ServerCapabilities + gostring) :=
  Initialize_in (map_to_list (configs h)) h params.

(** The requests that change the document store. *)
Inductive storeOp :=
| Open (uri : DocumentURI) (languageID : gostring) (version : Z) (text : gostring)
| Update (uri : DocumentURI) (text : gostring) (version : option Z)
| Close (uri : DocumentURI).

Definition target (op : storeOp) : DocumentURI :=
  match op with
  | Open uri _ _ _ | Update uri _ _ | Close uri => uri
  end.

Definition apply_store_op (h : LangHandler) (op : storeOp) : LangHandler :=
  match op with
  | Open uri l v t => fst (OpenFile PathFromURI h uri l v t)
  | Update uri t v => fst (UpdateFile h uri t v)
  | Close uri => fst (CloseFile h uri)
  end.

(** Every document is stored under its own URI, with the file name of that
    URI. *)
Definition well_keyed (h : LangHandler) : Prop :=
  ∀ uri f, files h !! uri = Some f →
    Uri f = uri ∧ PathFromURI uri = inl (NormalizedFilename f).

End WithURIs.

(** The tests of the inner loop of [Initialize]. *)
Definition has_format (lang : Language) : bool := negb (eqb (FormatCommand lang) []).
Definition has_range (lang : Language) : bool := has_format lang && FormatCanRange lang.

(** Some language of the configuration has a format command (that can
    format a range). *)
Definition formats (configs : gmap gostring (list Language)) (ranges : bool) : Prop :=
  ∃ langId config lang,
    configs !! langId = Some config ∧ lang ∈ config ∧ FormatCommand lang ≠ []
    ∧ (ranges = true → FormatCanRange lang = true).

(** Inputs of the examples. *)
Definition range_config : Language :=
  {| Env := []; RootMarkers := []; RequireMarker := false; Prefix := [];
     LintFormats := []; LintStdin := false; LintOffset := 0; LintOffsetColumns := 0;
     LintCommand := []; LintIgnoreExitCode := false; LintCategoryMap := ∅;
     LintSource := []; LintSeverity := 0; LintAfterOpen := None; LintOnChange := None;
     LintOnSave := None; FormatCommand := lit "fmt"; FormatCanRange := true |}.

Definition range_languages : gmap gostring (list Language) :=
  {[ lit "go" := [range_config] ]}.

Definition range_handler : LangHandler :=
  {| configs := range_languages; files := ∅; RootPath := [] |}.

Definition no_root : InitializeParams :=
  {| RootURI := []; InitializationOptions := None |}.

End Handler.

(** ** The ancestors of a file and further inputs of examples *)

Module Ancestors.
Import strings filepath Root.

(** The directories that [matchRootPath] visits: the directory of the file,
    then the directory of each directory. *)
Definition ancestor (fname : gostring) (k : nat) : gostring := Nat.iter k Dir (Dir fname).

(** A file system for the examples: [/a] holds the directory [.git] and the
    file [go.mod], every other directory is empty. *)
Definition project_tree (dir : gostring) : list DirEntry :=
  if eqb dir (lit "/a")
  then [{| Name := lit ".git"; IsDir := true |}; {| Name := lit "go.mod"; IsDir := false |}]
  else [].

Definition same_name (pattern name : gostring) : bool := eqb pattern name.

(** A config that requires a root marker and lists none. *)
Definition strict_config : Language :=
  {| Env := []; RootMarkers := []; RequireMarker := true; Prefix := [];
     LintFormats := []; LintStdin := false; LintOffset := 0; LintOffsetColumns := 0;
     LintCommand := lit "lint"; LintIgnoreExitCode := false; LintCategoryMap := ∅;
     LintSource := []; LintSeverity := 0; LintAfterOpen := None; LintOnChange := None;
     LintOnSave := None; FormatCommand := lit "fmt"; FormatCanRange := false |}.

End Ancestors.

(** ** Escaping, rune by rune *)

Module Escape.
Import strings Store.

Definition backslash : Z := 92.
Definition lparen : Z := 40.
Definition rparen : Z := 41.
Definition dollar : Z := 36.

(** A parenthesis with a backslash before it; any other rune as it is. *)
Definition escape_rune (c : Z) : gostring :=
  if bool_decide (c = lparen ∨ c = rparen) then [backslash; c] else [c].

(** A document for the examples. *)
Definition paren_file : fileRef :=
  {| Version := 1; NormalizedFilename := lit "/tmp/a (1).go"; LanguageID := lit "go";
     Text := []; Uri := lit "file:///tmp/a%20(1).go" |}.

(** A linter that takes the file name as an argument. *)
Definition golint_config : Language :=
  {| Env := []; RootMarkers := []; RequireMarker := false; Prefix := [];
     LintFormats := []; LintStdin := false; LintOffset := 0; LintOffsetColumns := 0;
     LintCommand := lit "golint"; LintIgnoreExitCode := true; LintCategoryMap := ∅;
     LintSource := []; LintSeverity := 0; LintAfterOpen := None; LintOnChange := None;
     LintOnSave := None; FormatCommand := []; FormatCanRange := false |}.

End Escape.

(** ** Option placeholders and positions *)

Module Placeholder.
Import strings Store Command Diff Format.

(** The separator of the pattern of the options. *)
Definition separator (re : regexp) : Z :=
  match re with
  | reEquals => equals
  | _ => colon
  end.

(** The text [${flag<sep>opt}]. *)
Definition placeholder (sep : Z) (flag opt : gostring) : gostring :=
  [dollar; lbrace] ++ flag ++ [sep] ++ opt ++ [rbrace].

(** The option of a placeholder: the key, after [!] when it is negated. *)
Definition option_name (neg : bool) (key : gostring) : gostring :=
  (if neg then lit "!" else []) ++ key.

(** The number of bytes of [lines], each one with the newline that ends
    it. *)
Definition sum_lines (lines : list gostring) : Z :=
  len (concat ((λ l, l ++ [newline]) <$> lines)).

(** The offset at which the line [row] starts in the text of [lines]. *)
Definition line_start (lines : list gostring) (row : nat) : Z :=
  sum_lines (take row lines).

(** The messages of the progress of a formatting request. *)
Definition progress_begin (token : gostring) : ProgressParams :=
  {| Token := token;
     Value := NewWorkDoneProgressBegin (lit "Formatting document") None None |}.
Definition progress_end (token : gostring) : ProgressParams :=
  {| Token := token; Value := NewWorkDoneProgressEnd None |}.

(** Options for the examples. *)
Definition tab_options : gmap gostring optionValue :=
  {[ lit "tabSize" := OptOther (lit "4") ]}.

End Placeholder.

(** ** The messages of a lint run *)

Module Account.
Import strings Store Command Lint.

Definition lint_begin (token : gostring) : ProgressParams :=
  {| Token := token; Value := NewWorkDoneProgressBegin (lit "Linting document") None None |}.
Definition lint_end (token : gostring) : ProgressParams :=
  {| Token := token; Value := NewWorkDoneProgressEnd None |}.

(** The messages of a run that selected [configs], at each of its points:
    every message of the diagnostics channel is for [uri] and carries the
    version of [f]; the reset, then one message per linter that is done, on
    the diagnostics or on the errors channel. *)
Definition accounted (progressToken : gostring) (uri : DocumentURI) (f : fileRef)
    (configs : list Language) (r : run) : Prop :=
  Forall (λ m, URI m = uri ∧ PVersion m = Version f) (diagnosticsOut r)
  ∧ match at_ r with
    | Resetting cs =>
        cs = configs ∧ diagnosticsOut r = [] ∧ errorsOut r = [] ∧ progress r = []
    | Beginning cs =>
        cs = configs ∧ length (diagnosticsOut r) = 1 ∧ errorsOut r = [] ∧ progress r = []
    | Waiting pending =>
        length (diagnosticsOut r) + length (errorsOut r) + length pending
          = 1 + length configs
        ∧ progress r = [lint_begin progressToken]
    | Returned err =>
        err = None
        ∧ length (diagnosticsOut r) + length (errorsOut r) = 1 + length configs
        ∧ progress r = [lint_begin progressToken; lint_end progressToken]
    | Panicked => True
    end.

(** The sends that a run has still to make. *)
Definition remaining (r : run) : nat :=
  match at_ r with
  | Resetting cs => 3 + length cs
  | Beginning cs => 2 + length cs
  | Waiting pending => 1 + length pending
  | Returned _ | Panicked => 0
  end.

(** The messages that a run has sent so far, on its three channels. *)
Definition sent (r : run) : nat :=
  length (diagnosticsOut r) + length (errorsOut r) + length (progress r).

(** The configs that a run has still to lint with. *)
Definition to_lint (r : run) : list Language :=
  match at_ r with
  | Resetting cs | Beginning cs | Waiting cs => cs
  | Returned _ | Panicked => []
  end.

Definition panicked (r : run) : bool :=
  match at_ r with
  | Panicked => true
  | _ => false
  end.

(** An entry that a linter reading its standard input reports. *)
Definition stdin_entry : errorformat.Entry :=
  {| errorformat.Filename := lit "<stdin>"; errorformat.Lnum := 2; errorformat.EndLnum := 0;
     errorformat.Col := 0; errorformat.EndCol := 0; errorformat.Nr := 0;
     errorformat.Text := lit "msg"; errorformat.Type_ := 69; errorformat.Valid := true |}.

(** A linter that is killed by a signal after it printed something, and a
    scanner that finds no entry. *)
Definition killed_linter (cmd : Cmd) : gostring * option cmdError :=
  (lit "a.go:1:x", Some (ExitError Signaled)).
Definition no_entry_scanner (formats : list gostring)
    : option (gostring → list errorformat.Entry) :=
  Some (λ _, []).

(** [entry] with the file name [name]. *)
Definition with_filename (entry : errorformat.Entry) (name : gostring) : errorformat.Entry :=
  {| errorformat.Filename := name;
     errorformat.Lnum := errorformat.Lnum entry;
     errorformat.EndLnum := errorformat.EndLnum entry;
     errorformat.Col := errorformat.Col entry;
     errorformat.EndCol := errorformat.EndCol entry;
     errorformat.Nr := errorformat.Nr entry;
     errorformat.Text := errorformat.Text entry;
     errorformat.Type_ := errorformat.Type_ entry;
     errorformat.Valid := errorformat.Valid entry |}.

End Account.

(** ** Spaced calls and superseded runs *)

Module Spacing.
Import Store Scheduler.

(** The first call comes at [bound] or later, and each call comes at least
    [debounce] after the one before. *)
Fixpoint spaced (debounce bound : Z) (calls : list (Z * DocumentURI * EventType)) : Prop :=
  match calls with
  | [] => True
  | (t, _, _) :: calls' => (bound ≤ t)%Z ∧ spaced debounce (t + debounce) calls'
  end.

(** The run that a call leads to when no other call interferes. *)
Definition delayed (debounce : Z) (call : Z * DocumentURI * EventType)
    : Z * DocumentURI * EventType :=
  ((call.1.1 + debounce)%Z, call.1.2, call.2).

(** The document of a run. *)
Definition run_uri (run : Z * DocumentURI * EventType) : DocumentURI := run.1.2.

(** The run of index [i] was followed by a run for the same document. *)
Definition superseded (s : server) (i : nat) : Prop :=
  ∃ j x y, i < j ∧ dispatched s !! i = Some x ∧ dispatched s !! j = Some y
           ∧ run_uri x = run_uri y.

(** The run of index [i] is the last one for [uri]. *)
Definition latest (s : server) (uri : DocumentURI) (i : nat) : Prop :=
  (∃ x, dispatched s !! i = Some x ∧ run_uri x = uri)
  ∧ ∀ j y, i < j → dispatched s !! j = Some y → run_uri y ≠ uri.

(** The bookkeeping of the runs: [running] binds each document to its last
    run, and the cancelled runs are the superseded ones. *)
Definition supervised (s : server) : Prop :=
  (∀ uri i, running s !! uri = Some i ↔ latest s uri i)
  ∧ (∀ i, i ∈ cancelled s ↔ superseded s i).

End Spacing.

(** ** The formatting requests of the LSP handler *)

Module Throttle.
Import strings filepath Root Store Command Diff Format Handler.

(** A [time.Timer] made by [time.AfterFunc]: the instant at which it
    fires, unless it was stopped. *)
Record Timer := {
  deadline : Z;
  stopped : bool
}.

(** [LspHandler], with its timers as [Formatting] and [Close] see them. *)
Record LspHandler := {
  langHandler : LangHandler;
  lintTimer : option Timer;
  lintDebounce : Z;
  formatTimer : option Timer;
  formatDebounce : Z
}.

Definition NewHandler (langHandler : LangHandler) : LspHandler :=
  {| langHandler := langHandler; lintTimer := None; lintDebounce := 0;
     formatTimer := None; formatDebounce := 0 |}.

(** [LspHandler.UpdateConfiguration]. *)
Definition UpdateConfiguration (h : LspHandler) (config : Config) : LspHandler :=
  {| langHandler := Handler.UpdateConfiguration (langHandler h) config;
     lintTimer := lintTimer h;
     lintDebounce := if (0 <? LintDebounce config)%Z then LintDebounce config
                     else lintDebounce h;
     formatTimer := formatTimer h;
     formatDebounce := if (0 <? FormatDebounce config)%Z then FormatDebounce config
                       else formatDebounce h |}.

(** [Timer.Stop] on a timer that may be nil. *)
Definition Stop (t : option Timer) : option Timer :=
  (λ tm, {| deadline := deadline tm; stopped := true |}) <$> t.

(** [LspHandler.Close]: the timers are stopped, the fields keep them. *)
Definition Close (h : LspHandler) : LspHandler :=
  {| langHandler := langHandler h;
     lintTimer := Stop (lintTimer h); lintDebounce := lintDebounce h;
     formatTimer := Stop (formatTimer h); formatDebounce := formatDebounce h |}.

(** The server as [Formatting] sees it: the handler, the clock, the calls
    of [RunAllFormatters] with the instant of each call, and the progress
    messages passed to the notifier. *)
Record server := {
  handler : LspHandler;
  now : Z;
  formatted : list (Z * DocumentURI);
  notified : list ProgressParams
}.

(** Time passes until the instant [t]: a format timer that was not stopped
    and whose deadline is reached runs its function, which clears the
    field. *)
Definition advance (s : server) (t : Z) : server :=
  let h := handler s in
  let h :=
    match formatTimer h with
    | Some tm =>
        if negb (stopped tm) && (deadline tm <=? t)%Z then
          {| langHandler := langHandler h; lintTimer := lintTimer h;
             lintDebounce := lintDebounce h; formatTimer := None;
             formatDebounce := formatDebounce h |}
        else h
    | None => h
    end in
  {| handler := h; now := Z.max (now s) t; formatted := formatted s;
     notified := notified s |}.

Section WithEnvironment.

Variable ReadDir : gostring → list DirEntry.
Variable Match : gostring → gostring → bool.
Variable Environ : list gostring.
Variable Output : Cmd → gostring * gostring * option cmdError.

(** [Formatting], called at the instant [now]; [progressToken] is the
    token that [RunAllFormatters] draws.  The result is [None] when
    [RunAllFormatters] panics. *)
Definition Formatting (s : server) (progressToken : gostring) (uri : DocumentURI)
    (rng : option Range) (opt : gmap gostring optionValue)
    : server * option (list TextEdit + Format.error) :=
  let h := handler s in
  match formatTimer h with
  | Some _ => (s, Some (inl []))
  | None =>
      let h' := {| langHandler := langHandler h; lintTimer := lintTimer h;
                   lintDebounce := lintDebounce h;
                   formatTimer := Some {| deadline := now s + formatDebounce h;
                                          stopped := false |};
                   formatDebounce := formatDebounce h |} in
      let run := RunAllFormatters ReadDir Match Environ Output (langHandler h) progressToken
                   uri rng opt in
      ({| handler := h'; now := now s; formatted := formatted s ++ [(now s, uri)];
          notified := notified s ++ default [] (snd <$> run) |},
       fst <$> run)
  end.

(** A formatting request and the instant at which it is made. *)
Record request := {
  instant : Z;
  token : gostring;
  document : DocumentURI;
  range : option Range;
  options : gmap gostring optionValue
}.

(** The server after the given requests, and their results. *)
Fixpoint play (requests : list request) (s : server)
    : server * list (option (list TextEdit + Format.error)) :=
  match requests with
  | [] => (s, [])
  | r :: requests' =>
      let '(s1, result) :=
        Formatting (advance s (instant r)) (token r) (document r) (range r) (options r) in
      let '(s2, results) := play requests' s1 in
      (s2, result :: results)
  end.

End WithEnvironment.

(** A server started at instant 0. *)
Definition start (h : LspHandler) : server :=
  {| handler := h; now := 0; formatted := []; notified := [] |}.

(** Two successive instants of [l] are at least [d] apart. *)
Definition apart (d : Z) (l : list Z) : Prop :=
  ∀ i t1 t2, l !! i = Some t1 → l !! S i = Some t2 → (t1 + d ≤ t2)%Z.

(** The state of the throttle: the runs are [d] apart, the clock is past
    the last run, and the timer, when there is one, was armed by the last
    run; without a timer the window of the last run is over. *)
Definition throttled (d : Z) (s : server) : Prop :=
  apart d (fst <$> formatted s)
  ∧ match last (fst <$> formatted s) with
    | Some t =>
        (t ≤ now s)%Z
        ∧ match formatTimer (handler s) with
          | Some tm => deadline tm = (t + d)%Z ∧ stopped tm = false
          | None => (t + d ≤ now s)%Z
          end
    | None => formatTimer (handler s) = None
    end.

(** What the requests keep of a server started with the handler [h]: the
    debounce, the language handler, and the state of the throttle. *)
Definition kept (h : LspHandler) (s : server) : Prop :=
  formatDebounce (handler s) = formatDebounce h
  ∧ langHandler (handler s) = langHandler h
  ∧ throttled (formatDebounce h) s.

Definition request_at (t : Z) : request :=
  {| instant := t; token := lit "token"; document := uri_a; range := None; options := ∅ |}.

(** The server [s] once its handler is closed. *)
Definition closed (s : server) : server :=
  {| handler := Close (handler s); now := now s; formatted := formatted s;
     notified := notified s |}.

(** A handler with the formatter [cat] and a debounce of 10. *)
Definition cat_server : LspHandler :=
  {| langHandler := cat_handler; lintTimer := None; lintDebounce := 0;
     formatTimer := None; formatDebounce := 10 |}.

End Throttle.

(** ** The passes of the placeholder expander *)

Module Expansion.
Import strings Store Command Format.

(** The substitution of the option placeholders, the [:] grammar first and
    the [=] grammar second: [applyOptionsPlaceholders] up to its last
    statement, the trim. *)
Definition fill_options {T} (render : T → optionValue) (command : gostring)
    (options : gmap gostring T) : option gostring :=
  command ← ReplaceAllStringFunc reColon command
               (λ match_, resolveOptionsPlaceholder render reColon match_ options (lit " "));
  ReplaceAllStringFunc reEquals command
    (λ match_, resolveOptionsPlaceholder render reEquals match_ options (lit "=")).

(** The options of a range: [applyRangePlaceholders] up to its last
    statement. *)
Definition range_options (rng : Range) (text : gostring) : option (gmap gostring Z) :=
  let lines := Split1 newline text in
  charStart ← convertRowColToIndex lines (Line (Start rng)) (Character (Start rng));
  charEnd ← convertRowColToIndex lines (Line (End rng)) (Character (End rng));
  Some (<[lit "charStart" := charStart]> (
        <[lit "charEnd" := charEnd]> (
        <[lit "rowStart" := Line (Start rng)]> (
        <[lit "colStart" := Character (Start rng)]> (
        <[lit "rowEnd" := Line (End rng)]> (
        <[lit "colEnd" := Character (End rng)]> ∅)))))).

(** The strip of the placeholders that are left. *)
Definition strip_unfilled (command : gostring) : gostring :=
  ReplaceAllString reUnfilledPlaceholders command [].

End Expansion.

(** * Properties *)

(** ** The document store *)

Module StoreFacts.
Import Store.

Lemma non_decreasing_sublist (l1 l2 : list Z) :
  l1 `sublist_of` l2 → non_decreasing l2 → non_decreasing l1.
Proof.
  unfold non_decreasing. intros Hsub. induction Hsub as [|x l1 l2 Hsub IH|x l1 l2 Hsub IH].
  - done.
  - rewrite !StronglySorted_cons. intros [Hall Hs]. split; [|by apply IH].
    rewrite Forall_forall in Hall |- *. intros y Hy.
    apply Hall. by eapply elem_of_sublist.
  - rewrite StronglySorted_cons. intros [_ Hs]. by apply IH.
Qed.

Section WithURIs.
Variable PathFromURI : DocumentURI → gostring + gostring.

Local Abbreviation apply_op := (apply_op PathFromURI).
Local Abbreviation version_history := (version_history PathFromURI).

(** One operation either keeps the stored version or stores the version it
    was given. *)
Lemma stored_version_apply_op (h : LangHandler) (op : fileOp) (uri : DocumentURI) :
  stored_version (apply_op h op) uri = stored_version h uri
  ∨ stored_version (apply_op h op) uri = supplied_version uri op
    ∧ supplied_version uri op ≠ [].
Proof.
  destruct op as [u l v t|u t v]; simpl.
  - unfold OpenFile, normalizedFilenameFromUri.
    destruct (PathFromURI u); simpl; [|by left].
    unfold stored_version; simpl. destruct (decide (u = uri)) as [->|Hne].
    + right. by rewrite lookup_insert_eq.
    + left. by rewrite lookup_insert_ne.
  - unfold UpdateFile. destruct (files h !! u) as [f|] eqn:Hf; simpl; [|by left].
    unfold stored_version; simpl. destruct (decide (u = uri)) as [->|Hne].
    + rewrite lookup_insert_eq, Hf. destruct v; simpl; [by right|by left].
    + left. by rewrite lookup_insert_ne.
Qed.

Lemma stored_supplied_sublist (h : LangHandler) (op : fileOp) (ops : list fileOp)
    (uri : DocumentURI) :
  stored_version (apply_op h op) uri ++ supplied_versions uri ops
  `sublist_of` stored_version h uri ++ supplied_versions uri (op :: ops).
Proof.
  unfold supplied_versions; simpl.
  destruct (stored_version_apply_op h op uri) as [->|[-> _]].
  - apply sublist_app; [done|]. by apply sublist_inserts_l.
  - by apply sublist_inserts_l.
Qed.

Lemma version_history_elem_of (ops : list fileOp) (h : LangHandler) (uri : DocumentURI) (x : Z) :
  x ∈ version_history h ops uri → x ∈ stored_version h uri ++ supplied_versions uri ops.
Proof.
  revert h. induction ops as [|op ops IH]; intros h; simpl.
  - unfold supplied_versions; simpl. by rewrite app_nil_r.
  - rewrite elem_of_app. intros [Hx|Hx].
    + apply elem_of_app. by left.
    + eapply elem_of_sublist; [by apply IH|]. apply stored_supplied_sublist.
Qed.


End WithURIs.



End StoreFacts.

(** ** The root resolver *)

Module RootFacts.
Import strings filepath Root.

Lemma total_len_app (l1 l2 : list gostring) :
  total_len (l1 ++ l2) = total_len l1 + total_len l2.
Proof. induction l1 as [|e l1 IH]; simpl; [done|]. rewrite IH. lia. Qed.

Lemma total_len_reverse (l : list gostring) : total_len (reverse l) = total_len l.
Proof.
  induction l as [|e l IH]; [done|].
  rewrite reverse_cons, total_len_app, IH. simpl. lia.
Qed.

Lemma Join_length (l : list gostring) :
  l ≠ [] → S (length (Join l [Separator])) = total_len l.
Proof.
  induction l as [|e l IH]; [done|]. intros _.
  destruct l as [|e' l]; [simpl; lia|].
  change (Join (e :: e' :: l) [Separator]) with (e ++ [Separator] ++ Join (e' :: l) [Separator]).
  rewrite !length_app. change (total_len (e :: e' :: l)) with (S (length e) + total_len (e' :: l)).
  rewrite <- IH by done. simpl. lia.
Qed.

Lemma Split1_total_len (sep : Z) (s : gostring) :
  total_len (Split1 sep s) = S (length s).
Proof.
  induction s as [|c s IH]; [done|]. simpl.
  destruct (c =? sep)%Z; simpl; [by rewrite IH|].
  destruct (Split1 sep s) as [|piece pieces]; simpl in *; lia.
Qed.

Lemma clean_elems_total_len (rooted : bool) (elems out : list gostring) :
  total_len (clean_elems rooted out elems) ≤ total_len out + total_len elems.
Proof.
  revert out. induction elems as [|e es IH]; intros out; simpl.
  - rewrite total_len_reverse. lia.
  - destruct (eqb e [] || eqb e [dot]); [specialize (IH out); lia|].
    destruct (eqb e [dot; dot]).
    + destruct out as [|top out'].
      * destruct rooted; [specialize (IH []) | specialize (IH [e])]; simpl in *; lia.
      * destruct (eqb top [dot; dot]);
          [specialize (IH (e :: top :: out')) | specialize (IH out')]; simpl in *; lia.
    + specialize (IH (e :: out)). simpl in *; lia.
Qed.

Lemma Split1_no_sep (sep : Z) (s : gostring) : Forall (λ e, sep ∉ e) (Split1 sep s).
Proof.
  induction s as [|c s IH]; simpl.
  - repeat constructor. by intros ?%elem_of_nil.
  - destruct (Z.eqb_spec c sep) as [->|Hne].
    + constructor; [by intros ?%elem_of_nil|done].
    + destruct (Split1 sep s) as [|piece pieces].
      * repeat constructor. intros ?%list_elem_of_singleton. congruence.
      * apply Forall_cons in IH as [Hp Hps]. constructor; [|done].
        intros [?|?]%elem_of_cons; [congruence|done].
Qed.

Lemma clean_elems_elements (rooted : bool) (elems out : list gostring) :
  Forall element out → Forall (λ e, Separator ∉ e) elems →
  Forall element (clean_elems rooted out elems).
Proof.
  revert out. induction elems as [|e es IH]; intros out Hout Hes; simpl.
  - by apply Forall_reverse.
  - apply Forall_cons in Hes as [He Hes].
    destruct (eqb e [] || eqb e [dot]) eqn:E1; [by apply IH|].
    assert (Hel : element e).
    { split; [|done]. intros ->. by rewrite orb_true_l in E1. }
    destruct (eqb e [dot; dot]).
    + destruct out as [|top out'].
      * destruct rooted; apply IH; auto.
      * apply Forall_cons in Hout as [??].
        destruct (eqb top [dot; dot]); apply IH; auto.
    + apply IH; auto.
Qed.

Lemma Join_last (l : list gostring) :
  l ≠ [] → Forall element l → ∃ c, last (Join l [Separator]) = Some c ∧ c ≠ Separator.
Proof.
  induction l as [|e l IH]; [done|]. intros _ [He Hl]%Forall_cons.
  destruct l as [|e' l].
  - simpl. destruct He as [Hne Hsep]. destruct (last e) as [c|] eqn:Hc.
    + exists c. split; [done|]. intros ->. apply Hsep. by apply last_Some_elem_of.
    + by apply last_None in Hc.
  - change (Join (e :: e' :: l) [Separator]) with (e ++ [Separator] ++ Join (e' :: l) [Separator]).
    destruct IH as (c & Hc & Hnc); [done..|]. exists c. split; [|done].
    rewrite !last_app, Hc. done.
Qed.

Lemma Clean_nonempty (q : gostring) : Clean q ≠ [].
Proof.
  unfold Clean. destruct q as [|c q]; [done|].
  destruct (IsPathSeparator c); [done|].
  destruct (clean_elems false [] (Split1 Separator (c :: q))) as [|e l] eqn:E; [done|].
  intros HJ. pose proof (Join_length (e :: l) ltac:(done)) as Hlen.
  assert (Hel : Forall element (e :: l)).
  { rewrite <- E. apply clean_elems_elements; [constructor|apply Split1_no_sep]. }
  apply Forall_cons in Hel as [[He _] _].
  rewrite HJ in Hlen. simpl in Hlen. destruct e; [done|simpl in Hlen; lia].
Qed.

Lemma Clean_length (q : gostring) : q ≠ [] → length (Clean q) ≤ length q.
Proof.
  destruct q as [|c q]; [done|]. intros _. unfold Clean.
  pose proof (clean_elems_total_len (IsPathSeparator c) (Split1 Separator (c :: q)) []) as Hle.
  rewrite Split1_total_len in Hle.
  destruct (IsPathSeparator c) eqn:Hc.
  - unfold IsPathSeparator in Hc. apply Z.eqb_eq in Hc as ->.
    pose proof (clean_elems_total_len true (Split1 Separator q) []) as Hle'.
    rewrite Split1_total_len in Hle'.
    change (Split1 Separator (Separator :: q)) with ([] :: Split1 Separator q).
    change (clean_elems true [] ([] :: Split1 Separator q))
      with (clean_elems true [] (Split1 Separator q)).
    destruct (clean_elems true [] (Split1 Separator q)) as [|e l] eqn:E; [simpl; lia|].
    pose proof (Join_length (e :: l) ltac:(done)). simpl in *. lia.
  - destruct (clean_elems false [] (Split1 Separator (c :: q))) as [|e l] eqn:E; [simpl; lia|].
    pose proof (Join_length (e :: l) ltac:(done)). simpl in *. lia.
Qed.

Lemma Clean_last_separator (q : gostring) :
  last (Clean q) = Some Separator → Clean q = [Separator].
Proof.
  unfold Clean. destruct q as [|c q]; [done|].
  assert (Hel : Forall element
    (clean_elems (IsPathSeparator c) [] (Split1 Separator (c :: q)))).
  { apply clean_elems_elements; [constructor|apply Split1_no_sep]. }
  destruct (clean_elems (IsPathSeparator c) [] (Split1 Separator (c :: q))) as [|e l] eqn:E.
  - destruct (IsPathSeparator c); done.
  - destruct (Join_last (e :: l)) as (x & Hx & Hne); [done..|].
    destruct (IsPathSeparator c).
    + destruct (Join (e :: l) [Separator]) as [|y ys] eqn:EJ; [done|].
      rewrite last_cons, Hx. congruence.
    + rewrite Hx. congruence.
Qed.

Lemma drop_while_length {A} (p : A → bool) (l : list A) :
  length (drop_while p l) ≤ length l.
Proof. induction l as [|x l IH]; simpl; [done|]. destruct (p x); simpl; lia. Qed.

Lemma upto_last_separator_length (p : gostring) :
  last p ≠ Some Separator →
  upto_last_separator p = [] ∨ length (upto_last_separator p) < length p.
Proof.
  unfold upto_last_separator. intros Hlast.
  rewrite <- (reverse_involutive p) in Hlast. rewrite <- (length_reverse p).
  destruct (reverse p) as [|c r]; [by left|].
  rewrite reverse_cons, last_snoc in Hlast. simpl.
  unfold IsPathSeparator. destruct (Z.eqb_spec c Separator) as [->|Hne]; [done|].
  simpl. right. rewrite length_reverse.
  pose proof (drop_while_length (λ c, negb (c =? Separator)%Z) r). simpl. lia.
Qed.

(** Every step of the walk from a cleaned directory is a fixed point of
    [Dir] or lowers [rank]. *)
Lemma Dir_progress (q : gostring) :
  Dir (Clean q) = Clean q ∨ rank (Dir (Clean q)) < rank (Clean q).
Proof.
  destruct (decide (Clean q = [Separator])) as [->|Hroot]; [by left|].
  destruct (decide (Clean q = [dot])) as [->|Hdot]; [by left|].
  right. pose proof (Clean_nonempty q) as Hne.
  assert (Hrank : rank (Clean q) = length (Clean q)).
  { unfold rank, eqb. by rewrite bool_decide_eq_false_2. }
  rewrite Hrank. unfold Dir.
  destruct (upto_last_separator_length (Clean q)) as [->|Hlt].
  - intros ?%Clean_last_separator. done.
  - change (Clean []) with [dot]. unfold rank, eqb. simpl.
    destruct (Clean q); [done|simpl; lia].
  - destruct (decide (upto_last_separator (Clean q) = [])) as [->|Hne'].
    + change (Clean []) with [dot]. unfold rank, eqb. simpl.
      destruct (Clean q); [done|simpl; lia].
    + pose proof (Clean_length _ Hne'). unfold rank at 1.
      destruct (eqb _ _); lia.
Qed.

Section WithFileSystem.
Variable ReadDir : gostring → list DirEntry.
Variable Match : gostring → gostring → bool.

Local Abbreviation walk := (walk ReadDir Match).
Local Abbreviation dir_matches := (dir_matches ReadDir Match).

Lemma walk_terminates (markers : list gostring) (fuel : nat) (q prev : gostring) :
  rank (Clean q) + 2 ≤ fuel →
  ∃ r, walk fuel markers (Clean q) prev = Some r
       ∧ (r = [] ∨ dir_matches r markers = true).
Proof.
  revert q prev. induction fuel as [|n IH]; intros q prev Hfuel; [lia|].
  simpl. destruct (eqb (Clean q) prev); [by eexists; split; [|left]|].
  destruct (dir_matches (Clean q) markers) eqn:Hm; [by eexists; split; [|right]|].
  destruct (Dir_progress q) as [Hfix|Hlt].
  - rewrite Hfix. destruct n as [|n]; [lia|]. simpl.
    unfold eqb. rewrite bool_decide_eq_true_2 by done. by eexists; split; [|left].
  - unfold Dir in *. apply IH. lia.
Qed.

Lemma rank_Dir (fname : gostring) : rank (Dir fname) ≤ length fname.
Proof.
  unfold Dir, upto_last_separator.
  destruct (decide (drop_while (λ c, negb (IsPathSeparator c)) (reverse fname) = []))
    as [E|E].
  - rewrite E. change (rank (Clean (reverse []))) with 0. lia.
  - assert (Hne : reverse (drop_while (λ c, negb (IsPathSeparator c)) (reverse fname)) ≠ []).
    { intros H. apply E. apply (f_equal reverse) in H.
      by rewrite reverse_involutive in H. }
    pose proof (Clean_length _ Hne) as Hle. rewrite length_reverse in Hle.
    pose proof (drop_while_length (λ c, negb (IsPathSeparator c)) (reverse fname)) as Hd.
    rewrite length_reverse in Hd. unfold rank. destruct (eqb _ _); lia.
Qed.

(** C10: [matchRootPath] terminates.  Each directory of the upward walk is
    a fixed point of [filepath.Dir] or has a strictly smaller rank than the
    one before; with [len(fname) + 2] iterations or more the loop ends, and
    it returns the empty string or a directory in which a marker matches. *)
Theorem matchRootPath_terminates (fname : gostring) (markers : list gostring) :
  (∀ dir, Dir (Dir dir) = Dir dir ∨ rank (Dir (Dir dir)) < rank (Dir dir))
  ∧ ∃ r, (∀ extra, matchRootPath_fuel ReadDir Match (length fname + 2 + extra) fname markers
                   = Some r)
         ∧ matchRootPath ReadDir Match fname markers = r
         ∧ (r = [] ∨ dir_matches r markers = true).
Proof.
  split; [intros dir; apply Dir_progress|].
  pose proof (rank_Dir fname) as Hrank.
  destruct (walk_terminates markers (length fname + 2) (upto_last_separator fname) [])
    as (r & Hr & Hres); [unfold Dir in Hrank; lia|].
  exists r. split_and!; [|by unfold matchRootPath, matchRootPath_fuel, Dir; rewrite Hr|done].
  intros extra.
  destruct (walk_terminates markers (length fname + 2 + extra) (upto_last_separator fname) [])
    as (r' & Hr' & _); [unfold Dir in Hrank; lia|].
  unfold matchRootPath_fuel, Dir. rewrite Hr'. f_equal.
  clear Hres Hrank. revert Hr Hr'.
  generalize (Clean (upto_last_separator fname)) as d, (@nil Z) as prev.
  generalize (length fname + 2) as n. intros n. revert extra.
  induction n as [|n IH]; intros extra d prev; [done|]. simpl.
  destruct (eqb d prev); [congruence|].
  destruct (Root.dir_matches ReadDir Match d markers); [congruence|]. apply IH.
Qed.

End WithFileSystem.

End RootFacts.

(** ** The edit computer *)

Module DiffFacts.
Import strings Diff.

Lemma SplitAfter1_concat (sep : Z) (s : gostring) : concat (SplitAfter1 sep s) = s.
Proof.
  induction s as [|c s IH]; [done|]. simpl.
  destruct (c =? sep)%Z; simpl; [by rewrite IH|].
  destruct (SplitAfter1 sep s) as [|piece pieces]; simpl in *; by rewrite <- IH.
Qed.

Lemma old_lines_cons (o : lineOp) (ops : list lineOp) :
  old_lines (o :: ops) = match o with Keep l | Delete l => [l] | Insert _ => [] end ++ old_lines ops.
Proof. done. Qed.

Lemma new_lines_cons (o : lineOp) (ops : list lineOp) :
  new_lines (o :: ops) = match o with Keep l | Insert l => [l] | Delete _ => [] end ++ new_lines ops.
Proof. done. Qed.

Lemma lines_of_inserts (ys : list gostring) :
  old_lines (Insert <$> ys) = [] ∧ new_lines (Insert <$> ys) = ys.
Proof.
  induction ys as [|y ys [IH1 IH2]]; [done|].
  rewrite fmap_cons, old_lines_cons, new_lines_cons, IH1, IH2. done.
Qed.

Lemma lines_of_deletes (xs : list gostring) :
  old_lines (Delete <$> xs) = xs ∧ new_lines (Delete <$> xs) = [].
Proof.
  induction xs as [|x xs [IH1 IH2]]; [done|].
  rewrite fmap_cons, old_lines_cons, new_lines_cons, IH1, IH2. done.
Qed.

(** The script of [diff_lines] spells both texts. *)
Lemma diff_lines_sound (xs ys : list gostring) :
  old_lines (diff_lines xs ys) = xs ∧ new_lines (diff_lines xs ys) = ys.
Proof.
  revert ys. induction xs as [|x xs IHx]; intros ys; [apply lines_of_inserts|].
  induction ys as [|y ys IHy]; [apply (lines_of_deletes (x :: xs))|].
  simpl. destruct (eqb x y) eqn:E.
  - apply bool_decide_eq_true in E as ->.
    rewrite old_lines_cons, new_lines_cons.
    destruct (IHx ys) as [-> ->]. done.
  - match goal with |- context [if ?c then _ else _] => destruct c end.
    + rewrite old_lines_cons, new_lines_cons.
      destruct (IHx (y :: ys)) as [-> ->]. done.
    + rewrite old_lines_cons, new_lines_cons.
      simpl in IHy. destruct IHy as [-> ->]. done.
Qed.

Lemma diff_lines_same (xs : list gostring) : diff_lines xs xs = Keep <$> xs.
Proof.
  induction xs as [|x xs IH]; [done|]. simpl.
  unfold eqb. rewrite bool_decide_eq_true_2 by done. by rewrite IH.
Qed.

Lemma hunks_keep (xs : list gostring) (line : nat) : hunks (Keep <$> xs) line None = [].
Proof. revert line. induction xs as [|x xs IH]; intros line; [done|]. simpl. apply IH. Qed.

(** *** The script of [diff_lines] is a shortest one *)

Lemma cost_inserts (ys : list gostring) : cost (Insert <$> ys) = length ys.
Proof.
  induction ys as [|y ys IH]; [done|]. rewrite fmap_cons.
  change (cost (Insert y :: (Insert <$> ys))) with (S (cost (Insert <$> ys))).
  by rewrite IH.
Qed.

Lemma cost_deletes (xs : list gostring) : cost (Delete <$> xs) = length xs.
Proof.
  induction xs as [|x xs IH]; [done|]. rewrite fmap_cons.
  change (cost (Delete x :: (Delete <$> xs))) with (S (cost (Delete <$> xs))).
  by rewrite IH.
Qed.

Lemma cost_diff_nil_l (ys : list gostring) : cost (diff_lines [] ys) = length ys.
Proof. apply cost_inserts. Qed.

Lemma cost_diff_nil_r (xs : list gostring) : cost (diff_lines xs []) = length xs.
Proof. destruct xs; [done|]. apply (cost_deletes (_ :: _)). Qed.

Lemma cost_diff_same (x : gostring) (xs ys : list gostring) :
  cost (diff_lines (x :: xs) (x :: ys)) = cost (diff_lines xs ys).
Proof. simpl. unfold eqb. by rewrite bool_decide_eq_true_2. Qed.

Lemma cost_diff_differ (x y : gostring) (xs ys : list gostring) :
  x ≠ y →
  cost (diff_lines (x :: xs) (y :: ys))
  = S (cost (diff_lines xs (y :: ys)) `min` cost (diff_lines (x :: xs) ys)).
Proof.
  intros Hne.
  change (diff_lines (x :: xs) (y :: ys)) with
    (if eqb x y then Keep x :: diff_lines xs ys
     else if cost (Delete x :: diff_lines xs (y :: ys))
             <=? cost (Insert y :: diff_lines (x :: xs) ys)
          then Delete x :: diff_lines xs (y :: ys)
          else Insert y :: diff_lines (x :: xs) ys).
  unfold eqb. rewrite bool_decide_eq_false_2 by done.
  destruct (Nat.leb_spec (cost (Delete x :: diff_lines xs (y :: ys)))
              (cost (Insert y :: diff_lines (x :: xs) ys))) as [H|H];
    simpl in *; lia.
Qed.

(** When one more new line changes the cost by one at most, so does one
    more old line in front. *)
Lemma cost_diff_delete_from (xs : list gostring) :
  (∀ y ys, cost (diff_lines xs ys) ≤ S (cost (diff_lines xs (y :: ys)))) →
  ∀ x ys, cost (diff_lines (x :: xs) ys) ≤ S (cost (diff_lines xs ys)).
Proof.
  intros Hnew x ys. destruct ys as [|y ys].
  - rewrite !cost_diff_nil_r. simpl. lia.
  - destruct (decide (x = y)) as [->|Hne].
    + rewrite cost_diff_same. apply Hnew.
    + rewrite (cost_diff_differ x y) by done. lia.
Qed.

Lemma cost_diff_less_new (xs : list gostring) :
  ∀ y ys, cost (diff_lines xs ys) ≤ S (cost (diff_lines xs (y :: ys))).
Proof.
  induction xs as [|x xs IH]; intros y ys.
  - rewrite !cost_diff_nil_l. simpl. lia.
  - pose proof (cost_diff_delete_from xs IH) as Hdel.
    destruct (decide (x = y)) as [->|Hne].
    + rewrite cost_diff_same. apply Hdel.
    + rewrite (cost_diff_differ x y) by done.
      specialize (Hdel x ys). specialize (IH y ys). lia.
Qed.

Lemma cost_diff_delete (x : gostring) (xs ys : list gostring) :
  cost (diff_lines (x :: xs) ys) ≤ S (cost (diff_lines xs ys)).
Proof. apply cost_diff_delete_from, cost_diff_less_new. Qed.

Lemma cost_diff_insert_from (ys : list gostring) :
  (∀ x xs, cost (diff_lines xs ys) ≤ S (cost (diff_lines (x :: xs) ys))) →
  ∀ y xs, cost (diff_lines xs (y :: ys)) ≤ S (cost (diff_lines xs ys)).
Proof.
  intros Hold y xs. destruct xs as [|x xs].
  - rewrite !cost_diff_nil_l. simpl. lia.
  - destruct (decide (x = y)) as [->|Hne].
    + rewrite cost_diff_same. apply Hold.
    + rewrite (cost_diff_differ x y) by done. lia.
Qed.

Lemma cost_diff_less_old (ys : list gostring) :
  ∀ x xs, cost (diff_lines xs ys) ≤ S (cost (diff_lines (x :: xs) ys)).
Proof.
  induction ys as [|y ys IH]; intros x xs.
  - rewrite !cost_diff_nil_r. simpl. lia.
  - pose proof (cost_diff_insert_from ys IH) as Hins.
    destruct (decide (x = y)) as [->|Hne].
    + rewrite cost_diff_same. apply Hins.
    + rewrite (cost_diff_differ x y) by done.
      specialize (Hins y xs). specialize (IH x xs). lia.
Qed.

Lemma cost_diff_insert (y : gostring) (xs ys : list gostring) :
  cost (diff_lines xs (y :: ys)) ≤ S (cost (diff_lines xs ys)).
Proof. apply cost_diff_insert_from, cost_diff_less_old. Qed.

(** No edit script between two texts is shorter than that of
    [diff_lines]. *)
Lemma diff_lines_shortest (ops : list lineOp) :
  ∀ xs ys, script_for xs ys ops → cost (diff_lines xs ys) ≤ cost ops.
Proof.
  unfold script_for. induction ops as [|o ops IH]; intros xs ys [Hold Hnew].
  - by subst.
  - rewrite old_lines_cons in Hold. rewrite new_lines_cons in Hnew.
    destruct o as [l|l|l]; simpl in *; subst.
    + rewrite cost_diff_same. by apply IH.
    + etrans; [apply cost_diff_delete|]. apply le_n_S. by apply IH.
    + etrans; [apply cost_diff_insert|]. apply le_n_S. by apply IH.
Qed.

(** *** Applying the edits *)

(** Copying [n] lines from line [i] on appends the lines [i], ..., [i+n-1]
    that exist. *)
Lemma write_lines_spec (lines : list gostring) (n i : nat) (result : gostring) :
  write_lines lines n (Z.of_nat i) result = Some (result ++ concat (take n (drop i lines))).
Proof.
  revert i result. induction n as [|n IH]; intros i result; simpl.
  - by rewrite app_nil_r.
  - destruct (Z.ltb_spec (Z.of_nat i) (Z.of_nat (length lines))) as [Hlt|Hge].
    + destruct (Z.ltb_spec (Z.of_nat i) 0) as [?|_]; [lia|].
      rewrite Nat2Z.id. destruct (lookup_lt_is_Some_2 lines i) as [l Hl]; [lia|].
      rewrite Hl. simpl. rewrite (drop_S _ _ _ Hl). simpl.
      replace (Z.of_nat i + 1)%Z with (Z.of_nat (S i)) by lia.
      rewrite IH. by rewrite <- app_assoc.
    + replace (Z.of_nat i + 1)%Z with (Z.of_nat (S i)) by lia.
      rewrite IH. rewrite !drop_ge by lia. by rewrite !take_nil.
Qed.

Lemma take_drop_segment {A} (l : list A) (a b c : nat) :
  a ≤ b → b ≤ c →
  take (b - a) (drop a l) ++ take (c - b) (drop b l) = take (c - a) (drop a l).
Proof.
  intros Hab Hbc. replace (c - a) with ((b - a) + (c - b)) by lia.
  rewrite <- (take_drop (b - a) (take (b - a + (c - b)) (drop a l))).
  rewrite take_take, skipn_firstn_comm, drop_drop.
  f_equal; f_equal; [lia| |f_equal]; lia.
Qed.

(** Applying the edits of a script that spells the rest of the old text
    writes the pending old lines, the text of the open hunk and the new
    lines of the script. *)
Lemma apply_loop_hunks (lines : list gostring) (ops : list lineOp) :
  ∀ (line lastLine : nat) (hunk : option (nat * gostring)) (result : gostring),
    drop line lines = old_lines ops → line ≤ length lines →
    match hunk with
    | None => lastLine ≤ line
    | Some (start, _) => lastLine ≤ start ∧ start ≤ line
    end →
    apply_loop lines (hunks ops line hunk) (Z.of_nat lastLine) result
    = Some (result
            ++ match hunk with
               | None => concat (take (line - lastLine) (drop lastLine lines))
               | Some (start, text) =>
                   concat (take (start - lastLine) (drop lastLine lines)) ++ text
               end
            ++ concat (new_lines ops)).
Proof.
  induction ops as [|o ops IH]; intros line lastLine hunk result Hdrop Hlen Hord.
  - assert (line = length lines) as ->.
    { apply (f_equal length) in Hdrop. rewrite length_drop in Hdrop. simpl in Hdrop. lia. }
    destruct hunk as [[start text]|]; simpl.
    + replace (Z.of_nat start - Z.of_nat lastLine)%Z with (Z.of_nat (start - lastLine)) by lia.
      rewrite Nat2Z.id, write_lines_spec. simpl.
      rewrite Z.sub_diag. simpl. by rewrite !app_nil_r, <- !app_assoc.
    + replace (Z.of_nat (length lines) - Z.of_nat lastLine)%Z
        with (Z.of_nat (length lines - lastLine)) by lia.
      rewrite Nat2Z.id, write_lines_spec. by rewrite !app_nil_r.
  - assert (Hnext : ∀ l, old_lines (o :: ops) = l :: old_lines ops →
      lines !! line = Some l ∧ drop (S line) lines = old_lines ops ∧ S line ≤ length lines).
    { intros l Ho. rewrite Ho in Hdrop.
      assert (Hl : lines !! line = Some l).
      { rewrite <- (Nat.add_0_r line), <- lookup_drop, Hdrop. done. }
      split_and!; [done| |by apply lookup_lt_Some in Hl].
      rewrite (drop_S _ _ _ Hl) in Hdrop. by inversion Hdrop. }
    destruct o as [l|l|l].
    + destruct (Hnext l eq_refl) as (Hl & Hdrop' & Hlen').
      rewrite new_lines_cons. destruct hunk as [[start text]|]; simpl.
      * destruct Hord as [Hs1 Hs2].
        replace (Z.of_nat start - Z.of_nat lastLine)%Z with (Z.of_nat (start - lastLine)) by lia.
        rewrite Nat2Z.id, write_lines_spec. simpl.
        rewrite (IH (S line) line None) by (done || lia).
        replace (S line - line) with 1 by lia. rewrite (drop_S _ _ _ Hl).
        simpl. by rewrite ?app_nil_r, <- ?app_assoc.
      * rewrite (IH (S line) lastLine None) by (done || lia).
        rewrite <- (take_drop_segment lines lastLine line (S line)) by lia.
        replace (S line - line) with 1 by lia. rewrite (drop_S _ _ _ Hl).
        simpl. rewrite concat_app. simpl. by rewrite ?app_nil_r, <- ?app_assoc.
    + destruct (Hnext l eq_refl) as (Hl & Hdrop' & Hlen').
      rewrite new_lines_cons. destruct hunk as [[start text]|]; simpl.
      * rewrite (IH (S line) lastLine (Some (start, text))) by (done || lia). done.
      * rewrite (IH (S line) lastLine (Some (line, []))) by (done || lia).
        by rewrite app_nil_r.
    + rewrite new_lines_cons. rewrite old_lines_cons in Hdrop. simpl in Hdrop.
      destruct hunk as [[start text]|]; simpl.
      * rewrite (IH line lastLine (Some (start, text ++ l))) by (done || lia).
        by rewrite <- !app_assoc.
      * rewrite (IH line lastLine (Some (line, l))) by (done || lia).
        by rewrite <- !app_assoc.
Qed.

(** C1: applying the edits of [ComputeEdits] to [before] gives [after], and
    equal texts give no edits. *)
Theorem applyEdits_ComputeEdits (uri : DocumentURI) (before after : gostring) :
  applyEdits before (ComputeEdits uri before after) = Some after
  ∧ ComputeEdits uri before before = [].
Proof.
  split.
  - unfold applyEdits, ComputeEdits.
    destruct (diff_lines_sound (SplitAfter1 newline before) (SplitAfter1 newline after))
      as [Hold Hnew].
    rewrite (apply_loop_hunks _ _ 0 0 None []) by (done || lia).
    rewrite Hnew, SplitAfter1_concat. done.
  - unfold ComputeEdits. by rewrite diff_lines_same, hunks_keep.
Qed.

(** The chained formatters of the specification (section 8, scenario 2),
    and tests of diff_test.go on which the model gives the edits of the
    implementation. *)
Example ComputeEdits_chained_formatters :
  ComputeEdits Store.uri_a (lit "hello") (text_of_lines ["helloconfig1config2"])
  = [line_edit 0 1 (text_of_lines ["helloconfig1config2"])].
Proof. by vm_compute. Qed.

Example ComputeEdits_insertion_at_beginning :
  ComputeEdits Store.uri_a (text_of_lines ["line2"; "line3"])
    (text_of_lines ["line1"; "line2"; "line3"])
  = [line_edit 0 0 (text_of_lines ["line1"])].
Proof. by vm_compute. Qed.

Example ComputeEdits_deletion_at_end :
  ComputeEdits Store.uri_a (text_of_lines ["line1"; "line2"; "line3"])
    (text_of_lines ["line1"; "line2"])
  = [line_edit 2 3 []].
Proof. by vm_compute. Qed.

Example ComputeEdits_multiple_changes :
  ComputeEdits Store.uri_a (text_of_lines ["line1"; "line2"; "line5"])
    (text_of_lines ["line1"; "line3"; "line4"; "line5"])
  = [line_edit 1 2 (text_of_lines ["line3"; "line4"])].
Proof. by vm_compute. Qed.

Example ComputeEdits_no_trailing_newline :
  ComputeEdits Store.uri_a (lit "line1" ++ [newline] ++ lit "line2")
    (lit "line1" ++ [newline] ++ lit "line3")
  = [line_edit 1 2 (lit "line3")].
Proof. by vm_compute. Qed.

End DiffFacts.

(** ** The linting pipeline *)

Module LintFacts.
Import strings filepath Root Store Command Lint.

Lemma letter_cases (a b typ : Z) :
  bool_decide (typ ∈ [a; b]) = bool_decide (typ = a ∨ typ = b).
Proof. apply bool_decide_ext. rewrite !elem_of_cons, elem_of_nil. tauto. Qed.

(** The switch of [getSeverity] is the table of the specification. *)
Lemma getSeverity_no_map (typ : rune) (lintSeverity : DiagnosticSeverity) :
  getSeverity typ ∅ lintSeverity = Some (severity_of_letter typ lintSeverity).
Proof.
  unfold getSeverity, severity_of_letter. rewrite map_size_empty, !letter_cases. simpl.
  repeat case_bool_decide; congruence.
Qed.

(** With a category map that binds the type to a string that is not empty,
    the first rune of that string is looked up in the table. *)
Lemma getSeverity_mapped (typ mapped : rune) (rest : gostring)
    (categoryMap : gmap gostring gostring) (lintSeverity : DiagnosticSeverity) :
  categoryMap !! string_of_rune typ = Some (mapped :: rest) →
  getSeverity typ categoryMap lintSeverity = Some (severity_of_letter mapped lintSeverity).
Proof.
  intros Hm. unfold getSeverity, severity_of_letter.
  assert (Hsize : 0 < size categoryMap).
  { destruct (decide (size categoryMap = 0)) as [E%map_size_empty_inv|]; [|lia].
    by rewrite E in Hm. }
  rewrite (bool_decide_eq_true_2 _ Hsize), Hm, !letter_cases. simpl.
  repeat case_bool_decide; congruence.
Qed.

(** With a category map that is not empty, a type that the map does not
    bind makes [getSeverity] panic. *)
Lemma getSeverity_unmapped (typ : rune) (categoryMap : gmap gostring gostring)
    (lintSeverity : DiagnosticSeverity) :
  categoryMap ≠ ∅ → categoryMap !! string_of_rune typ = None →
  getSeverity typ categoryMap lintSeverity = None.
Proof.
  intros Hne Hm. unfold getSeverity.
  assert (Hsize : 0 < size categoryMap).
  { destruct (decide (size categoryMap = 0)) as [E%map_size_empty_inv|]; [done|lia]. }
  by rewrite (bool_decide_eq_true_2 _ Hsize), Hm.
Qed.

(** C3 at its failing input: with the category map of the repository's own
    test, which remaps R only, the type W makes [getSeverity] panic, where
    the claim gives the severity Warning. *)
Theorem getSeverity_panics_on_unmapped_type :
  getSeverity 87 refactor_to_info 0 = None
  ∧ getSeverity 82 refactor_to_info 0 = Some DiagInformation
  ∧ getSeverity 87 ∅ 0 = Some DiagWarning.
Proof. by vm_compute. Qed.

(** C4: the classification of the lint subprocess result.  With exit code
    zero the output is parsed only under [lintIgnoreExitCode], and nothing
    is parsed or raised otherwise; a negative exit code drops the output
    without an error; a positive exit code has the output parsed; an error
    that carries no exit code is returned as an error. *)
Theorem runLintCommand_classification (lintOutput : gostring) (config : Language) :
  (runLintCommand (lintOutput, None) config
   = if LintIgnoreExitCode config then (Some lintOutput, None) else (None, None))
  ∧ (∀ ps, (ExitCode ps < 0)%Z →
       runLintCommand (lintOutput, Some (ExitError ps)) config = (None, None))
  ∧ (∀ ps, (0 < ExitCode ps)%Z →
       runLintCommand (lintOutput, Some (ExitError ps)) config = (Some lintOutput, None))
  ∧ (∀ msg, runLintCommand (lintOutput, Some (OtherError msg)) config
            = (Some lintOutput, Some (OtherError msg)))
  ∧ (∀ ps, parseErrorExitCode (ExitError ps) ≠ unknownExitCode).
Proof.
  split_and!.
  - done.
  - intros ps Hps. unfold runLintCommand, parseErrorExitCode.
    destruct ps as [status|]; [simpl in Hps; lia|done].
  - intros ps Hps. unfold runLintCommand, parseErrorExitCode, unknownExitCode.
    destruct ps as [status|]; [|simpl in Hps; lia]. simpl.
    destruct (Z.ltb_spec (Z.pos status) 0); [lia|done].
  - done.
  - intros [status|]; unfold unknownExitCode; simpl; lia.
Qed.

Lemma runLintCommand_classification_witness :
  runLintCommand (lit "a.go:1:x", Some (ExitError Signaled)) plain_config = (None, None)
  ∧ runLintCommand (lit "a.go:1:x", Some (ExitError (Exited 2))) plain_config
    = (Some (lit "a.go:1:x"), None).
Proof.
  pose proof (runLintCommand_classification (lit "a.go:1:x") plain_config)
    as (_ & Hneg & Hpos & _).
  split; [apply Hneg|apply Hpos]; simpl; lia.
Defined.

Section WithEnvironment.

Variable ReadDir : gostring → list DirEntry.
Variable Match : gostring → gostring → bool.
Variable Environ : list gostring.
Variable CombinedOutput : Cmd → gostring * option cmdError.
Variable NewErrorformat : list gostring → option (gostring → list errorformat.Entry).
Variable ParseLocalFileToURI : gostring → DocumentURI.
Variable WordAtUtf16 : gostring → Position → list Z.

(** C7: an entry with column 0 gives a diagnostic that starts and ends at
    character 0, whatever [lintOffsetColumns] is; the diagnostic is produced
    whenever [getSeverity] returns. *)
Theorem parseEfmEntryToDiagnostic_whole_line (entry : errorformat.Entry) (config : Language)
    (f : fileRef) :
  errorformat.Col entry = 0%Z →
  (is_Some (getSeverity (errorformat.Type_ entry) (LintCategoryMap config)
              (LintSeverity config)) →
   is_Some (parseEfmEntryToDiagnostic WordAtUtf16 entry config f))
  ∧ ∀ d, parseEfmEntryToDiagnostic WordAtUtf16 entry config f = Some d →
         Character (Start (DRange d)) = 0%Z ∧ Character (End (DRange d)) = 0%Z.
Proof.
  intros Hcol. unfold parseEfmEntryToDiagnostic. rewrite Hcol. simpl.
  destruct (getSeverity _ _ _) as [severity|]; simpl.
  - split; [by eauto|]. intros d [= <-]. done.
  - split; [by intros [??]|done].
Qed.

Local Abbreviation step :=
  (RunAllLinters_steps ReadDir Match Environ CombinedOutput NewErrorformat
     ParseLocalFileToURI WordAtUtf16).

(** Every send keeps the reset at the head of the diagnostics channel. *)
Lemma reset_leads_step (h : LangHandler) (progressToken : gostring) (uri : DocumentURI)
    (f : fileRef) (r r' : run) :
  files h !! uri = Some f →
  reset_leads uri f r → step h progressToken uri r r' → reset_leads uri f r'.
Proof.
  intros Hf Hinv [pick Hstep]. unfold RunAllLinters_step in Hstep.
  rewrite Hf in Hstep. simpl in Hstep. unfold reset_leads in *.
  destruct (at_ r) as [cfgs|cfgs|pending|err|] eqn:Hat; try done.
  - injection Hstep as <-. simpl. rewrite Hinv. by eexists.
  - injection Hstep as <-. simpl. done.
  - destruct Hinv as [rest Hrest]. destruct pending as [|cfg pending].
    + injection Hstep as <-. simpl. by eexists.
    + destruct ((cfg :: pending) !! pick) as [config|]; [|done]. simpl in Hstep.
      destruct (lintDocument _ _ _ _ _ _ _ _) as [[diagnostics|err]|];
        injection Hstep as <-; simpl; rewrite ?Hrest; by eexists.
Qed.

(** The first send of a run that selected a config is the reset, and it is
    always possible. *)
Lemma RunAllLinters_first_send (h : LangHandler) (progressToken : gostring)
    (uri : DocumentURI) (eventType : EventType) (f : fileRef) :
  files h !! uri = Some f →
  getLintConfigsForDocument ReadDir Match (NormalizedFilename f) (LanguageID f) (configs h)
    eventType ≠ [] →
  ∀ pick,
    RunAllLinters_step ReadDir Match Environ CombinedOutput NewErrorformat ParseLocalFileToURI
      WordAtUtf16 h progressToken uri pick (RunAllLinters_enter ReadDir Match h uri eventType)
    = Some {| diagnosticsOut := [reset_message uri f]; errorsOut := []; progress := [];
              at_ := Beginning (getLintConfigsForDocument ReadDir Match (NormalizedFilename f)
                                  (LanguageID f) (configs h) eventType) |}.
Proof.
  intros Hf Hcfg pick. unfold RunAllLinters_step, RunAllLinters_enter. rewrite Hf.
  cbn [mbind option_bind at_ diagnosticsOut errorsOut progress].
  rewrite bool_decide_eq_false_2; [done|].
  intros Hlen. by apply nil_length_inv in Hlen.
Qed.

Lemma reset_leads_reachable (h : LangHandler) (progressToken : gostring)
    (uri : DocumentURI) (eventType : EventType) (f : fileRef) (r : run) :
  files h !! uri = Some f →
  getLintConfigsForDocument ReadDir Match (NormalizedFilename f) (LanguageID f) (configs h)
    eventType ≠ [] →
  rtc (step h progressToken uri) (RunAllLinters_enter ReadDir Match h uri eventType) r →
  reset_leads uri f r.
Proof.
  intros Hf Hcfg Hrun. revert r Hrun. apply rtc_ind_r.
  - unfold reset_leads, RunAllLinters_enter. rewrite Hf. simpl.
    rewrite bool_decide_eq_false_2; [done|].
    intros Hlen. by apply nil_length_inv in Hlen.
  - intros r1 r2 _ Hstep IH. by eapply reset_leads_step.
Qed.

(** C2: in every run of [RunAllLinters] that selects at least one lint
    config, whatever the order in which the linters finish, the reset is
    emitted and it is emitted first.  The run starts with nothing sent; its
    first send is always possible and is the reset on the diagnostics
    channel, before anything is sent on the other channels; once the run
    has made a send, the reset heads the diagnostics channel for the rest
    of the run, so every other diagnostics message comes after it.  The
    reset has the URI, no diagnostics and the version of the document. *)
Theorem RunAllLinters_reset_first (h : LangHandler) (progressToken : gostring)
    (uri : DocumentURI) (eventType : EventType) (f : fileRef) :
  files h !! uri = Some f →
  getLintConfigsForDocument ReadDir Match (NormalizedFilename f) (LanguageID f) (configs h)
    eventType ≠ [] →
  diagnosticsOut (RunAllLinters_enter ReadDir Match h uri eventType) = []
  ∧ (∃ r, step h progressToken uri (RunAllLinters_enter ReadDir Match h uri eventType) r)
  ∧ (∀ r, step h progressToken uri (RunAllLinters_enter ReadDir Match h uri eventType) r →
          diagnosticsOut r = [reset_message uri f] ∧ errorsOut r = [] ∧ progress r = [])
  ∧ (∀ k r, nsteps (step h progressToken uri) (S k)
              (RunAllLinters_enter ReadDir Match h uri eventType) r →
            ∃ rest, diagnosticsOut r = reset_message uri f :: rest)
  ∧ (∀ r, rtc (step h progressToken uri) (RunAllLinters_enter ReadDir Match h uri eventType) r →
          reset_leads uri f r)
  ∧ URI (reset_message uri f) = uri
  ∧ Diagnostics (reset_message uri f) = []
  ∧ PVersion (reset_message uri f) = Version f.
Proof.
  intros Hf Hcfg.
  pose proof (RunAllLinters_first_send h progressToken uri eventType f Hf Hcfg) as Hfirst.
  split_and!; try done.
  - eexists. exists 0. apply Hfirst.
  - intros r [pick Hstep]. rewrite Hfirst in Hstep. by injection Hstep as <-.
  - intros k r Hrun. apply nsteps_inv_r in Hrun as (r1 & Hrun & Hlast).
    assert (Hinv : reset_leads uri f r).
    { eapply reset_leads_reachable; [done..|].
      eapply rtc_r; [by eapply rtc_nsteps_2|done]. }
    unfold reset_leads in Hinv.
    destruct Hlast as [pick Hstep]. unfold RunAllLinters_step in Hstep. rewrite Hf in Hstep.
    cbn [mbind option_bind] in Hstep.
    destruct (at_ r1) as [cfgs|cfgs|[|cfg pending]|err|]; try done.
    + injection Hstep as <-. done.
    + injection Hstep as <-. done.
    + injection Hstep as <-. done.
    + destruct ((cfg :: pending) !! pick) as [config|]; [|done].
      cbn [mbind option_bind] in Hstep.
      destruct (lintDocument _ _ _ _ _ _ _ _) as [[diagnostics|err]|];
        injection Hstep as <-; exact Hinv.
  - intros r Hrun. by eapply reset_leads_reachable.
Qed.

Lemma RunAllLinters_play_reachable (h : LangHandler) (progressToken : gostring)
    (uri : DocumentURI) (picks : list nat) (r : run) :
  rtc (step h progressToken uri) r
    (RunAllLinters_play ReadDir Match Environ CombinedOutput NewErrorformat
       ParseLocalFileToURI WordAtUtf16 h progressToken uri picks r).
Proof.
  revert r. induction picks as [|pick picks IH]; intros r; simpl; [constructor|].
  destruct (RunAllLinters_step _ _ _ _ _ _ _ _ _ _ _ _) as [r'|] eqn:Hstep; [|constructor].
  eapply rtc_l; [by exists pick|apply IH].
Defined.

End WithEnvironment.

Lemma parseEfmEntryToDiagnostic_whole_line_witness :
  errorformat.Col whole_line_entry = 0%Z
  ∧ ∀ d, parseEfmEntryToDiagnostic no_word whole_line_entry plain_config file_a = Some d →
         Character (Start (DRange d)) = 0%Z ∧ Character (End (DRange d)) = 0%Z.
Proof.
  split; [reflexivity|].
  exact (proj2 (parseEfmEntryToDiagnostic_whole_line no_word whole_line_entry plain_config
                  file_a eq_refl)).
Defined.

Lemma RunAllLinters_reset_first_witness :
  diagnosticsOut
    (RunAllLinters_play empty_dir literal_match [] silent_linter one_entry uri_of_path no_word
       handler_a (lit "token") uri_a [0]
       (RunAllLinters_enter empty_dir literal_match handler_a uri_a EventTypeChange))
  = [reset_message uri_a file_a]
  ∧ reset_leads uri_a file_a
      (RunAllLinters_play empty_dir literal_match [] silent_linter one_entry uri_of_path
         no_word handler_a (lit "token") uri_a [0; 0; 0; 0]
         (RunAllLinters_enter empty_dir literal_match handler_a uri_a EventTypeChange)).
Proof.
  destruct (RunAllLinters_reset_first empty_dir literal_match [] silent_linter one_entry
    uri_of_path no_word handler_a (lit "token") uri_a EventTypeChange file_a)
    as (_ & _ & Hfirst & _ & Hleads & _).
  - vm_compute. reflexivity.
  - vm_compute. discriminate.
  - split.
    + apply Hfirst. exists 0. vm_compute. reflexivity.
    + apply Hleads. apply RunAllLinters_play_reachable.
Defined.

End LintFacts.

(** ** The lint debounce *)

Module SchedulerFacts.
Import Store Scheduler.

Lemma last_call_cons (first t : Z) (uri : DocumentURI) (eventType : EventType)
    (calls : list (Z * DocumentURI * EventType)) :
  last_call first ((t, uri, eventType) :: calls) = last_call t calls.
Proof.
  unfold last_call. destruct calls as [|c calls]; [done|].
  rewrite last_cons_cons. destruct (last (c :: calls)) eqn:E; [done|].
  by apply last_None in E.
Qed.

(** While a timer is pending, calls that each come within the window of
    the one before only move its deadline. *)
Lemma play_burst (calls : list (Z * DocumentURI * EventType)) :
  ∀ (s : server) (tm : Timer),
    lintTimer (handler s) = Some tm →
    deadline tm = (now s + lintDebounce (handler s))%Z →
    within_window (lintDebounce (handler s)) (now s) calls →
    play calls s =
      {| handler :=
           {| lintTimer := Some {| deadline := last_call (now s) calls
                                              + lintDebounce (handler s);
                                   closure_uri := closure_uri tm;
                                   closure_eventType := closure_eventType tm |};
              lintDebounce := lintDebounce (handler s) |};
         now := last_call (now s) calls;
         dispatched := dispatched s; running := running s; cancelled := cancelled s |}.
Proof.
  induction calls as [|[[t uri] eventType] calls IH]; intros s tm Htm Hdl Hwin.
  - simpl. unfold last_call. simpl. destruct s as [[lt ld] n d r c], tm as [dl u e].
    simpl in *. subst. done.
  - destruct Hwin as [Ht Hwin]. simpl.
    assert (Hadv : advance s t =
      {| handler := handler s; now := t; dispatched := dispatched s;
         running := running s; cancelled := cancelled s |}).
    { unfold advance. rewrite Htm.
      destruct (Z.leb_spec (deadline tm) t) as [?|_]; [lia|].
      f_equal. lia. }
    rewrite Hadv. unfold ScheduleLinting. simpl. rewrite Htm.
    erewrite IH; [|reflexivity|reflexivity|exact Hwin].
    simpl. by rewrite last_call_cons.
Qed.

(** C5, as the handler implements it: one timer serves all documents.  Two
    calls of [ScheduleLinting] within the debounce window, for the same
    document or for two documents, dispatch one lint run; it fires once
    [lintDebounce] has elapsed since the second call and lints the document
    of the first call, for the event of the first call. *)
Theorem ScheduleLinting_coalesces (debounce t1 t2 : Z) (uri1 uri2 : DocumentURI)
    (eventType1 eventType2 : EventType) :
  (0 ≤ t1)%Z → (t1 ≤ t2 < t1 + debounce)%Z →
  lint_runs debounce [(t1, uri1, eventType1); (t2, uri2, eventType2)]
  = [((t2 + debounce)%Z, uri1, eventType1)].
Proof.
  intros Ht1 Ht2. unfold lint_runs.
  change (play [(t1, uri1, eventType1); (t2, uri2, eventType2)] (start debounce))
    with (play [(t2, uri2, eventType2)]
            (ScheduleLinting (advance (start debounce) t1) uri1 eventType1)).
  erewrite play_burst; [|reflexivity|simpl; reflexivity|].
  - unfold settle, advance, fire. simpl. rewrite Z.leb_refl. simpl.
    do 3 f_equal. unfold last_call. simpl. lia.
  - simpl. split; [|done]. lia.
Qed.

Lemma ScheduleLinting_coalesces_witness :
  lint_runs 10 [(0%Z, uri_a, EventTypeChange); (1%Z, uri_a, EventTypeSave)]
  = [(11%Z, uri_a, EventTypeChange)].
Proof.
  apply (ScheduleLinting_coalesces 10 0 1 uri_a uri_a EventTypeChange EventTypeSave); lia.
Defined.

(** C5, as stated, fails: a call for [b.go] made while the timer armed for
    [a.go] is pending is absorbed by that timer, and [b.go] is never
    linted. *)
Lemma ScheduleLinting_suppresses_other_document :
  lint_runs 10 [(0%Z, uri_a, EventTypeChange); (1%Z, uri_b, EventTypeChange)]
  = [(11%Z, uri_a, EventTypeChange)]
  ∧ uri_b ∉ (λ run : Z * DocumentURI * EventType, run.1.2)
            <$> lint_runs 10 [(0%Z, uri_a, EventTypeChange); (1%Z, uri_b, EventTypeChange)].
Proof.
  assert (E : lint_runs 10 [(0%Z, uri_a, EventTypeChange); (1%Z, uri_b, EventTypeChange)]
              = [(11%Z, uri_a, EventTypeChange)]) by (vm_compute; reflexivity).
  split; [exact E|]. rewrite E. simpl.
  intros Hin%list_elem_of_singleton. vm_compute in Hin. discriminate.
Qed.

End SchedulerFacts.

(** ** The formatting pipeline *)

Module FormatFacts.
Import strings filepath Root Store Command Diff Format.

(** *** White space *)

Lemma drop_while_head {A} (p : A → bool) (l : list A) (c : A) :
  head (drop_while p l) = Some c → p c = false.
Proof.
  induction l as [|x l IH]; simpl; [done|].
  destruct (p x) eqn:E; [done|]. simpl. by intros [= <-].
Qed.

Lemma drop_while_suffix {A} (p : A → bool) (l : list A) : drop_while p l `suffix_of` l.
Proof.
  induction l as [|x l IH]; simpl; [done|].
  destruct (p x); [by apply suffix_cons_r|done].
Qed.

Lemma TrimSpace_trimmed (s : gostring) : trimmed (TrimSpace s).
Proof.
  unfold trimmed, TrimSpace, TrimRightSpace, TrimLeftSpace.
  set (u := drop_while IsSpace s).
  destruct (drop_while_suffix IsSpace (reverse u)) as [k Hk].
  set (w := drop_while IsSpace (reverse u)) in *.
  split; intros c Hc.
  - apply (drop_while_head IsSpace s).
    apply (f_equal reverse) in Hk. rewrite reverse_involutive, reverse_app in Hk.
    fold u. rewrite Hk. destruct (reverse w); [done|]. exact Hc.
  - rewrite last_reverse in Hc. by apply (drop_while_head IsSpace (reverse u)).
Qed.

(** *** The option placeholders never panic *)

Lemma take_while_Forall {A} (p : A → bool) (l : list A) : Forall (λ c, p c = true) (take_while p l).
Proof.
  induction l as [|x l IH]; simpl; [done|].
  destruct (p x) eqn:E; by constructor.
Qed.

Lemma take_while_app {A} (p : A → bool) (l1 l2 : list A) (c : A) :
  Forall (λ c, p c = true) l1 → p c = false → take_while p (l1 ++ c :: l2) = l1.
Proof.
  intros Hall Hc. induction Hall as [|x l1 Hx _ IH]; simpl; [by rewrite Hc|].
  by rewrite Hx, IH.
Qed.

Lemma take_while_drop {A} (p : A → bool) (l : list A) :
  take_while p l ++ drop (length (take_while p l)) l = l.
Proof.
  induction l as [|x l IH]; simpl; [done|].
  destruct (p x); simpl; [by rewrite IH|done].
Qed.

(** A match of an option placeholder is matched again, with the same
    groups, when it is searched on its own. *)
Lemma match_option_again (sep : Z) (s : gostring) (parts : list gostring) :
  match_option sep s = Some parts →
  ∃ m flag opt, parts = [m; flag; opt] ∧ match_option sep m = Some parts.
Proof.
  unfold match_option. destruct s as [|d [|b rest]]; try done.
  destruct ((d =? dollar)%Z && (b =? lbrace)%Z) eqn:Hhead; [|done].
  set (p1 := λ c : Z, negb (c =? sep)%Z && negb (c =? rbrace)%Z).
  set (p2 := λ c : Z, negb (c =? rbrace)%Z).
  set (flag := take_while p1 rest).
  destruct (drop (length flag) rest) as [|c rest'] eqn:Hrest; [done|].
  destruct (negb (eqb flag []) && (c =? sep)%Z) eqn:Hflag; [|done].
  set (opt := take_while p2 rest').
  destruct (drop (length opt) rest') as [|c' rest''] eqn:Hrest'; [done|].
  destruct (negb (eqb opt []) && (c' =? rbrace)%Z) eqn:Hopt; [|done].
  intros [= <-]. eexists _, flag, opt. split; [done|].
  apply andb_true_iff in Hflag as [Hflag1 Hc]. apply Z.eqb_eq in Hc as ->.
  apply andb_true_iff in Hopt as [Hopt1 Hc']. apply Z.eqb_eq in Hc' as ->.
  simpl.
  assert (Hp1 : p1 sep = false) by (unfold p1; by rewrite Z.eqb_refl).
  assert (Hp2 : p2 rbrace = false) by (unfold p2; by rewrite Z.eqb_refl).
  rewrite (take_while_app p1 flag _ sep (take_while_Forall p1 rest) Hp1).
  rewrite drop_app_length. rewrite Hflag1, Z.eqb_refl. simpl.
  rewrite (take_while_app p2 opt [] rbrace (take_while_Forall p2 rest') Hp2).
  rewrite drop_app_length. by rewrite Hopt1, Z.eqb_refl.
Qed.

Lemma FindStringSubmatch_head (re : regexp) (s : gostring) (parts : list gostring) :
  match_at re s = Some parts → FindStringSubmatch re s = parts.
Proof. intros H. destruct s; simpl; by rewrite H. Qed.

Section Placeholders.
Context {T : Type}.
Variable render : T → optionValue.

Lemma resolveOptionsPlaceholder_total (re : regexp) (s m : gostring) (groups : list gostring)
    (options : gmap gostring T) (sep : gostring) :
  re ≠ reUnfilledPlaceholders → match_at re s = Some (m :: groups) →
  is_Some (resolveOptionsPlaceholder render re m options sep).
Proof.
  intros Hre Hm.
  assert (∃ flag opt, match_at re m = Some [m; flag; opt]) as (flag & opt & Hagain).
  { destruct re; [done|..]; simpl in *;
      destruct (match_option_again _ _ _ Hm) as (m' & flag & opt & [= -> ->] & Hagain);
      eauto. }
  unfold resolveOptionsPlaceholder. rewrite (FindStringSubmatch_head _ _ _ Hagain). simpl.
  destruct (options !! _) as [v|]; [|by eauto].
  destruct (render v) as [b|r]; [destruct (Bool.eqb _ _)|destruct (HasPrefix _ _)]; by eauto.
Qed.

Lemma replace_matches_total (re : regexp) (repl : gostring → option gostring) :
  (∀ s m groups, match_at re s = Some (m :: groups) → is_Some (repl m)) →
  ∀ s skip, is_Some (replace_matches re repl skip s).
Proof.
  intros Hrepl s. induction s as [|c s IH]; intros skip; simpl; [by eauto|].
  destruct skip as [|k]; [|apply IH].
  destruct (match_at re (c :: s)) as [[|m groups]|] eqn:Hm.
  - destruct (IH 0) as [rest ->]. by eauto.
  - destruct (Hrepl _ _ _ Hm) as [r ->]. simpl.
    destruct (IH (pred (length m))) as [rest ->]. by eauto.
  - destruct (IH 0) as [rest ->]. by eauto.
Qed.

(** [applyOptionsPlaceholders] returns, and what it returns went through
    [TrimSpace]. *)
Lemma applyOptionsPlaceholders_total (command : gostring) (options : gmap gostring T) :
  ∃ raw, applyOptionsPlaceholders render command options = Some (TrimSpace raw).
Proof.
  unfold applyOptionsPlaceholders, ReplaceAllStringFunc.
  destruct (replace_matches_total reColon
    (λ m, resolveOptionsPlaceholder render reColon m options (lit " "))) with
    (s := command) (skip := 0) as [c1 ->].
  { intros s m groups Hm. by eapply resolveOptionsPlaceholder_total. }
  simpl.
  destruct (replace_matches_total reEquals
    (λ m, resolveOptionsPlaceholder render reEquals m options (lit "="))) with
    (s := c1) (skip := 0) as [c2 ->].
  { intros s m groups Hm. by eapply resolveOptionsPlaceholder_total. }
  simpl. by eexists.
Qed.

End Placeholders.

Lemma Split1_nonempty (sep : Z) (s : gostring) : Split1 sep s ≠ [].
Proof.
  destruct s as [|c s]; simpl; [done|].
  destruct (c =? sep)%Z; [done|]. by destruct (Split1 sep s).
Qed.

Lemma convertRowColToIndex_total (lines : list gostring) (row col : Z) :
  lines ≠ [] → is_Some (convertRowColToIndex lines row col).
Proof.
  intros Hne. unfold convertRowColToIndex.
  assert (0 < length lines) by (destruct lines; [done|simpl; lia]).
  set (r := Z.min (Z.max row 0) (Z.of_nat (length lines) - 1)).
  assert (0 ≤ r < Z.of_nat (length lines))%Z as [Hr1 Hr2] by (unfold r; lia).
  destruct (Z.ltb_spec r 0) as [?|_]; [lia|].
  destruct (lookup_lt_is_Some_2 lines (Z.to_nat r)) as [line ->]; [lia|].
  simpl. by eauto.
Qed.

Lemma applyRangePlaceholders_total (command : gostring) (rng : Range) (text : gostring) :
  ∃ raw, applyRangePlaceholders command rng text = Some (TrimSpace raw).
Proof.
  unfold applyRangePlaceholders.
  destruct (convertRowColToIndex_total (Split1 newline text) (Line (Start rng))
    (Character (Start rng)) (Split1_nonempty _ _)) as [charStart ->].
  destruct (convertRowColToIndex_total (Split1 newline text) (Line (End rng))
    (Character (End rng)) (Split1_nonempty _ _)) as [charEnd ->].
  simpl. apply applyOptionsPlaceholders_total.
Qed.

(** [buildFormatCommandString] returns: it strips the placeholders that are
    left from a string that [TrimSpace] returned. *)
Lemma buildFormatCommandString_returns (rootPath filename textToFormat : gostring)
    (options : gmap gostring optionValue) (rng : option Range) (command : gostring) :
  ∃ raw,
    buildFormatCommandString rootPath filename textToFormat options rng command
    = Some (ReplaceAllString reUnfilledPlaceholders (TrimSpace raw) []).
Proof.
  unfold buildFormatCommandString.
  destruct (applyOptionsPlaceholders_total render_any
    (replaceMagicStrings command filename rootPath) options) as [raw1 ->]. simpl.
  destruct rng as [rng|]; simpl.
  - destruct (applyRangePlaceholders_total (TrimSpace raw1) rng textToFormat) as [raw2 ->].
    simpl. by exists raw2.
  - by exists raw1.
Qed.

Lemma applyOptionsPlaceholders_fill {T} (render : T → optionValue) (command : gostring)
    (options : gmap gostring T) :
  ∃ filled,
    Expansion.fill_options render command options = Some filled
    ∧ applyOptionsPlaceholders render command options = Some (TrimSpace filled).
Proof.
  unfold Expansion.fill_options, applyOptionsPlaceholders, ReplaceAllStringFunc.
  destruct (replace_matches_total reColon
    (λ m, resolveOptionsPlaceholder render reColon m options (lit " "))) with
    (s := command) (skip := 0) as [c1 ->].
  { intros s m groups Hm. by eapply resolveOptionsPlaceholder_total. }
  cbn [mbind option_bind].
  destruct (replace_matches_total reEquals
    (λ m, resolveOptionsPlaceholder render reEquals m options (lit "="))) with
    (s := c1) (skip := 0) as [c2 ->].
  { intros s m groups Hm. by eapply resolveOptionsPlaceholder_total. }
  by exists c2.
Qed.

(** C6, as [buildFormatCommandString] implements it: the last two steps of
    the expansion come in the order trim, then strip.  With [filled] the
    template after the magic strings and the option placeholders are
    substituted, the function returns, without a range, the strip of the
    trimmed [filled]; with a range, the trimmed [filled] goes through the
    substitution of the range placeholders, and the function returns the
    strip of the trimmed result.  The string that is stripped has no white
    space at its ends; nothing trims the result of the strip. *)
Theorem buildFormatCommandString_trims_then_strips (rootPath filename textToFormat : gostring)
    (options : gmap gostring optionValue) (rng : option Range) (command : gostring) :
  ∃ filled,
    Expansion.fill_options render_any (replaceMagicStrings command filename rootPath) options
    = Some filled
    ∧ match rng with
      | None =>
          buildFormatCommandString rootPath filename textToFormat options rng command
          = Some (Expansion.strip_unfilled (TrimSpace filled))
      | Some range =>
          ∃ rangeOptions ranged,
            Expansion.range_options range textToFormat = Some rangeOptions
            ∧ Expansion.fill_options render_int (TrimSpace filled) rangeOptions = Some ranged
            ∧ trimmed (TrimSpace ranged)
            ∧ buildFormatCommandString rootPath filename textToFormat options rng command
              = Some (Expansion.strip_unfilled (TrimSpace ranged))
      end
    ∧ trimmed (TrimSpace filled).
Proof.
  destruct (applyOptionsPlaceholders_fill render_any
    (replaceMagicStrings command filename rootPath) options) as (filled & Hfill & Happly).
  exists filled. split; [exact Hfill|]. split; [|apply TrimSpace_trimmed].
  unfold buildFormatCommandString. rewrite Happly. cbn [mbind option_bind].
  destruct rng as [range|]; [|done].
  unfold applyRangePlaceholders, Expansion.range_options.
  destruct (convertRowColToIndex_total (Split1 newline textToFormat) (Line (Start range))
    (Character (Start range)) (Split1_nonempty _ _)) as [charStart ->].
  destruct (convertRowColToIndex_total (Split1 newline textToFormat) (Line (End range))
    (Character (End range)) (Split1_nonempty _ _)) as [charEnd ->].
  cbn [mbind option_bind].
  match goal with
  | |- context [applyOptionsPlaceholders render_int ?c ?o] =>
      destruct (applyOptionsPlaceholders_fill render_int c o) as (ranged & Hranged & ->)
  end.
  eexists _, ranged. split; [done|]. split; [exact Hranged|].
  split; [apply TrimSpace_trimmed|done].
Qed.

(** C6, as stated, fails: on the command line of the repository's own test
    the placeholder that is left comes last, and stripping it after the
    trim leaves the space in front of it at the end of the command. *)
Lemma buildFormatCommandString_trailing_space :
  buildFormatCommandString (lit "/root") (lit "file.txt") (lit "text") test_options None
    test_command = Some (lit "echo flag value ")
  ∧ last (lit "echo flag value ") = Some 32%Z
  ∧ IsSpace 32 = true
  ∧ TrimSpace (lit "echo flag value ") = lit "echo flag value".
Proof. by vm_compute. Qed.

Section WithEnvironment.

Variable ReadDir : gostring → list DirEntry.
Variable Match : gostring → gostring → bool.
Variable Environ : list gostring.
Variable Output : Cmd → gostring * gostring * option cmdError.

Local Abbreviation formatDocument := (formatDocument Environ Output).
Local Abbreviation formatter_output := (formatter_output ReadDir Match Environ Output).
Local Abbreviation format_loop := (format_loop ReadDir Match Environ Output).
Local Abbreviation chained := (chained ReadDir Match Environ Output).

(** [formatDocument] returns: the standard output without its carriage
    returns, or the error of the formatter. *)
Lemma formatDocument_formatter_output (h : LangHandler) (f : fileRef) (rng : option Range)
    (options : gmap gostring optionValue) (config : Language) (current : gostring) :
  formatDocument (findRootPath ReadDir Match h (NormalizedFilename f) config)
    (NormalizedFilename f) current rng options config
  = Some match formatter_output h f rng options config current with
         | inl stdout => inl (ReplaceAll stdout carriageReturn [])
         | inr err => inr (lit "formatting error: " ++ err)
         end.
Proof.
  unfold Format.formatDocument, Format.formatter_output.
  destruct (buildFormatCommandString_returns
    (findRootPath ReadDir Match h (NormalizedFilename f) config) (NormalizedFilename f)
    current options rng (FormatCommand config)) as (raw & ->).
  simpl. by destruct (runFormattingCommand _ _).
Qed.

Lemma findRootPath_effective_root (h : LangHandler) (f : fileRef) (config : Language) :
  findRootPath ReadDir Match h (NormalizedFilename f) config
  = effective_root ReadDir Match h f config.
Proof.
  unfold findRootPath, effective_root, eqb. cbv zeta.
  case_bool_decide as Hdir;
    [rewrite bool_decide_eq_true_2 by done|rewrite bool_decide_eq_false_2 by done]; done.
Qed.

Lemma ReplaceAll_carriageReturn (s : gostring) :
  ReplaceAll s carriageReturn [] = strip_carriage_returns s.
Proof.
  unfold ReplaceAll, carriageReturn, strip_carriage_returns.
  induction s as [|c s IH]; [done|].
  cbn [replace_scan HasPrefix length pred app].
  assert (Hnil : HasPrefix s [] = true) by (by destruct s).
  rewrite Hnil, andb_true_r, IH, filter_cons.
  destruct (Z.eqb_spec 13 c) as [<-|Hne].
  - by rewrite decide_False by (by intros ?).
  - by rewrite decide_True by (by intros ->).
Qed.

(** What [formatDocument] makes of one formatter: it runs the shell
    command of the specification and classifies its outcome. *)
Lemma formatDocument_run (h : LangHandler) (f : fileRef) (rng : option Range)
    (options : gmap gostring optionValue) (config : Language) (current : gostring) :
  ∃ cmdStr stdout stderr outcome,
    buildFormatCommandString (effective_root ReadDir Match h f config) (NormalizedFilename f)
      current options rng (FormatCommand config) = Some cmdStr
    ∧ Output (shell_invocation Environ cmdStr (effective_root ReadDir Match h f config)
                current config) = (stdout, stderr, outcome)
    ∧ formatDocument (findRootPath ReadDir Match h (NormalizedFilename f) config)
        (NormalizedFilename f) current rng options config
      = Some match outcome with
             | Some _ => inr (recorded_error cmdStr stderr)
             | None => inl (strip_carriage_returns stdout)
             end.
Proof.
  rewrite findRootPath_effective_root. unfold Format.formatDocument.
  destruct (buildFormatCommandString_returns (effective_root ReadDir Match h f config)
    (NormalizedFilename f) current options rng (FormatCommand config)) as (raw & Hcmd).
  rewrite Hcmd. cbn [mbind option_bind].
  unfold runFormattingCommand, buildExecCmd. cbn [Args].
  change [shell; shellFlag; ?c] with [lit "sh"; lit "-c"; c].
  change {| Args := ?a; CmdDir := ?d; CmdEnv := Environ ++ Env config; Stdin := Some current |}
    with (shell_invocation Environ (ReplaceAllString reUnfilledPlaceholders (TrimSpace raw) [])
            (effective_root ReadDir Match h f config) current config).
  destruct (Output _) as [[stdout stderr] outcome] eqn:Hout.
  eexists _, stdout, stderr, outcome. split; [done|]. split; [done|].
  destruct outcome as [failure|]; [done|]. by rewrite ReplaceAll_carriageReturn.
Qed.

Local Opaque lit ReplaceAll.

(** The loop of [RunAllFormatters] computes the chain of the
    specification. *)
Lemma format_loop_chained (h : LangHandler) (f : fileRef) (rng : option Range)
    (options : gmap gostring optionValue) (configs : list Language) :
  ∀ st, ∃ final errs successes,
    chained h f rng options configs (formattedText st) final errs successes
    ∧ format_loop h f rng options configs st
      = Some {| formattedText := final;
                formatted := formatted st || negb (successes =? 0);
                errors := errors st ++ errs |}.
Proof.
  induction configs as [|config configs IH]; intros st.
  - exists (formattedText st), [], 0. split; [constructor|].
    simpl. rewrite orb_false_r, app_nil_r. by destruct st.
  - cbn [Format.format_loop].
    destruct (formatDocument_run h f rng options config (formattedText st))
      as (cmdStr & stdout & stderr & outcome & Hcmd & Hout & ->).
    cbn [mbind option_bind]. destruct outcome as [failure|].
    + destruct (IH {| formattedText := formattedText st; formatted := formatted st;
                      errors := errors st ++ [recorded_error cmdStr stderr] |})
        as (final & errs & successes & Hchain & ->).
      exists final, (recorded_error cmdStr stderr :: errs), successes.
      split; [by econstructor|]. simpl. by rewrite <- app_assoc.
    + destruct (IH {| formattedText := strip_carriage_returns stdout;
                      formatted := true; errors := errors st |})
        as (final & errs & successes & Hchain & ->).
      exists final, errs, (S successes). split; [by eapply chained_success|].
      simpl. by rewrite orb_true_r.
Qed.

Local Transparent lit ReplaceAll.

(** The chain of the specification has one outcome. *)
Lemma chained_functional (h : LangHandler) (f : fileRef) (rng : option Range)
    (options : gmap gostring optionValue) (configs : list Language) (current : gostring)
    (final1 final2 : gostring) (errs1 errs2 : list gostring) (successes1 successes2 : nat) :
  chained h f rng options configs current final1 errs1 successes1 →
  chained h f rng options configs current final2 errs2 successes2 →
  final1 = final2 ∧ errs1 = errs2 ∧ successes1 = successes2.
Proof.
  intros H1. revert final2 errs2 successes2.
  induction H1 as [current
                  |config configs current cmdStr stdout stderr failure final errs successes
                     Hcmd Hout _ IH
                  |config configs current cmdStr stdout stderr final errs successes
                     Hcmd Hout _ IH];
    intros final2 errs2 successes2 H2; inversion H2; subst; try done;
    repeat match goal with
           | Ha : ?x = _, Hb : ?x = _ |- _ => rewrite Ha in Hb; simplify_eq
           end.
  - by destruct (IH _ _ _ ltac:(eassumption)) as (-> & -> & ->).
  - by destruct (IH _ _ _ ltac:(eassumption)) as (-> & -> & ->).
Qed.

(** C8: for a document with at least one selected format config,
    [RunAllFormatters] chains the formatters in order: the chain of the
    specification has an outcome, and whatever its final text, its
    recorded errors and its number of successes are, [RunAllFormatters]
    returns the aggregated error with these errors exactly when no
    formatter succeeded, and otherwise the edits from the original text to
    that final text. *)
Theorem RunAllFormatters_chains (h : LangHandler) (progressToken : gostring)
    (uri : DocumentURI) (rng : option Range) (options : gmap gostring optionValue)
    (f : fileRef) :
  files h !! uri = Some f →
  getFormatConfigsForDocument ReadDir Match (NormalizedFilename f) (LanguageID f) (configs h)
    ≠ [] →
  (∃ final errs successes,
     chained h f rng options
       (getFormatConfigsForDocument ReadDir Match (NormalizedFilename f) (LanguageID f)
          (configs h))
       (Text f) final errs successes)
  ∧ ∀ final errs successes,
      chained h f rng options
        (getFormatConfigsForDocument ReadDir Match (NormalizedFilename f) (LanguageID f)
           (configs h))
        (Text f) final errs successes →
      fst <$> RunAllFormatters ReadDir Match Environ Output h progressToken uri rng options
      = Some (if decide (successes = 0)
              then inr (ErrCouldNotFormat (LanguageID f) errs)
              else inl (ComputeEdits uri (Text f) final)).
Proof.
  intros Hf Hcfg.
  destruct (format_loop_chained h f rng options
    (getFormatConfigsForDocument ReadDir Match (NormalizedFilename f) (LanguageID f)
       (configs h))
    {| formattedText := Text f; formatted := false; errors := [] |})
    as (final & errs & successes & Hchain & Hloop).
  split; [by exists final, errs, successes|].
  intros final' errs' successes' Hchain'.
  destruct (chained_functional _ _ _ _ _ _ _ _ _ _ _ _ Hchain' Hchain) as (-> & -> & ->).
  unfold RunAllFormatters. rewrite Hf.
  rewrite bool_decide_eq_false_2 by (by intros ?%nil_length_inv).
  rewrite Hloop. simpl. destruct successes as [|n]; simpl; done.
Qed.

End WithEnvironment.

Lemma RunAllFormatters_chains_witness :
  fst <$> RunAllFormatters no_entries no_match [] copy_stdin cat_handler (lit "token") uri_a
            None ∅
  = Some (inl (ComputeEdits uri_a (lit "hello") (lit "hello"))).
Proof.
  refine (proj2 (RunAllFormatters_chains no_entries no_match [] copy_stdin cat_handler
    (lit "token") uri_a None ∅ hello_file _ _) (lit "hello") [] 1 _).
  - vm_compute. reflexivity.
  - vm_compute. discriminate.
  - eapply (chained_success _ _ _ _ _ _ _ _ cat_config [] (lit "hello") (lit "cat")
              (lit "hello") [] (lit "hello") [] 0).
    + vm_compute. reflexivity.
    + vm_compute. reflexivity.
    + apply chained_done.
Defined.

End FormatFacts.

(** ** The life cycle of the handler *)

Module HandlerFacts.
Import strings filepath Store Handler.

Lemma scan_languages_exists (config : list Language) (a b : bool) :
  scan_languages config (a, b)
  = (a || existsb has_format config, b || existsb has_range config).
Proof.
  revert a b. induction config as [|lang config IH]; intros a b; simpl.
  - by rewrite !orb_false_r.
  - unfold has_range, has_format.
    destruct (negb (eqb (FormatCommand lang) [])); simpl; [|apply IH].
    destruct (FormatCanRange lang); simpl; [by rewrite !orb_true_r|].
    rewrite IH. simpl. by rewrite orb_true_r.
Qed.

Lemma scan_configs_exists (order : list (gostring * list Language)) (a b : bool) :
  scan_configs order (a, b)
  = (a || existsb (λ entry, existsb has_format entry.2) order,
     b || existsb (λ entry, existsb has_range entry.2) order).
Proof.
  unfold scan_configs. revert a b.
  induction order as [|entry order IH]; intros a b; simpl.
  - by rewrite !orb_false_r.
  - rewrite scan_languages_exists, IH. by rewrite !orb_assoc.
Qed.

Lemma existsb_entries (p : Language → bool) (configs : gmap gostring (list Language))
    (order : list (gostring * list Language)) :
  order ≡ₚ map_to_list configs →
  existsb (λ entry, existsb p entry.2) order = true
  ↔ ∃ langId config lang, configs !! langId = Some config ∧ lang ∈ config ∧ p lang = true.
Proof.
  intros Hperm. rewrite existsb_exists. split.
  - intros ([langId config] & Hin & Hex). apply existsb_exists in Hex as (lang & Hlang & Hp).
    exists langId, config, lang. split_and!; [|by apply list_elem_of_In|done].
    apply elem_of_map_to_list. rewrite <- Hperm. by apply list_elem_of_In.
  - intros (langId & config & lang & Hcfg & Hlang & Hp).
    exists (langId, config). split.
    + apply list_elem_of_In. rewrite Hperm. by apply elem_of_map_to_list.
    + apply existsb_exists. exists lang. split; [by apply list_elem_of_In|done].
Qed.

Lemma has_format_true (lang : Language) : has_format lang = true ↔ FormatCommand lang ≠ [].
Proof.
  unfold has_format, eqb. rewrite negb_true_iff, bool_decide_eq_false. done.
Qed.

Lemma formats_has (configs : gmap gostring (list Language)) (ranges : bool) :
  formats configs ranges
  ↔ ∃ langId config lang, configs !! langId = Some config ∧ lang ∈ config
      ∧ (if ranges then has_range lang else has_format lang) = true.
Proof.
  unfold formats, has_range.
  split; intros (langId & config & lang & Hcfg & Hlang & Hl);
    exists langId, config, lang; (split_and!; [done|done|..]).
  - destruct Hl as [Hne Hr]. apply has_format_true in Hne.
    destruct ranges; [|done]. rewrite Hne. simpl. by apply Hr.
  - destruct ranges.
    + apply andb_true_iff in Hl as [Hl _]. by apply has_format_true.
    + by apply has_format_true.
  - destruct ranges; [|done]. by apply andb_true_iff in Hl as [_ Hl].
Qed.

Section WithURIs.
Variable PathFromURI : DocumentURI → gostring + gostring.

(** What [Initialize] announces, from the options of the client and the
    configs ranged over. *)
Lemma Initialize_in_caps (order : list (gostring * list Language)) (h h' : LangHandler)
    (params : InitializeParams) (caps : ServerCapabilities) :
  Initialize_in PathFromURI order h params = (h', inl caps) →
  (DocumentFormattingProvider caps, RangeFormattingProvider caps)
  = scan_configs order
      (match InitializationOptions params with
       | Some o => (DocumentFormatting o, RangeFormatting o)
       | None => (false, false)
       end).
Proof.
  unfold Initialize_in. intros Hinit.
  destruct (negb (eqb (RootURI params) [])); [destruct (PathFromURI _)|];
    simplify_eq; simpl; by destruct (scan_configs _ _).
Qed.

(** X1: the capabilities that [Initialize] announces do not depend on the
    order in which the map of configs is ranged over, and the [break] of the
    inner loop loses nothing: formatting is announced exactly when the
    client asked for it or some language has a format command, range
    formatting exactly when the client asked for it or some language has a
    format command that can format ranges. *)
Theorem Initialize_capabilities (order : list (gostring * list Language)) (h h' : LangHandler)
    (params : InitializeParams) (caps : ServerCapabilities) :
  order ≡ₚ map_to_list (configs h) →
  Initialize_in PathFromURI order h params = (h', inl caps) →
  (DocumentFormattingProvider caps = true
   ↔ (∃ o, InitializationOptions params = Some o ∧ DocumentFormatting o = true)
     ∨ formats (configs h) false)
  ∧ (RangeFormattingProvider caps = true
     ↔ (∃ o, InitializationOptions params = Some o ∧ RangeFormatting o = true)
       ∨ formats (configs h) true).
Proof.
  intros Hperm Hinit. apply Initialize_in_caps in Hinit.
  rewrite !formats_has, <- !(existsb_entries _ _ _ Hperm).
  destruct (InitializationOptions params) as [o|];
    rewrite scan_configs_exists in Hinit; injection Hinit as Hd Hr;
    rewrite Hd, Hr, ?orb_true_iff.
  - split; (split; (intros [Ho|He]; [left|by right])); [by eauto| |by eauto|];
      by destruct Ho as (o' & [= <-] & ?).
  - split; (split; [by right|]); (intros [Ho|He]; [|done]);
      by destruct Ho as (o' & ? & ?).
Qed.

Lemma well_keyed_step (h : LangHandler) (op : storeOp) :
  well_keyed PathFromURI h → well_keyed PathFromURI (apply_store_op PathFromURI h op).
Proof.
  intros Hkeyed uri f. destruct op as [u l v t|u t v|u]; simpl.
  - unfold OpenFile, normalizedFilenameFromUri.
    destruct (PathFromURI u) as [fname|err] eqn:Hpath; simpl; [|apply Hkeyed].
    destruct (decide (u = uri)) as [->|Hne].
    + rewrite lookup_insert_eq. intros [= <-]. simpl. by rewrite Hpath.
    + rewrite lookup_insert_ne by done. apply Hkeyed.
  - unfold UpdateFile. destruct (files h !! u) as [g|] eqn:Hg; simpl; [|apply Hkeyed].
    destruct (decide (u = uri)) as [->|Hne].
    + rewrite lookup_insert_eq. intros [= <-].
      destruct (Hkeyed _ _ Hg) as [??]. by destruct v.
    + rewrite lookup_insert_ne by done. apply Hkeyed.
  - destruct (decide (u = uri)) as [->|Hne].
    + by rewrite lookup_delete_eq.
    + rewrite lookup_delete_ne by done. apply Hkeyed.
Qed.

(** X2: from a new handler on, whatever documents are opened, changed and
    closed, each document of the store is held under its own URI and keeps
    the file name of that URI: an update changes neither. *)
Theorem store_well_keyed (config : Config) (h : LangHandler) (ops : list storeOp) :
  NewHandler config = Some h →
  well_keyed PathFromURI (foldl (apply_store_op PathFromURI) h ops).
Proof.
  intros Hnew. assert (Hstart : well_keyed PathFromURI h).
  { unfold NewHandler in Hnew. destruct (Languages config); [|done].
    injection Hnew as <-. intros uri f. simpl. by rewrite lookup_empty. }
  clear Hnew. revert h Hstart. induction ops as [|op ops IH]; intros h Hstart; [done|].
  simpl. apply IH. by apply well_keyed_step.
Qed.

(** X3: a request on one document leaves every other document of the store
    as it is. *)
Theorem store_op_frame (h : LangHandler) (op : storeOp) (uri : DocumentURI) :
  target op ≠ uri →
  files (apply_store_op PathFromURI h op) !! uri = files h !! uri.
Proof.
  intros Hne. destruct op as [u l v t|u t v|u]; simpl in *.
  - unfold OpenFile, normalizedFilenameFromUri. destruct (PathFromURI u); simpl; [|done].
    by rewrite lookup_insert_ne.
  - unfold UpdateFile. destruct (files h !! u); simpl; [|done]. by rewrite lookup_insert_ne.
  - by rewrite lookup_delete_ne.
Qed.

(** X4: opening a document that is already open replaces it: the store is
    the one that the second open alone gives. *)
Theorem OpenFile_replaces (h : LangHandler) (uri : DocumentURI) (l1 l2 t1 t2 : gostring)
    (v1 v2 : Z) :
  OpenFile PathFromURI (fst (OpenFile PathFromURI h uri l1 v1 t1)) uri l2 v2 t2
  = OpenFile PathFromURI h uri l2 v2 t2.
Proof.
  unfold OpenFile, normalizedFilenameFromUri.
  destruct (PathFromURI uri); simpl; [|done]. by rewrite insert_insert_eq.
Qed.

End WithURIs.

Lemma Initialize_capabilities_witness :
  (DocumentFormattingProvider
     {| PositionEncoding := UTF16;
        TextDocumentSync := {| OpenClose := true; Change := TDSKFull |};
        DocumentFormattingProvider := true; RangeFormattingProvider := true |} = true
   ↔ (∃ o, InitializationOptions no_root = Some o ∧ DocumentFormatting o = true)
     ∨ formats (configs range_handler) false)
  ∧ (RangeFormattingProvider
       {| PositionEncoding := UTF16;
          TextDocumentSync := {| OpenClose := true; Change := TDSKFull |};
          DocumentFormattingProvider := true; RangeFormattingProvider := true |} = true
     ↔ (∃ o, InitializationOptions no_root = Some o ∧ RangeFormatting o = true)
       ∨ formats (configs range_handler) true).
Proof.
  apply (Initialize_capabilities path_of_uri (map_to_list (configs range_handler))
           range_handler range_handler no_root).
  - reflexivity.
  - vm_compute. reflexivity.
Defined.

Lemma store_well_keyed_witness :
  well_keyed path_of_uri
    (foldl (apply_store_op path_of_uri) empty_handler
       [Open uri_a (lit "go") 1%Z (lit "a"); Update uri_a (lit "b") None; Close uri_a]).
Proof.
  apply (store_well_keyed path_of_uri NewConfig empty_handler). reflexivity.
Defined.

Lemma store_op_frame_witness :
  files (apply_store_op path_of_uri empty_handler (Close uri_a)) !! lit "file:///b.go"
  = files empty_handler !! lit "file:///b.go".
Proof.
  apply (store_op_frame path_of_uri empty_handler (Close uri_a) (lit "file:///b.go")).
  vm_compute. discriminate.
Defined.

End HandlerFacts.

(** ** More on the root resolver *)

Module RootMore.
Import strings filepath Root Store Command Ancestors.

Section WithFileSystem.
Variable ReadDir : gostring → list DirEntry.
Variable Match : gostring → gostring → bool.

Local Abbreviation walk := (walk ReadDir Match).
Local Abbreviation dir_matches := (dir_matches ReadDir Match).
Local Abbreviation matchRootPath := (matchRootPath ReadDir Match).

(** X5: a marker that ends with a slash matches directories only, and a
    marker that does not matches files only. *)
Theorem marker_matches_kind (file : DirEntry) (marker : gostring) :
  marker_matches Match file marker = true →
  IsDir file = HasSuffix marker (lit "/").
Proof.
  unfold marker_matches.
  destruct (HasSuffix marker (lit "/")), (IsDir file); simpl; done.
Qed.

(** The walk returns the first directory that matches. *)
Lemma walk_first (markers : list gostring) (k : nat) :
  ∀ fuel dir prev r,
    walk fuel markers dir prev = Some r → dir ≠ prev →
    dir_matches (Nat.iter k Dir dir) markers = true →
    (∀ j, j < k → dir_matches (Nat.iter j Dir dir) markers = false) →
    r = Nat.iter k Dir dir.
Proof.
  induction k as [|k IH]; intros fuel dir prev r Hwalk Hne Hk Hbefore;
    (destruct fuel as [|n]; [done|]); simpl in Hwalk;
    unfold eqb in Hwalk; rewrite bool_decide_eq_false_2 in Hwalk by done.
  - simpl in Hk. rewrite Hk in Hwalk. by injection Hwalk as <-.
  - pose proof (Hbefore 0 ltac:(lia)) as Hhere. simpl in Hhere. rewrite Hhere in Hwalk.
    rewrite Nat.iter_succ_r in Hk |- *.
    apply (IH n (Dir dir) dir); [done| |done|].
    + intros Hfix. assert (Hall : ∀ j, Nat.iter j Dir (Dir dir) = dir).
      { induction j as [|j IHj]; simpl; [done|]. by rewrite IHj. }
      rewrite Hall in Hk. specialize (Hbefore 0 ltac:(lia)). simpl in Hbefore. congruence.
    + intros j Hj. specialize (Hbefore (S j) ltac:(lia)).
      by rewrite Nat.iter_succ_r in Hbefore.
Qed.

(** The walk returns the empty string when no directory matches. *)
Lemma walk_none (markers : list gostring) :
  ∀ fuel dir prev r,
    walk fuel markers dir prev = Some r →
    (∀ j, dir_matches (Nat.iter j Dir dir) markers = false) →
    r = [].
Proof.
  induction fuel as [|n IH]; intros dir prev r Hwalk Hnone; [done|].
  simpl in Hwalk. destruct (eqb dir prev); [by injection Hwalk as <-|].
  pose proof (Hnone 0) as Hhere. simpl in Hhere. rewrite Hhere in Hwalk.
  apply (IH (Dir dir) dir); [done|].
  intros j. specialize (Hnone (S j)). by rewrite Nat.iter_succ_r in Hnone.
Qed.

Lemma matchRootPath_walk (fname : gostring) (markers : list gostring) :
  walk (length fname + 2) markers (Dir fname) [] = Some (matchRootPath fname markers).
Proof.
  pose proof (RootFacts.rank_Dir fname) as Hrank.
  destruct (RootFacts.walk_terminates ReadDir Match markers (length fname + 2)
    (upto_last_separator fname) []) as (r & Hr & _); [unfold Dir in Hrank; lia|].
  unfold Root.matchRootPath, matchRootPath_fuel, Dir. by rewrite Hr.
Qed.

(** X6: [matchRootPath] returns the nearest ancestor directory of the file
    in which a marker matches, and the empty string when no ancestor has a
    match. *)
Theorem matchRootPath_nearest (fname : gostring) (markers : list gostring) :
  (∀ k, dir_matches (ancestor fname k) markers = true →
        (∀ j, j < k → dir_matches (ancestor fname j) markers = false) →
        matchRootPath fname markers = ancestor fname k)
  ∧ ((∀ k, dir_matches (ancestor fname k) markers = false) →
     matchRootPath fname markers = []).
Proof.
  pose proof (matchRootPath_walk fname markers) as Hwalk. split.
  - intros k Hk Hbefore.
    apply (walk_first markers k _ (Dir fname) [] _ Hwalk); [|done..].
    apply RootFacts.Clean_nonempty.
  - intros Hnone. by apply (walk_none markers _ (Dir fname) [] _ Hwalk).
Qed.

Lemma matchRootPath_no_markers (fname : gostring) : matchRootPath fname [] = [].
Proof.
  apply (walk_none [] _ (Dir fname) [] _ (matchRootPath_walk fname [])).
  intros j. unfold Root.dir_matches. by induction (ReadDir _).
Qed.

(** X7: a config that requires a marker and lists none is never selected,
    for linting or for formatting, whatever the document and the event. *)
Theorem require_marker_without_markers (fname langId : gostring)
    (allConfigs : gmap gostring (list Language)) (eventType : EventType) (cfg : Language) :
  RequireMarker cfg = true → RootMarkers cfg = [] →
  (cfg ∉ Lint.getLintConfigsForDocument ReadDir Match fname langId allConfigs eventType)
  ∧ (cfg ∉ Format.getFormatConfigsForDocument ReadDir Match fname langId allConfigs).
Proof.
  intros Hreq Hmarkers.
  unfold Lint.getLintConfigsForDocument, Format.getFormatConfigsForDocument.
  split; intros [Hsel _]%list_elem_of_filter; revert Hsel;
    rewrite Hmarkers, matchRootPath_no_markers, Hreq; simpl;
    rewrite ?andb_false_r; done.
Qed.

End WithFileSystem.

Lemma marker_matches_kind_witness :
  IsDir {| Name := lit ".git"; IsDir := true |} = HasSuffix (lit ".git/") (lit "/").
Proof.
  apply (marker_matches_kind same_name {| Name := lit ".git"; IsDir := true |} (lit ".git/")).
  vm_compute. reflexivity.
Defined.

Lemma matchRootPath_nearest_witness :
  matchRootPath project_tree same_name (lit "/a/b/c/d.go") [lit ".git/"] = lit "/a".
Proof.
  apply (proj1 (matchRootPath_nearest project_tree same_name (lit "/a/b/c/d.go")
                  [lit ".git/"]) 2).
  - vm_compute. reflexivity.
  - intros j Hj. destruct j as [|[|j]]; [vm_compute; reflexivity..|lia].
Defined.

Lemma require_marker_without_markers_witness :
  (strict_config ∉ Lint.getLintConfigsForDocument project_tree same_name
      (lit "/a/b.go") (lit "go") {[ lit "go" := [strict_config] ]} EventTypeSave)
  ∧ (strict_config ∉ Format.getFormatConfigsForDocument project_tree same_name
      (lit "/a/b.go") (lit "go") {[ lit "go" := [strict_config] ]}).
Proof.
  apply (require_marker_without_markers project_tree same_name (lit "/a/b.go") (lit "go")
           {[ lit "go" := [strict_config] ]} EventTypeSave strict_config); reflexivity.
Defined.

End RootMore.

(** ** Command lines *)

Module CommandFacts.
Import strings filepath Root Store Command Lint Escape.

Lemma ReplaceAll_rune (s new : gostring) (a : Z) :
  ReplaceAll s [a] new = s ≫= λ c, if (a =? c)%Z then new else [c].
Proof.
  assert (Hnil : ∀ t : gostring, HasPrefix t [] = true) by (by intros []).
  unfold ReplaceAll. induction s as [|c s IH]; [done|].
  cbn [replace_scan HasPrefix length pred]. rewrite Hnil, andb_true_r.
  rewrite bind_cons, IH. by destruct (a =? c)%Z.
Qed.

Lemma escapeBrackets_bind (path : gostring) :
  escapeBrackets path = path ≫= escape_rune.
Proof.
  unfold escapeBrackets.
  change (lit "(") with [lparen]. change (lit ")") with [rparen].
  rewrite !ReplaceAll_rune. induction path as [|c path IH]; [done|].
  rewrite !bind_cons, bind_app, IH. f_equal.
  unfold escape_rune, lparen, rparen, backslash.
  destruct (Z.eqb_spec 40 c) as [<-|Hl]; [done|].
  rewrite bind_cons; change (@nil Z ≫= _) with (@nil Z); rewrite app_nil_r.
  destruct (Z.eqb_spec 41 c) as [<-|Hr]; [done|].
  by rewrite bool_decide_eq_false_2 by lia.
Qed.

Lemma HasPrefix_no_dollar (s old : gostring) :
  dollar ∉ s → HasPrefix s (dollar :: old) = false.
Proof.
  destruct s as [|c s]; [done|]. intros Hs. cbn [HasPrefix].
  destruct (Z.eqb_spec dollar c) as [<-|]; [|done]. exfalso. apply Hs. by left.
Qed.

Lemma replace_scan_app (pre s old new : gostring) :
  dollar ∉ pre →
  replace_scan (dollar :: old) new 0 (pre ++ s) = pre ++ replace_scan (dollar :: old) new 0 s.
Proof.
  induction pre as [|c pre IH]; intros Hpre; [done|].
  rewrite not_elem_of_cons in Hpre. destruct Hpre as [Hc Hpre].
  change ((c :: pre) ++ s) with (c :: (pre ++ s)).
  cbn [replace_scan]. cbn [HasPrefix].
  destruct (Z.eqb_spec dollar c); [done|]. simpl. by rewrite IH.
Qed.

Lemma ReplaceAll_no_dollar (s old new : gostring) :
  dollar ∉ s → ReplaceAll s (dollar :: old) new = s.
Proof.
  intros Hs. unfold ReplaceAll.
  rewrite <- (app_nil_r s) at 1. rewrite replace_scan_app by done.
  simpl. by rewrite app_nil_r.
Qed.

Lemma Contains_no_dollar (s old : gostring) :
  dollar ∉ s → Contains s (dollar :: old) = false.
Proof.
  induction s as [|c s IH]; intros Hs; [done|].
  cbn [Contains]. rewrite HasPrefix_no_dollar by done.
  rewrite not_elem_of_cons in Hs. destruct Hs as [_ Hs]. by rewrite IH.
Qed.

Lemma escapeBrackets_no_dollar (path : gostring) :
  dollar ∉ path → dollar ∉ escapeBrackets path.
Proof.
  rewrite escapeBrackets_bind. intros Hpath [c [Hc Hin]]%list_elem_of_bind.
  unfold escape_rune in Hc. case_bool_decide.
  - apply elem_of_cons in Hc as [Hc|Hc%list_elem_of_singleton]; [done|by subst].
  - apply list_elem_of_singleton in Hc. by subst.
Qed.

Lemma replaceMagicStrings_no_dollar (command fname rootPath : gostring) :
  dollar ∉ command → replaceMagicStrings command fname rootPath = command.
Proof.
  intros Hcommand. unfold replaceMagicStrings.
  change inputPlaceholder with (dollar :: lit "{INPUT}").
  change fileextPlaceholder with (dollar :: lit "{FILEEXT}").
  change filenamePlaceholder with (dollar :: lit "{FILENAME}").
  change rootPlaceholder with (dollar :: lit "{ROOT}").
  cbv zeta. by do 4 (rewrite (ReplaceAll_no_dollar command) by done).
Qed.

Lemma replace_scan_whole (new : gostring) :
  replace_scan inputPlaceholder new 0 inputPlaceholder = new.
Proof. symmetry. rewrite <- (app_nil_r new) at 1. reflexivity. Qed.

(** X8: [escapeBrackets] puts a backslash before every parenthesis and
    changes nothing else; the second replacement leaves what the first one
    wrote as it is. *)
Theorem escapeBrackets_runes (path : gostring) :
  escapeBrackets path = path ≫= escape_rune.
Proof. apply escapeBrackets_bind. Qed.

(** X9: a command without a dollar sign holds no placeholder, and
    [replaceMagicStrings] returns it as it is, whatever the file name and
    the root path. *)
Theorem replaceMagicStrings_plain (command fname rootPath : gostring) :
  dollar ∉ command → replaceMagicStrings command fname rootPath = command.
Proof. apply replaceMagicStrings_no_dollar. Qed.

Lemma replaceMagicStrings_plain_witness :
  (dollar ∉ lit "gofmt -l") ∧
  replaceMagicStrings (lit "gofmt -l") (lit "/tmp/a (1).go") (lit "/tmp") = lit "gofmt -l".
Proof.
  assert (H : dollar ∉ lit "gofmt -l") by compute_done.
  split; [exact H|]. exact (replaceMagicStrings_plain _ _ _ H).
Defined.

(** X10: for a linter that does not read its standard input, whose command
    holds no dollar sign, [buildLintCommandString] appends a space and the
    file name, its parentheses escaped, provided the file name holds no
    dollar sign either. *)
Theorem buildLintCommandString_appends_file (rootPath : gostring) (f : fileRef)
    (config : Language) :
  LintStdin config = false →
  dollar ∉ LintCommand config →
  dollar ∉ NormalizedFilename f →
  buildLintCommandString rootPath f config =
    LintCommand config ++ lit " " ++ escapeBrackets (NormalizedFilename f).
Proof.
  intros Hstdin Hcommand Hfname. unfold buildLintCommandString. rewrite Hstdin.
  change inputPlaceholder with (dollar :: lit "{INPUT}") at 1.
  rewrite Contains_no_dollar by done. cbn [negb andb].
  assert (Hspace : dollar ∉ LintCommand config ++ lit " ").
  { rewrite not_elem_of_app. split; [done|]. compute_done. }
  assert (Hresult : dollar ∉ LintCommand config ++ lit " " ++
                      escapeBrackets (NormalizedFilename f)).
  { rewrite app_assoc, not_elem_of_app. split; [done|].
    by apply escapeBrackets_no_dollar. }
  unfold replaceMagicStrings. cbv zeta.
  assert (Hfirst : ReplaceAll (LintCommand config ++ lit " " ++ inputPlaceholder)
                     inputPlaceholder (escapeBrackets (NormalizedFilename f)) =
                   LintCommand config ++ lit " " ++ escapeBrackets (NormalizedFilename f)).
  { rewrite app_assoc. change (ReplaceAll ?s inputPlaceholder ?n) with
      (replace_scan (dollar :: lit "{INPUT}") n 0 s).
    rewrite replace_scan_app by done.
    change (dollar :: lit "{INPUT}") with inputPlaceholder.
    by rewrite replace_scan_whole, <- app_assoc. }
  rewrite Hfirst.
  change fileextPlaceholder with (dollar :: lit "{FILEEXT}").
  change filenamePlaceholder with (dollar :: lit "{FILENAME}").
  change rootPlaceholder with (dollar :: lit "{ROOT}").
  by do 3 (rewrite (ReplaceAll_no_dollar (LintCommand config ++ _)) by done).
Qed.

Lemma buildLintCommandString_appends_file_witness :
  buildLintCommandString (lit "/tmp") paren_file golint_config =
    lit "golint /tmp/a \(1\).go".
Proof.
  rewrite (buildLintCommandString_appends_file (lit "/tmp") paren_file golint_config);
    [reflexivity | reflexivity | compute_done | compute_done].
Defined.

End CommandFacts.

(** ** Formatting, continued *)

Module FormatMore.
Import strings filepath Root Store Command Diff Format Placeholder.
Import FormatFacts CommandFacts.

Lemma match_option_placeholder (sep : Z) (flag opt rest : gostring) :
  flag ≠ [] → sep ∉ flag → rbrace ∉ flag → opt ≠ [] → rbrace ∉ opt →
  match_option sep (placeholder sep flag opt ++ rest)
  = Some [placeholder sep flag opt; flag; opt].
Proof.
  intros Hflag Hsep Hbrace Hopt Hbrace'. unfold placeholder, match_option.
  cbn [app]. rewrite !Z.eqb_refl. cbn [andb].
  set (p1 := λ c : Z, negb (c =? sep)%Z && negb (c =? rbrace)%Z).
  set (p2 := λ c : Z, negb (c =? rbrace)%Z).
  assert (Hp1 : p1 sep = false) by (unfold p1; by rewrite Z.eqb_refl).
  assert (Hp2 : p2 rbrace = false) by (unfold p2; by rewrite Z.eqb_refl).
  assert (Hall1 : Forall (λ c, p1 c = true) flag).
  { apply Forall_forall. intros c Hc. unfold p1.
    destruct (Z.eqb_spec c sep) as [->|_]; [done|].
    destruct (Z.eqb_spec c rbrace) as [->|_]; done. }
  assert (Hall2 : Forall (λ c, p2 c = true) opt).
  { apply Forall_forall. intros c Hc. unfold p2.
    destruct (Z.eqb_spec c rbrace) as [->|_]; done. }
  rewrite <- !app_assoc. cbn [app].
  rewrite (take_while_app p1 flag _ sep Hall1 Hp1), drop_app_length.
  rewrite Z.eqb_refl, andb_true_r.
  unfold eqb at 1. rewrite (bool_decide_eq_false_2 _ Hflag). cbn [negb].
  rewrite <- app_assoc. cbn [app].
  rewrite (take_while_app p2 opt _ rbrace Hall2 Hp2), drop_app_length.
  rewrite Z.eqb_refl, andb_true_r.
  unfold eqb. by rewrite (bool_decide_eq_false_2 _ Hopt).
Qed.

Lemma match_at_placeholder (re : regexp) (flag opt : gostring) :
  re ≠ reUnfilledPlaceholders →
  flag ≠ [] → separator re ∉ flag → rbrace ∉ flag → opt ≠ [] → rbrace ∉ opt →
  match_at re (placeholder (separator re) flag opt)
  = Some [placeholder (separator re) flag opt; flag; opt].
Proof.
  intros Hre Hflag Hsep Hbrace Hopt Hbrace'.
  rewrite <- (app_nil_r (placeholder _ _ _)) at 1.
  destruct re; [done| |]; by apply match_option_placeholder.
Qed.

Lemma option_name_key (neg : bool) (key : gostring) :
  (neg = false → HasPrefix key (lit "!") = false) →
  HasPrefix (option_name neg key) (lit "!") = neg
  ∧ TrimPrefix (option_name neg key) (lit "!") = key.
Proof.
  intros Hkey. unfold TrimPrefix. destruct neg.
  - assert (H : HasPrefix (option_name true key) (lit "!") = true).
    { unfold option_name. change (lit "!") with [33%Z]. cbn [app HasPrefix].
      by destruct key. }
    by rewrite H.
  - change (option_name false key) with key. by rewrite Hkey.
Qed.

(** X11: what [resolveOptionsPlaceholder] makes of the placeholder
    [${flag<sep>key}] or [${flag<sep>!key}]: the placeholder itself when
    the options have no [key]; for a boolean value the flag when the value
    is true and the key is not negated, or false and negated, and nothing
    otherwise; for another value the flag, the separator and the value, and
    nothing when the key is negated.  It never panics on such a
    placeholder. *)
Theorem resolveOptionsPlaceholder_table {T} (render : T → optionValue) (re : regexp)
    (flag key : gostring) (neg : bool) (options : gmap gostring T) (sep : gostring) :
  re ≠ reUnfilledPlaceholders →
  flag ≠ [] → separator re ∉ flag → rbrace ∉ flag →
  rbrace ∉ key →
  (neg = false → key ≠ [] ∧ HasPrefix key (lit "!") = false) →
  resolveOptionsPlaceholder render re
    (placeholder (separator re) flag (option_name neg key)) options sep
  = Some match options !! key with
         | None => placeholder (separator re) flag (option_name neg key)
         | Some v =>
             match render v with
             | OptBool b => if Bool.eqb b (negb neg) then flag else []
             | OptOther rendered => if neg then [] else flag ++ sep ++ rendered
             end
         end.
Proof.
  intros Hre Hflag Hsep Hbrace Hbrace' Hneg.
  assert (Hopt : option_name neg key ≠ []).
  { destruct neg; [done|]. by apply Hneg. }
  assert (Hbrace'' : rbrace ∉ option_name neg key).
  { unfold option_name. rewrite not_elem_of_app. split; [|done].
    destruct neg; [compute_done|apply not_elem_of_nil]. }
  destruct (option_name_key neg key) as [Hprefix Htrim]; [intros ?; by apply Hneg|].
  unfold resolveOptionsPlaceholder.
  rewrite (FindStringSubmatch_head re _ _
             (match_at_placeholder re flag _ Hre Hflag Hsep Hbrace Hopt Hbrace'')).
  cbn [lookup list_lookup mbind option_bind]. rewrite Hprefix, Htrim.
  destruct (options !! key) as [v|]; [|done].
  destruct (render v) as [b|rendered]; [by destruct (Bool.eqb _ _)|by destruct neg].
Qed.

Lemma resolveOptionsPlaceholder_table_witness :
  resolveOptionsPlaceholder render_any reColon (lit "${--tab:tabSize}") tab_options (lit " ")
  = Some (lit "--tab 4").
Proof.
  apply (resolveOptionsPlaceholder_table render_any reColon (lit "--tab") (lit "tabSize")
           false tab_options (lit " "));
    [done | done | compute_done | compute_done | compute_done | done].
Defined.

(** *** Commands without placeholders *)

Lemma match_at_no_dollar (re : regexp) (c : Z) (s : gostring) :
  c ≠ dollar → match_at re (c :: s) = None.
Proof.
  intros Hc. apply Z.eqb_neq in Hc.
  destruct re, s as [|b s]; simpl; try done; by rewrite Hc.
Qed.

Lemma replace_matches_no_dollar (re : regexp) (repl : gostring → option gostring)
    (s : gostring) :
  dollar ∉ s → replace_matches re repl 0 s = Some s.
Proof.
  induction s as [|c s IH]; [done|]. intros [Hc Hs]%not_elem_of_cons.
  cbn [replace_matches]. rewrite match_at_no_dollar by done.
  by rewrite IH.
Qed.

Lemma drop_while_keeps {A} (p : A → bool) (l : list A) :
  (∀ c, head l = Some c → p c = false) → drop_while p l = l.
Proof. destruct l as [|x l]; [done|]. intros H. simpl. by rewrite (H x). Qed.

Lemma TrimSpace_keeps (s : gostring) : trimmed s → TrimSpace s = s.
Proof.
  intros [Hhead Hlast]. unfold TrimSpace, TrimLeftSpace, TrimRightSpace.
  rewrite (drop_while_keeps IsSpace s) by done.
  rewrite drop_while_keeps; [apply reverse_involutive|].
  intros c. rewrite head_reverse. apply Hlast.
Qed.

Lemma TrimSpace_elem_of (s : gostring) (c : Z) : c ∈ TrimSpace s → c ∈ s.
Proof.
  unfold TrimSpace, TrimLeftSpace, TrimRightSpace. rewrite elem_of_reverse.
  intros Hc.
  pose proof (elem_of_suffix _ _ _ Hc
    (drop_while_suffix IsSpace (reverse (drop_while IsSpace s)))) as Hc'.
  rewrite elem_of_reverse in Hc'.
  exact (elem_of_suffix _ _ _ Hc' (drop_while_suffix IsSpace s)).
Qed.

Lemma applyOptionsPlaceholders_no_dollar {T} (render : T → optionValue)
    (command : gostring) (options : gmap gostring T) :
  dollar ∉ command →
  applyOptionsPlaceholders render command options = Some (TrimSpace command).
Proof.
  intros Hcommand. unfold applyOptionsPlaceholders, ReplaceAllStringFunc.
  rewrite replace_matches_no_dollar by done. cbn [mbind option_bind].
  by rewrite replace_matches_no_dollar by done.
Qed.

(** X12: a format command without a dollar sign holds no placeholder:
    [buildFormatCommandString] returns it with the white space at its two
    ends removed and nothing else changed, whatever the options, the range
    and the text. *)
Theorem buildFormatCommandString_plain (rootPath filename textToFormat : gostring)
    (options : gmap gostring optionValue) (rng : option Range) (command : gostring) :
  dollar ∉ command →
  buildFormatCommandString rootPath filename textToFormat options rng command
  = Some (TrimSpace command).
Proof.
  intros Hcommand. unfold buildFormatCommandString.
  rewrite (replaceMagicStrings_no_dollar command) by exact Hcommand.
  rewrite applyOptionsPlaceholders_no_dollar by done. cbn [mbind option_bind].
  assert (Htrim : dollar ∉ TrimSpace command).
  { intros H. by apply Hcommand, TrimSpace_elem_of. }
  assert (Hrange : match rng with
                   | Some rng => applyRangePlaceholders (TrimSpace command) rng textToFormat
                   | None => Some (TrimSpace command)
                   end = Some (TrimSpace command)).
  { destruct rng as [rng|]; [|done]. unfold applyRangePlaceholders.
    destruct (convertRowColToIndex_total (Split1 newline textToFormat) (Line (Start rng))
      (Character (Start rng)) (Split1_nonempty _ _)) as [charStart ->].
    destruct (convertRowColToIndex_total (Split1 newline textToFormat) (Line (End rng))
      (Character (End rng)) (Split1_nonempty _ _)) as [charEnd ->].
    cbn [mbind option_bind]. rewrite applyOptionsPlaceholders_no_dollar by done.
    by rewrite (TrimSpace_keeps _ (TrimSpace_trimmed command)). }
  rewrite Hrange. cbn [mbind option_bind]. unfold ReplaceAllString.
  by rewrite replace_matches_no_dollar by done.
Qed.

Lemma buildFormatCommandString_plain_witness :
  buildFormatCommandString (lit "/root") (lit "/root/a.go") (lit "text") tab_options None
    (lit " gofmt -s ") = Some (lit "gofmt -s").
Proof.
  apply (buildFormatCommandString_plain (lit "/root") (lit "/root/a.go") (lit "text")
           tab_options None (lit " gofmt -s ")).
  compute_done.
Defined.

(** *** Positions *)

Lemma len_app (a b : gostring) : len (a ++ b) = (len a + len b)%Z.
Proof. induction a as [|c a IH]; simpl; [done|]. rewrite IH. lia. Qed.

Lemma RuneLen_pos (r : rune) : (0 < RuneLen r)%Z.
Proof. unfold RuneLen. repeat case_match; lia. Qed.

Lemma len_nonneg (a : gostring) : (0 ≤ len a)%Z.
Proof. induction a as [|c a IH]; simpl; [done|]. pose proof (RuneLen_pos c). lia. Qed.

Lemma wrap_small (z : Z) : (- 2 ^ 63 ≤ z < 2 ^ 63)%Z → wrap z = z.
Proof. intros Hz. unfold wrap. rewrite Z.mod_small; lia. Qed.

Lemma sum_lines_cons (l : gostring) (lines : list gostring) :
  sum_lines (l :: lines) = (len l + 1 + sum_lines lines)%Z.
Proof.
  unfold sum_lines. rewrite fmap_cons. cbn [concat]. rewrite !len_app.
  change (len [newline]) with 1%Z. lia.
Qed.

Lemma sum_lines_nonneg (lines : list gostring) : (0 ≤ sum_lines lines)%Z.
Proof. apply len_nonneg. Qed.

(** The loop of [convertRowColToIndex] adds up the lines with their
    newlines, as long as the sum fits an [int]. *)
Lemma index_loop (lines : list gostring) (index : Z) :
  (0 ≤ index)%Z → (index + sum_lines lines < 2 ^ 63)%Z →
  foldl (λ index l, int_add index (int_add (len l) 1)) index lines
  = (index + sum_lines lines)%Z.
Proof.
  revert index. induction lines as [|l lines IH]; intros index Hindex Hsum.
  - unfold sum_lines. simpl. lia.
  - rewrite sum_lines_cons in Hsum |- *. cbn [foldl].
    pose proof (len_nonneg l). pose proof (sum_lines_nonneg lines).
    unfold int_add. rewrite (wrap_small (len l + 1)) by lia.
    rewrite wrap_small by lia. rewrite IH by lia. lia.
Qed.

Lemma line_start_bound (lines : list gostring) (row : nat) (line : gostring) :
  lines !! row = Some line →
  (line_start lines row + len line ≤ len (Join lines [newline]))%Z.
Proof.
  unfold line_start. revert row. induction lines as [|l lines IH]; intros row Hrow; [done|].
  destruct row as [|row].
  - injection Hrow as ->. unfold sum_lines. cbn [take fmap list_fmap concat len foldr].
    destruct lines as [|l' lines]; [simpl; lia|].
    change (Join (line :: l' :: lines) [newline])
      with (line ++ [newline] ++ Join (l' :: lines) [newline]).
    rewrite !len_app. pose proof (len_nonneg (Join (l' :: lines) [newline])).
    change (len [newline]) with 1%Z. lia.
  - cbn [take]. rewrite sum_lines_cons. simpl in Hrow.
    destruct lines as [|l' lines]; [done|].
    change (Join (l :: l' :: lines) [newline])
      with (l ++ [newline] ++ Join (l' :: lines) [newline]).
    rewrite !len_app. change (len [newline]) with 1%Z.
    specialize (IH row Hrow). lia.
Qed.

(** The index for the clamped row [row] and column [col]. *)
Lemma convertRowColToIndex_clamped (lines : list gostring) (row col : Z) (line : gostring) :
  (len (Join lines [newline]) < 2 ^ 63)%Z →
  lines !! Z.to_nat (Z.min (Z.max row 0) (Z.of_nat (length lines) - 1)) = Some line →
  convertRowColToIndex lines row col
  = Some (line_start lines (Z.to_nat (Z.min (Z.max row 0) (Z.of_nat (length lines) - 1)))
          + Z.min (Z.max col 0) (len line))%Z.
Proof.
  intros Hfit Hline. unfold convertRowColToIndex.
  set (r := Z.min (Z.max row 0) (Z.of_nat (length lines) - 1)) in *.
  assert (0 ≤ r)%Z.
  { apply lookup_lt_Some in Hline. unfold r in *. lia. }
  destruct (Z.ltb_spec r 0) as [?|_]; [lia|].
  rewrite Hline. cbn [mbind option_bind].
  pose proof (line_start_bound lines (Z.to_nat r) line Hline) as Hbound.
  pose proof (len_nonneg line). pose proof (sum_lines_nonneg (take (Z.to_nat r) lines)).
  unfold line_start in *.
  rewrite index_loop by lia. unfold int_add. rewrite wrap_small by lia.
  f_equal.
Qed.

(** X13: for a position inside the text, [convertRowColToIndex] gives the
    offset at which the line starts plus the column, when the length of
    the text fits an [int]. *)
Theorem convertRowColToIndex_offset (lines : list gostring) (row col : Z) (line : gostring) :
  (len (Join lines [newline]) < 2 ^ 63)%Z →
  (0 ≤ row)%Z → lines !! Z.to_nat row = Some line → (0 ≤ col ≤ len line)%Z →
  convertRowColToIndex lines row col = Some (line_start lines (Z.to_nat row) + col)%Z.
Proof.
  intros Hfit Hrow Hline Hcol.
  assert (Hclamp : Z.min (Z.max row 0) (Z.of_nat (length lines) - 1) = row).
  { apply lookup_lt_Some in Hline. lia. }
  rewrite (convertRowColToIndex_clamped lines row col line Hfit) by (by rewrite Hclamp).
  rewrite Hclamp. f_equal. lia.
Qed.

Lemma convertRowColToIndex_offset_witness :
  convertRowColToIndex [lit "ab"; lit "cde"] 1 2 = Some 5%Z.
Proof.
  apply (convertRowColToIndex_offset [lit "ab"; lit "cde"] 1 2 (lit "cde"));
    [reflexivity | lia | reflexivity | vm_compute; split; discriminate].
Defined.

(** X14: whatever the row and the column, also negative ones and ones
    beyond the end, the index that [convertRowColToIndex] gives lies
    within the text: the position is clamped and no index panics, when
    there is at least one line and the length of the text fits an [int]. *)
Theorem convertRowColToIndex_within (lines : list gostring) (row col : Z) :
  lines ≠ [] → (len (Join lines [newline]) < 2 ^ 63)%Z →
  ∃ index, convertRowColToIndex lines row col = Some index
           ∧ (0 ≤ index ≤ len (Join lines [newline]))%Z.
Proof.
  intros Hne Hfit.
  assert (0 < length lines) by (destruct lines; [done|simpl; lia]).
  destruct (lookup_lt_is_Some_2 lines
    (Z.to_nat (Z.min (Z.max row 0) (Z.of_nat (length lines) - 1)))) as [line Hline]; [lia|].
  rewrite (convertRowColToIndex_clamped lines row col line Hfit Hline).
  eexists. split; [done|].
  pose proof (line_start_bound lines _ line Hline).
  pose proof (len_nonneg line). pose proof (sum_lines_nonneg (take
    (Z.to_nat (Z.min (Z.max row 0) (Z.of_nat (length lines) - 1))) lines)).
  unfold line_start in *. lia.
Qed.

Lemma convertRowColToIndex_within_witness :
  ∃ index, convertRowColToIndex [lit "ab"; lit "cde"] 7 (-3) = Some index
           ∧ (0 ≤ index ≤ len (Join [lit "ab"; lit "cde"] [newline]))%Z.
Proof.
  apply (convertRowColToIndex_within [lit "ab"; lit "cde"] 7 (-3)); [done|reflexivity].
Defined.

(** *** The progress and the text of a formatting request *)

Lemma ReplaceAll_removes (s : gostring) (c : Z) : c ∉ ReplaceAll s [c] [].
Proof.
  rewrite ReplaceAll_rune. intros (x & Hx & _)%list_elem_of_bind.
  destruct (Z.eqb_spec c x) as [->|Hne].
  - by apply not_elem_of_nil in Hx.
  - apply list_elem_of_singleton in Hx. by subst.
Qed.

Section WithEnvironment.

Variable ReadDir : gostring → list DirEntry.
Variable Match : gostring → gostring → bool.
Variable Environ : list gostring.
Variable Output : Cmd → gostring * gostring * option cmdError.

Local Abbreviation format_loop := (format_loop ReadDir Match Environ Output).
Local Abbreviation RunAllFormatters := (RunAllFormatters ReadDir Match Environ Output).

Lemma format_loop_no_carriage_return (h : LangHandler) (f : fileRef) (rng : option Range)
    (options : gmap gostring optionValue) (configs : list Language) :
  ∀ st st',
    format_loop h f rng options configs st = Some st' →
    (formatted st = true → 13%Z ∉ formattedText st) →
    formatted st' = true → 13%Z ∉ formattedText st'.
Proof.
  induction configs as [|config configs IH]; intros st st' Hloop Hst.
  - injection Hloop as <-. exact Hst.
  - cbn [Format.format_loop] in Hloop.
    rewrite (formatDocument_formatter_output ReadDir Match Environ Output) in Hloop.
    cbn [mbind option_bind] in Hloop.
    destruct (formatter_output _ _ _ _ _ _ _ _ _ _) as [stdout|err].
    + apply (IH _ _ Hloop). intros _. apply (ReplaceAll_removes stdout 13).
    + apply (IH _ _ Hloop). exact Hst.
Qed.

(** X15: [RunAllFormatters] never panics, and its result and what it sends
    on [progress] are these.  For an unknown document: the error, nothing
    sent.  With no config selected: no edits and no error, nothing sent.
    With a config selected: when every formatter of the chain failed, the
    aggregated error and the begin message alone, without an end message;
    when a formatter succeeded, the edits to the final text and the begin
    message followed by the end message, also when the edits are none. *)
Theorem RunAllFormatters_progress (h : LangHandler) (progressToken : gostring)
    (uri : DocumentURI) (rng : option Range) (options : gmap gostring optionValue) :
  is_Some (RunAllFormatters h progressToken uri rng options)
  ∧ (files h !! uri = None →
     RunAllFormatters h progressToken uri rng options
     = Some (inr (ErrDocumentNotFound uri), []))
  ∧ (∀ f, files h !! uri = Some f →
          getFormatConfigsForDocument ReadDir Match (NormalizedFilename f) (LanguageID f)
            (configs h) = [] →
          RunAllFormatters h progressToken uri rng options = Some (inl [], []))
  ∧ (∀ f final errs successes,
       files h !! uri = Some f →
       getFormatConfigsForDocument ReadDir Match (NormalizedFilename f) (LanguageID f)
         (configs h) ≠ [] →
       chained ReadDir Match Environ Output h f rng options
         (getFormatConfigsForDocument ReadDir Match (NormalizedFilename f) (LanguageID f)
            (configs h))
         (Text f) final errs successes →
       RunAllFormatters h progressToken uri rng options
       = Some (if decide (successes = 0)
               then (inr (ErrCouldNotFormat (LanguageID f) errs),
                     [progress_begin progressToken])
               else (inl (ComputeEdits uri (Text f) final),
                     [progress_begin progressToken; progress_end progressToken]))).
Proof.
  unfold Format.RunAllFormatters. split_and!.
  - destruct (files h !! uri) as [f|]; [|done]. case_bool_decide; [done|].
    destruct (format_loop_chained ReadDir Match Environ Output h f rng options
      (getFormatConfigsForDocument ReadDir Match (NormalizedFilename f) (LanguageID f)
         (configs h))
      {| formattedText := Text f; formatted := false; errors := [] |})
      as (final & errs & successes & _ & ->).
    cbn [mbind option_bind]. by destruct (negb _).
  - by intros ->.
  - intros f -> ->. done.
  - intros f final errs successes -> Hcfg Hchain.
    rewrite bool_decide_eq_false_2 by (by intros ?%nil_length_inv).
    destruct (format_loop_chained ReadDir Match Environ Output h f rng options
      (getFormatConfigsForDocument ReadDir Match (NormalizedFilename f) (LanguageID f)
         (configs h))
      {| formattedText := Text f; formatted := false; errors := [] |})
      as (final' & errs' & successes' & Hchain' & ->).
    destruct (chained_functional ReadDir Match Environ Output _ _ _ _ _ _ _ _ _ _ _ _
      Hchain Hchain') as (-> & -> & ->).
    cbn [mbind option_bind formatted errors formattedText]. by destruct successes'.
Qed.

(** X16: when [RunAllFormatters] returns the edits of a run, the text
    these edits lead to, the output of the last formatter that succeeded,
    holds no carriage return. *)
Theorem RunAllFormatters_no_carriage_return (h : LangHandler) (progressToken : gostring)
    (uri : DocumentURI) (rng : option Range) (options : gmap gostring optionValue)
    (f : fileRef) (edits : list TextEdit) (progress : list ProgressParams) :
  files h !! uri = Some f →
  RunAllFormatters h progressToken uri rng options = Some (inl edits, progress) →
  progress ≠ [] →
  ∃ final, (13%Z ∉ final) ∧ edits = ComputeEdits uri (Text f) final.
Proof.
  intros Hf Hrun Hprogress. unfold Format.RunAllFormatters in Hrun. rewrite Hf in Hrun.
  case_bool_decide; [by simplify_eq|].
  destruct (format_loop _ _ _ _ _ _) as [st|] eqn:Hloop; [|done].
  cbn [mbind option_bind] in Hrun.
  destruct (formatted st) eqn:Hformatted; [|done]. cbn [negb] in Hrun.
  exists (formattedText st). split; [|by simplify_eq].
  by apply (format_loop_no_carriage_return _ _ _ _ _ _ _ Hloop).
Qed.

End WithEnvironment.

Lemma RunAllFormatters_progress_witness :
  RunAllFormatters no_entries no_match [] copy_stdin cat_handler (lit "token") uri_a None ∅
  = Some (inl (ComputeEdits uri_a (lit "hello") (lit "hello")),
          [progress_begin (lit "token"); progress_end (lit "token")])
  ∧ ComputeEdits uri_a (lit "hello") (lit "hello") = [].
Proof.
  split; [|vm_compute; reflexivity].
  refine (proj2 (proj2 (proj2 (RunAllFormatters_progress no_entries no_match [] copy_stdin
    cat_handler (lit "token") uri_a None ∅))) hello_file (lit "hello") [] 1 _ _ _).
  - vm_compute. reflexivity.
  - vm_compute. discriminate.
  - eapply (chained_success _ _ _ _ _ _ _ _ cat_config [] (lit "hello") (lit "cat")
              (lit "hello") [] (lit "hello") [] 0).
    + vm_compute. reflexivity.
    + vm_compute. reflexivity.
    + apply chained_done.
Defined.

Lemma RunAllFormatters_no_carriage_return_witness :
  ∃ final, (13%Z ∉ final) ∧ [] = ComputeEdits uri_a (Text hello_file) final.
Proof.
  apply (RunAllFormatters_no_carriage_return no_entries no_match [] copy_stdin cat_handler
           (lit "token") uri_a None ∅ hello_file []
           [progress_begin (lit "token"); progress_end (lit "token")]);
    [reflexivity | vm_compute; reflexivity | discriminate].
Defined.

End FormatMore.

(** ** Linting, continued *)

Module LintMore.
Import strings filepath Root Store Command Lint Account.
Import LintFacts.

Section WithEnvironment.

Variable ReadDir : gostring → list DirEntry.
Variable Match : gostring → gostring → bool.
Variable Environ : list gostring.
Variable CombinedOutput : Cmd → gostring * option cmdError.
Variable NewErrorformat : list gostring → option (gostring → list errorformat.Entry).
Variable ParseLocalFileToURI : gostring → DocumentURI.
Variable WordAtUtf16 : gostring → Position → list Z.

Local Abbreviation step :=
  (RunAllLinters_steps ReadDir Match Environ CombinedOutput NewErrorformat
     ParseLocalFileToURI WordAtUtf16).
Local Abbreviation enter := (RunAllLinters_enter ReadDir Match).
Local Abbreviation selected := (getLintConfigsForDocument ReadDir Match).

Lemma accounted_step (h : LangHandler) (progressToken : gostring) (uri : DocumentURI)
    (f : fileRef) (configs : list Language) (r r' : run) :
  files h !! uri = Some f →
  accounted progressToken uri f configs r → step h progressToken uri r r' →
  accounted progressToken uri f configs r'.
Proof.
  intros Hf [Hall Hinv] [pick Hstep]. unfold RunAllLinters_step in Hstep.
  rewrite Hf in Hstep. cbn [mbind option_bind] in Hstep. unfold accounted in *.
  destruct (at_ r) as [cfgs|cfgs|pending|err|] eqn:Hat; try done.
  - destruct Hinv as (-> & Hd & He & Hp). injection Hstep as <-. cbn.
    rewrite Hd. split; [by repeat constructor|done].
  - destruct Hinv as (-> & Hd & He & Hp). injection Hstep as <-. cbn.
    rewrite He, Hp. split; [done|]. split; [simpl; lia|done].
  - destruct Hinv as [Hcount Hp]. destruct pending as [|cfg pending].
    + injection Hstep as <-. cbn. rewrite Hp. split; [done|].
      split_and!; [done|simpl in Hcount; lia|done].
    + destruct ((cfg :: pending) !! pick) as [config|] eqn:Hpick; [|done].
      cbn [mbind option_bind] in Hstep.
      pose proof (length_delete (cfg :: pending) pick (mk_is_Some _ _ Hpick)) as Hdel.
      cbn [length] in Hdel, Hcount.
      destruct (lintDocument _ _ _ _ _ _ _ _) as [[diagnostics|err]|];
        injection Hstep as <-; cbn.
      * split; [apply Forall_app; split; [done|by repeat constructor]|].
        rewrite length_app. cbn [length]. split; [lia|done].
      * split; [done|]. rewrite length_app. cbn [length]. split; [lia|done].
      * done.
Qed.

Lemma accounted_reachable (h : LangHandler) (progressToken : gostring) (uri : DocumentURI)
    (eventType : EventType) (f : fileRef) (r : run) :
  files h !! uri = Some f →
  selected (NormalizedFilename f) (LanguageID f) (configs h) eventType ≠ [] →
  rtc (step h progressToken uri) (enter h uri eventType) r →
  accounted progressToken uri f
    (selected (NormalizedFilename f) (LanguageID f) (configs h) eventType) r.
Proof.
  intros Hf Hcfg Hrun. revert r Hrun. apply rtc_ind_r.
  - unfold accounted, RunAllLinters_enter. rewrite Hf. cbn.
    rewrite bool_decide_eq_false_2; [done|].
    intros Hlen. by apply nil_length_inv in Hlen.
  - intros r1 r2 _ Hstep IH. by eapply accounted_step.
Qed.

(** X17: when a run of [RunAllLinters] that selected n configs returns,
    whatever the order in which the linters finished, it returns no error,
    the diagnostics and the errors channels together got n + 1 messages
    (the reset and one per linter), the progress channel got the begin and
    then the end message, and every message of the diagnostics channel is
    for the requested URI with the version of the stored document. *)
Theorem RunAllLinters_accounts (h : LangHandler) (progressToken : gostring)
    (uri : DocumentURI) (eventType : EventType) (f : fileRef) (r : run)
    (err : option error) :
  files h !! uri = Some f →
  selected (NormalizedFilename f) (LanguageID f) (configs h) eventType ≠ [] →
  rtc (step h progressToken uri) (enter h uri eventType) r →
  at_ r = Returned err →
  err = None
  ∧ length (diagnosticsOut r) + length (errorsOut r)
    = 1 + length (selected (NormalizedFilename f) (LanguageID f) (configs h) eventType)
  ∧ progress r = [lint_begin progressToken; lint_end progressToken]
  ∧ Forall (λ m, URI m = uri ∧ PVersion m = Version f) (diagnosticsOut r).
Proof.
  intros Hf Hcfg Hrun Hat.
  destruct (accounted_reachable h progressToken uri eventType f r Hf Hcfg Hrun)
    as [Hall Hinv].
  rewrite Hat in Hinv. destruct Hinv as (-> & Hcount & Hp). done.
Qed.

Lemma remaining_step (h : LangHandler) (progressToken : gostring) (uri : DocumentURI)
    (r r' : run) :
  step h progressToken uri r r' → remaining r' < remaining r.
Proof.
  intros [pick Hstep]. unfold RunAllLinters_step in Hstep.
  destruct (files h !! uri) as [f|]; [|done]. cbn [mbind option_bind] in Hstep.
  unfold remaining. destruct (at_ r) as [cfgs|cfgs|pending|err|]; try done.
  - injection Hstep as <-. cbn [at_]. lia.
  - injection Hstep as <-. cbn [at_]. lia.
  - destruct pending as [|cfg pending]; [injection Hstep as <-; cbn [at_ length]; lia|].
    destruct ((cfg :: pending) !! pick) as [config|] eqn:Hpick; [|done].
    cbn [mbind option_bind] in Hstep.
    pose proof (length_delete (cfg :: pending) pick (mk_is_Some _ _ Hpick)) as Hdel.
    cbn [length] in Hdel.
    destruct (lintDocument _ _ _ _ _ _ _ _) as [[diagnostics|err]|];
      injection Hstep as <-; cbn [at_ length]; lia.
Qed.

Lemma remaining_nsteps (h : LangHandler) (progressToken : gostring) (uri : DocumentURI)
    (k : nat) (r r' : run) :
  nsteps (step h progressToken uri) k r r' → k + remaining r' ≤ remaining r.
Proof.
  induction 1 as [|k r1 r2 r3 Hstep _ IH]; [simpl; lia|].
  apply remaining_step in Hstep. lia.
Qed.

(** A step is one send, unless it is the panic of a linter. *)
Lemma sent_step (h : LangHandler) (progressToken : gostring) (uri : DocumentURI)
    (r r' : run) :
  step h progressToken uri r r' →
  panicked r = false
  ∧ ((panicked r' = true ∧ sent r' = sent r) ∨ (panicked r' = false ∧ sent r' = S (sent r))).
Proof.
  intros [pick Hstep]. unfold RunAllLinters_step in Hstep.
  destruct (files h !! uri) as [f|]; [|done]. cbn [mbind option_bind] in Hstep.
  unfold panicked, sent.
  destruct (at_ r) as [cfgs|cfgs|[|cfg pending]|err|]; try done.
  - injection Hstep as <-. cbn. rewrite length_app. cbn. split; [done|right]. split; [done|lia].
  - injection Hstep as <-. cbn. rewrite length_app. cbn. split; [done|right]. split; [done|lia].
  - injection Hstep as <-. cbn. rewrite length_app. cbn. split; [done|right]. split; [done|lia].
  - destruct ((cfg :: pending) !! pick) as [config|]; [|done].
    cbn [mbind option_bind] in Hstep.
    destruct (lintDocument _ _ _ _ _ _ _ _) as [[diagnostics|err]|];
      injection Hstep as <-; cbn [at_ diagnosticsOut errorsOut progress];
      rewrite ?length_app; cbn [length]; (split; [done|]); [right|right|left];
      (split; [done|lia]).
Qed.

Lemma sent_nsteps (h : LangHandler) (progressToken : gostring) (uri : DocumentURI)
    (k : nat) (r r' : run) :
  nsteps (step h progressToken uri) k r r' → panicked r' = false → sent r' = k + sent r.
Proof.
  induction 1 as [|k r1 r2 r3 Hstep Hrest IH]; [done|]. intros Hcalm.
  destruct (sent_step _ _ _ _ _ Hstep) as [_ [[Hpanic _]|[_ Hsent]]].
  - inversion Hrest as [|k' ? r4 ? Hnext _]; subst; [congruence|].
    destruct (sent_step _ _ _ _ _ Hnext) as [Hfalse _]. congruence.
  - rewrite (IH Hcalm), Hsent. lia.
Qed.

(** X18: a run of [RunAllLinters] over a known document always ends and
    never gets stuck.  With n configs selected it makes at most n + 3
    steps; every step is one send on one of the three channels, or the
    panic of a linter, so a run that has not panicked has sent as many
    messages as it made steps; and as long as the run has neither returned
    nor panicked, a step is possible. *)
Theorem RunAllLinters_ends (h : LangHandler) (progressToken : gostring)
    (uri : DocumentURI) (eventType : EventType) (f : fileRef) (k : nat) (r : run) :
  files h !! uri = Some f →
  nsteps (step h progressToken uri) k (enter h uri eventType) r →
  k ≤ 3 + length (selected (NormalizedFilename f) (LanguageID f) (configs h) eventType)
  ∧ (panicked r = false → sent r = k)
  ∧ (0 < remaining r →
     ∃ r', step h progressToken uri r r'
           ∧ (panicked r' = true ∨ sent r' = S (sent r))).
Proof.
  intros Hf Hrun. split_and!.
  - apply remaining_nsteps in Hrun. unfold remaining at 1, RunAllLinters_enter in Hrun.
    rewrite Hf in Hrun. cbn in Hrun. case_bool_decide; cbn in Hrun; lia.
  - intros Hcalm. rewrite (sent_nsteps _ _ _ _ _ _ Hrun Hcalm). unfold sent. cbn. lia.
  - intros Hrem.
    assert (Hstep : ∃ r', step h progressToken uri r r').
    { unfold RunAllLinters_steps, RunAllLinters_step. rewrite Hf.
      cbn [mbind option_bind]. unfold remaining in Hrem.
      destruct (at_ r) as [cfgs|cfgs|[|cfg pending]|err|]; try (by eexists _, 0); try lia.
      exists (default r (RunAllLinters_step ReadDir Match Environ CombinedOutput
        NewErrorformat ParseLocalFileToURI WordAtUtf16 h progressToken uri 0
        {| diagnosticsOut := diagnosticsOut r; errorsOut := errorsOut r;
           progress := progress r; at_ := Waiting (cfg :: pending) |})), 0.
      unfold RunAllLinters_step. rewrite Hf. cbn.
      by destruct (lintDocument _ _ _ _ _ _ _ _) as [[diagnostics|err]|]. }
    destruct Hstep as [r' Hstep]. exists r'. split; [done|].
    destruct (sent_step _ _ _ _ _ Hstep) as [_ [[? _]|[_ ?]]]; [by left|by right].
Qed.

Lemma parseEfmEntryToDiagnostic_total (entry : errorformat.Entry) (config : Language)
    (f : fileRef) :
  LintCategoryMap config = ∅ →
  is_Some (parseEfmEntryToDiagnostic WordAtUtf16 entry config f).
Proof.
  intros Hmap. unfold parseEfmEntryToDiagnostic. rewrite Hmap, getSeverity_no_map.
  by destruct (negb (errorformat.Col entry =? 0)%Z), (negb (errorformat.EndCol entry =? 0)%Z).
Qed.

Lemma scan_entries_total (rootPath : gostring) (f : fileRef) (config : Language)
    (entries : list errorformat.Entry) :
  LintCategoryMap config = ∅ →
  ∀ diagnostics,
    is_Some (scan_entries ParseLocalFileToURI WordAtUtf16 rootPath f config entries
               diagnostics).
Proof.
  intros Hmap. induction entries as [|entry entries IH]; intros diagnostics; [by eexists|].
  cbn [scan_entries]. destruct (negb (errorformat.Valid entry)); [apply IH|].
  destruct (negb (isEntryForRequestedURI _ _ _ _)); [apply IH|].
  destruct (parseEfmEntryToDiagnostic_total
    (with_filename entry
       (replaceStdinInEntryFilename (errorformat.Filename entry) config (NormalizedFilename f)))
    config f Hmap) as [d Hd].
  unfold with_filename in Hd. rewrite Hd. apply IH.
Qed.

Lemma lintDocument_total (rootPath : gostring) (f : fileRef) (config : Language) :
  LintCategoryMap config = ∅ →
  is_Some (lintDocument Environ CombinedOutput NewErrorformat ParseLocalFileToURI
             WordAtUtf16 rootPath f config).
Proof.
  intros Hmap. unfold lintDocument.
  destruct (runLintCommand _ _) as [lintOutput [err|]]; [by eexists|].
  destruct (buildErrorformats _ _) as [efms|err]; [|by eexists].
  destruct (scan_entries_total rootPath f config (efms (default [] lintOutput)) Hmap [])
    as [ds ->].
  by eexists.
Qed.

Lemma calm_step (h : LangHandler) (progressToken : gostring) (uri : DocumentURI)
    (r r' : run) :
  Forall (λ config, LintCategoryMap config = ∅) (to_lint r) →
  step h progressToken uri r r' →
  Forall (λ config, LintCategoryMap config = ∅) (to_lint r') ∧ panicked r' = false.
Proof.
  intros Hall [pick Hstep]. unfold RunAllLinters_step in Hstep.
  destruct (files h !! uri) as [f|]; [|done]. cbn [mbind option_bind] in Hstep.
  unfold to_lint, panicked in *.
  destruct (at_ r) as [cfgs|cfgs|pending|err|]; try done.
  - by injection Hstep as <-.
  - by injection Hstep as <-.
  - destruct pending as [|cfg pending]; [by injection Hstep as <-|].
    destruct ((cfg :: pending) !! pick) as [config|] eqn:Hpick; [|done].
    cbn [mbind option_bind] in Hstep.
    pose proof (Forall_delete _ _ pick Hall) as Hdel.
    destruct (lintDocument_total (findRootPath ReadDir Match h (NormalizedFilename f) config)
      f config) as [res Hres].
    { by apply (proj1 (Forall_lookup _ _) Hall pick). }
    rewrite Hres in Hstep. destruct res as [diagnostics|err]; by injection Hstep as <-.
Qed.

(** X19: when every selected config has an empty category map, no run of
    [RunAllLinters] panics, whatever the linters print and in whatever
    order they finish. *)
Theorem RunAllLinters_no_panic (h : LangHandler) (progressToken : gostring)
    (uri : DocumentURI) (eventType : EventType) (f : fileRef) (r : run) :
  files h !! uri = Some f →
  Forall (λ config, LintCategoryMap config = ∅)
    (selected (NormalizedFilename f) (LanguageID f) (configs h) eventType) →
  rtc (step h progressToken uri) (enter h uri eventType) r →
  panicked r = false.
Proof.
  intros Hf Hall Hrun.
  enough (Forall (λ config, LintCategoryMap config = ∅) (to_lint r) ∧ panicked r = false)
    as [_ H] by exact H.
  revert r Hrun. apply rtc_ind_r.
  - unfold to_lint, panicked, RunAllLinters_enter. rewrite Hf. cbn [at_].
    by case_bool_decide.
  - intros r1 r2 _ Hstep [IH _]. by eapply calm_step.
Qed.

(** X20: for a linter that reads its standard input, a valid entry whose
    file name is one of the stdin placeholders is an entry of the linted
    document: the scan does not skip it and makes its diagnostic with the
    file name of the document, provided that this file name is absolute
    and maps back to the URI of the document. *)
Theorem scan_entries_stdin (rootPath : gostring) (f : fileRef) (config : Language)
    (entry : errorformat.Entry) (entries : list errorformat.Entry)
    (diagnostics : list Diagnostic) :
  LintStdin config = true →
  errorformat.Valid entry = true →
  isStdinPlaceholder (errorformat.Filename entry) = true →
  IsAbs (NormalizedFilename f) = true →
  ParseLocalFileToURI (NormalizedFilename f) = Uri f →
  scan_entries ParseLocalFileToURI WordAtUtf16 rootPath f config (entry :: entries)
    diagnostics
  = diagnostic ← parseEfmEntryToDiagnostic WordAtUtf16
                   (with_filename entry (NormalizedFilename f)) config f;
    scan_entries ParseLocalFileToURI WordAtUtf16 rootPath f config entries
      (diagnostics ++ [diagnostic]).
Proof.
  intros Hstdin Hvalid Hname Habs Huri.
  assert (Hfor : isEntryForRequestedURI ParseLocalFileToURI rootPath (Uri f)
                   (with_filename entry (NormalizedFilename f)) = true).
  { unfold isEntryForRequestedURI, with_filename. cbn [errorformat.Filename].
    rewrite Habs, Huri. unfold comparePaths, eqb.
    rewrite (bool_decide_eq_true_2 (Uri f = Uri f)) by done. by case_bool_decide. }
  cbn [scan_entries]. unfold replaceStdinInEntryFilename, ToSlash, with_filename in *.
  rewrite Hstdin, Hname. cbn [andb]. rewrite Hvalid in Hfor |- *. cbn [negb].
  by rewrite Hfor.
Qed.

End WithEnvironment.

Lemma RunAllLinters_accounts_witness :
  let r := RunAllLinters_play empty_dir literal_match [] silent_linter one_entry uri_of_path
             no_word handler_a (lit "token") uri_a [0; 0; 0; 0]
             (RunAllLinters_enter empty_dir literal_match handler_a uri_a EventTypeChange) in
  length (diagnosticsOut r) + length (errorsOut r) = 2
  ∧ progress r = [lint_begin (lit "token"); lint_end (lit "token")].
Proof.
  destruct (RunAllLinters_accounts empty_dir literal_match [] silent_linter one_entry
    uri_of_path no_word handler_a (lit "token") uri_a EventTypeChange file_a
    (RunAllLinters_play empty_dir literal_match [] silent_linter one_entry uri_of_path
       no_word handler_a (lit "token") uri_a [0; 0; 0; 0]
       (RunAllLinters_enter empty_dir literal_match handler_a uri_a EventTypeChange))
    None) as (_ & Hcount & Hprogress & _).
  - vm_compute. reflexivity.
  - vm_compute. discriminate.
  - apply RunAllLinters_play_reachable.
  - vm_compute. reflexivity.
  - split; [exact Hcount|exact Hprogress].
Defined.

Lemma RunAllLinters_ends_witness :
  let r := RunAllLinters_play empty_dir literal_match [] silent_linter one_entry uri_of_path
             no_word handler_a (lit "token") uri_a [0; 0; 0; 0]
             (RunAllLinters_enter empty_dir literal_match handler_a uri_a EventTypeChange) in
  4 ≤ 3 + length (getLintConfigsForDocument empty_dir literal_match
                    (NormalizedFilename file_a) (LanguageID file_a) (configs handler_a)
                    EventTypeChange)
  ∧ sent r = 4
  ∧ remaining r = 0.
Proof.
  cbv zeta.
  destruct (RunAllLinters_ends empty_dir literal_match [] silent_linter one_entry
    uri_of_path no_word handler_a (lit "token") uri_a EventTypeChange file_a 4
    (RunAllLinters_play empty_dir literal_match [] silent_linter one_entry uri_of_path
       no_word handler_a (lit "token") uri_a [0; 0; 0; 0]
       (RunAllLinters_enter empty_dir literal_match handler_a uri_a EventTypeChange)))
    as (Hbound & Hsent & _).
  - vm_compute. reflexivity.
  - do 4 (eapply nsteps_l; [exists 0; vm_compute; reflexivity|]). apply nsteps_O.
  - split; [exact Hbound|]. split; [apply Hsent; vm_compute; reflexivity|].
    vm_compute. reflexivity.
Defined.

Lemma RunAllLinters_no_panic_witness :
  panicked
    (RunAllLinters_play empty_dir literal_match [] silent_linter one_entry uri_of_path
       no_word handler_a (lit "token") uri_a [0; 0; 0; 0]
       (RunAllLinters_enter empty_dir literal_match handler_a uri_a EventTypeChange))
  = false.
Proof.
  apply (RunAllLinters_no_panic empty_dir literal_match [] silent_linter one_entry
    uri_of_path no_word handler_a (lit "token") uri_a EventTypeChange file_a).
  - vm_compute. reflexivity.
  - repeat constructor.
  - apply RunAllLinters_play_reachable.
Defined.

Lemma scan_entries_stdin_witness :
  scan_entries uri_of_path no_word (lit "/") file_a plain_config [stdin_entry] []
  = diagnostic ← parseEfmEntryToDiagnostic no_word
                   (with_filename stdin_entry (NormalizedFilename file_a)) plain_config file_a;
    Some [diagnostic].
Proof.
  apply (scan_entries_stdin uri_of_path no_word (lit "/") file_a plain_config stdin_entry [] []);
    reflexivity.
Defined.

End LintMore.

(** ** Closed documents *)

Module SessionFacts.
Import strings filepath Root Store Command Lint Diff Format.

(** X21: once a document is closed it is unknown to every request:
    [UpdateFile] fails and changes nothing, [RunAllFormatters] fails
    without a progress message, and [RunAllLinters] returns its error
    before anything is sent. *)
Theorem CloseFile_forgets (ReadDir : gostring → list DirEntry)
    (Match : gostring → gostring → bool) (Environ : list gostring)
    (Output : Cmd → gostring * gostring * option cmdError)
    (h : LangHandler) (uri : DocumentURI) (text : gostring) (version : option Z)
    (progressToken : gostring) (rng : option Range) (options : gmap gostring optionValue)
    (eventType : EventType) :
  UpdateFile (CloseFile h uri).1 uri text version
    = ((CloseFile h uri).1, Some (Store.ErrDocumentNotFound uri))
  ∧ RunAllFormatters ReadDir Match Environ Output (CloseFile h uri).1 progressToken uri rng
      options
    = Some (inr (Format.ErrDocumentNotFound uri), [])
  ∧ RunAllLinters_enter ReadDir Match (CloseFile h uri).1 uri eventType
    = {| diagnosticsOut := []; errorsOut := []; progress := [];
         at_ := Returned (Some (Lint.ErrDocumentNotFound uri)) |}.
Proof.
  assert (Hgone : files (CloseFile h uri).1 !! uri = None) by apply lookup_delete_eq.
  unfold UpdateFile, RunAllFormatters, RunAllLinters_enter. by rewrite !Hgone.
Qed.

End SessionFacts.

(** ** The lint scheduler, continued *)

Module SchedulerMore.
Import Store Scheduler Spacing.

Lemma play_spaced (calls : list (Z * DocumentURI * EventType)) :
  ∀ (s : server) (tm : Timer),
    (0 ≤ lintDebounce (handler s))%Z →
    lintTimer (handler s) = Some tm →
    (now s ≤ deadline tm)%Z →
    spaced (lintDebounce (handler s)) (deadline tm) calls →
    dispatched (settle (play calls s))
    = dispatched s ++ (deadline tm, closure_uri tm, closure_eventType tm)
        :: (delayed (lintDebounce (handler s)) <$> calls).
Proof.
  induction calls as [|[[t uri] eventType] calls IH]; intros s tm Hd Htm Hnow Hsp.
  - cbn [play]. unfold settle, advance, fire. rewrite Htm, Z.leb_refl. cbn.
    by rewrite Z.max_r by lia.
  - destruct Hsp as [Ht Hsp]. cbn [play].
    set (s1 := ScheduleLinting (advance s t) uri eventType).
    assert (Hs1 : handler s1 =
              {| lintTimer := Some {| deadline := t + lintDebounce (handler s);
                                      closure_uri := uri; closure_eventType := eventType |};
                 lintDebounce := lintDebounce (handler s) |}
            ∧ now s1 = t
            ∧ dispatched s1
              = dispatched s ++ [(deadline tm, closure_uri tm, closure_eventType tm)]).
    { unfold s1, ScheduleLinting, advance, fire. rewrite Htm.
      destruct (Z.leb_spec (deadline tm) t) as [_|?]; [|lia]. cbn.
      rewrite (Z.max_r (now s)) by lia. by rewrite Z.max_r by lia. }
    destruct Hs1 as (Hh & Hn & Hdis).
    rewrite (IH s1 {| deadline := t + lintDebounce (handler s); closure_uri := uri;
                      closure_eventType := eventType |}).
    + rewrite Hdis, Hh. cbn. by rewrite <- app_assoc.
    + by rewrite Hh.
    + by rewrite Hh.
    + rewrite Hn. cbn. lia.
    + rewrite Hh. exact Hsp.
Qed.

(** X22: calls of [ScheduleLinting] that each come at least the debounce
    after the one before are not coalesced: every call leads to a lint
    run of its own document and event, one debounce after the call. *)
Theorem ScheduleLinting_spaced (debounce : Z) (calls : list (Z * DocumentURI * EventType)) :
  (0 ≤ debounce)%Z → spaced debounce 0 calls →
  lint_runs debounce calls = delayed debounce <$> calls.
Proof.
  intros Hd Hsp. unfold lint_runs.
  destruct calls as [|[[t uri] eventType] calls]; [done|].
  destruct Hsp as [Ht Hsp]. cbn [play].
  rewrite (play_spaced calls _ {| deadline := t + debounce; closure_uri := uri;
                                  closure_eventType := eventType |}).
  - done.
  - done.
  - cbn. do 2 f_equal. lia.
  - cbn. lia.
  - exact Hsp.
Qed.

Lemma ScheduleLinting_spaced_witness :
  lint_runs 10 [(0%Z, uri_a, EventTypeChange); (10%Z, uri_b, EventTypeSave)]
  = [(10%Z, uri_a, EventTypeChange); (20%Z, uri_b, EventTypeSave)].
Proof.
  apply (ScheduleLinting_spaced 10 [(0%Z, uri_a, EventTypeChange); (10%Z, uri_b, EventTypeSave)]);
    [lia|simpl; lia].
Defined.

(** *** The runs that are cancelled *)

Lemma supervised_ext (s s' : server) :
  dispatched s' = dispatched s → running s' = running s → cancelled s' = cancelled s →
  supervised s → supervised s'.
Proof.
  unfold supervised, latest, superseded. intros -> -> ->. done.
Qed.

Lemma later_or_latest (l : list (Z * DocumentURI * EventType)) (u : DocumentURI) (i : nat)
    (x : Z * DocumentURI * EventType) :
  l !! i = Some x →
  (∃ j y, i < j ∧ l !! j = Some y ∧ run_uri y = u)
  ∨ (∀ j y, i < j → l !! j = Some y → run_uri y ≠ u).
Proof.
  intros Hx.
  destruct (decide (Exists (λ y, run_uri y = u) (drop (S i) l))) as [Hex|Hno].
  - left. apply Exists_exists in Hex as (y & Hy & Hu).
    apply list_elem_of_lookup in Hy as [k Hk]. rewrite lookup_drop in Hk.
    exists (S i + k), y. split; [lia|done].
  - right. intros j y Hj Hy Hu. apply Hno, Exists_exists. exists y. split; [|done].
    apply list_elem_of_lookup. exists (j - S i). rewrite lookup_drop.
    by replace (S i + (j - S i)) with j by lia.
Qed.

Lemma supervised_fire (s : server) (t : Timer) : supervised s → supervised (fire s t).
Proof.
  intros [Hrun Hcan]. unfold supervised, latest, superseded in *. cbn [fire dispatched running cancelled].
  set (l := dispatched s) in *. set (u := closure_uri t).
  set (e := (now s, u, closure_eventType t)).
  assert (He : run_uri e = u) by done.
  split.
  - intros uri i. destruct (decide (uri = u)) as [->|Hne].
    + rewrite lookup_insert_eq. split.
      * intros [= <-]. split.
        -- exists e. split; [|done]. apply lookup_snoc_Some. by right.
        -- intros j y Hj [[Hlt _]|[-> _]]%lookup_snoc_Some; lia.
      * intros [(x & [[Hlt Hx]|[-> _]]%lookup_snoc_Some & Hu) Hlater]; [|done].
        exfalso. apply (Hlater (length l) e); [done| |done].
        apply lookup_snoc_Some. by right.
    + rewrite lookup_insert_ne by done. rewrite Hrun. split.
      * intros [(x & Hx & Hu) Hlater]. split.
        -- exists x. split; [|done]. apply lookup_snoc_Some. left.
           split; [by eapply lookup_lt_Some|done].
        -- intros j y Hj [[_ Hy]|[_ <-]]%lookup_snoc_Some; [by eapply Hlater|].
           by rewrite He.
      * intros [(x & [[_ Hx]|[_ <-]]%lookup_snoc_Some & Hu) Hlater]; [|by rewrite He in Hu].
        split; [by exists x|]. intros j y Hj Hy. apply (Hlater j y Hj).
        apply lookup_snoc_Some. left. split; [by eapply lookup_lt_Some|done].
  - intros i.
    assert (Hin : i ∈ match running s !! u with
                      | Some previous => cancelled s ++ [previous]
                      | None => cancelled s
                      end ↔ i ∈ cancelled s ∨ running s !! u = Some i).
    { destruct (running s !! u) as [previous|].
      - rewrite elem_of_app, list_elem_of_singleton.
        split; (intros [?|?]; [by left|right; congruence]).
      - split; [auto|]. by intros [?|?]. }
    rewrite Hin, Hcan, Hrun. split.
    + intros [(j & x & y & Hj & Hx & Hy & Huri)|[(x & Hx & Hu) _]].
      * exists j, x, y. split; [done|].
        split; [apply lookup_snoc_Some; left; split; [by eapply lookup_lt_Some|done]|].
        split; [apply lookup_snoc_Some; left; split; [by eapply lookup_lt_Some|done]|done].
      * exists (length l), x, e. split; [by eapply lookup_lt_Some|].
        split; [apply lookup_snoc_Some; left; split; [by eapply lookup_lt_Some|done]|].
        split; [apply lookup_snoc_Some; by right|]. by rewrite He.
    + intros (j & x & y & Hj & [[Hlt Hx]|[-> _]]%lookup_snoc_Some & Hy & Huri).
      * apply lookup_snoc_Some in Hy as [[_ Hy]|[_ <-]].
        -- left. by exists j, x, y.
        -- rewrite He in Huri.
           destruct (later_or_latest l u i x Hx) as [(k & z & Hk & Hz & Hzu)|Hlast].
           ++ left. exists k, x, z. split_and!; [done..|congruence].
           ++ right. split; [by exists x|done].
      * apply lookup_snoc_Some in Hy as [[Hlt _]|[-> _]]; lia.
Qed.

Lemma supervised_advance (s : server) (t : Z) : supervised s → supervised (advance s t).
Proof.
  intros Hs. unfold advance. destruct (lintTimer (handler s)) as [tm|].
  - destruct (deadline tm <=? t)%Z.
    + eapply supervised_ext; [reflexivity..|]. apply supervised_fire.
      by eapply supervised_ext.
    + by eapply supervised_ext.
  - by eapply supervised_ext.
Qed.

Lemma supervised_ScheduleLinting (s : server) (uri : DocumentURI) (eventType : EventType) :
  supervised s → supervised (ScheduleLinting s uri eventType).
Proof.
  intros Hs. unfold ScheduleLinting.
  destruct (lintTimer (handler s)); by eapply supervised_ext.
Qed.

Lemma supervised_play (calls : list (Z * DocumentURI * EventType)) (s : server) :
  supervised s → supervised (play calls s).
Proof.
  revert s. induction calls as [|[[t uri] eventType] calls IH]; intros s Hs; [done|].
  cbn [play]. by apply IH, supervised_ScheduleLinting, supervised_advance.
Qed.

(** X23: whatever the calls of [ScheduleLinting] and their instants, the
    lint runs that were cancelled are exactly the runs that were followed
    by a run for the same document, and [running] binds each document to
    its last run: per document one run at most, the last, is left
    alive. *)
Theorem ScheduleLinting_supervised (debounce : Z)
    (calls : list (Z * DocumentURI * EventType)) :
  supervised (play calls (start debounce))
  ∧ supervised (settle (play calls (start debounce))).
Proof.
  assert (Hstart : supervised (start debounce)).
  { split.
    - intros uri i. cbn. rewrite lookup_empty. split; [done|]. by intros [(x & Hx & _) _].
    - intros i. cbn. split; [by intros ?%elem_of_nil|]. by intros (j & x & y & _ & Hx & _). }
  pose proof (supervised_play calls _ Hstart) as Hplay.
  split; [done|]. unfold settle.
  destruct (lintTimer (handler (play calls (start debounce)))); [|done].
  by apply supervised_advance.
Qed.

End SchedulerMore.

(** ** The throttle of the formatting requests *)

Module ThrottleFacts.
Import strings filepath Root Store Command Diff Format Handler Throttle.

Lemma apart_snoc (d : Z) (l : list Z) (t' : Z) :
  apart d l → (∀ t, last l = Some t → (t + d ≤ t')%Z) → apart d (l ++ [t']).
Proof.
  intros Hl Hlast i t1 t2 H1 H2.
  apply lookup_snoc_Some in H2 as [[Hlt H2]|[Hi <-]].
  - rewrite lookup_app_l in H1 by lia. by eapply Hl.
  - rewrite lookup_app_l in H1 by lia. apply Hlast.
    rewrite last_lookup. by rewrite <- Hi.
Qed.

Section WithEnvironment.

Variable ReadDir : gostring → list DirEntry.
Variable Match : gostring → gostring → bool.
Variable Environ : list gostring.
Variable Output : Cmd → gostring * gostring * option cmdError.

Local Abbreviation Formatting := (Formatting ReadDir Match Environ Output).
Local Abbreviation play := (play ReadDir Match Environ Output).
Local Abbreviation RunAllFormatters := (RunAllFormatters ReadDir Match Environ Output).

Lemma kept_advance (h : LspHandler) (s : server) (t : Z) :
  kept h s → kept h (advance s t).
Proof.
  intros (Hd & Hl & Hapart & Hlast). unfold kept, throttled, advance in *. cbn.
  destruct (last (fst <$> formatted s)) as [tl|].
  - destruct Hlast as [Hnow Htm]. destruct (formatTimer (handler s)) as [tm|] eqn:Etm.
    + destruct Htm as [Hdl Hst]. rewrite Hst. cbn [negb andb].
      destruct (Z.leb_spec (deadline tm) t); cbn.
      * split_and!; [done..|lia|lia].
      * rewrite Etm. split_and!; [done..|lia|done|done].
    + rewrite Etm. split_and!; [done..|lia|lia].
  - rewrite Hlast. by rewrite Hlast.
Qed.

Lemma kept_Formatting (h : LspHandler) (s : server) (progressToken : gostring)
    (uri : DocumentURI) (rng : option Range) (opt : gmap gostring optionValue) :
  (0 ≤ formatDebounce h)%Z →
  kept h s → kept h (Formatting s progressToken uri rng opt).1.
Proof.
  intros Hpos Hkept. unfold Throttle.Formatting.
  destruct (formatTimer (handler s)) as [tm|] eqn:Etm; [exact Hkept|].
  destruct Hkept as (Hd & Hl & Hapart & Hlast). unfold throttled in Hlast.
  rewrite Etm in Hlast. unfold kept, throttled. cbn [fst handler formatted now formatTimer
    formatDebounce langHandler]. rewrite fmap_app. cbn [fmap list_fmap fst].
  rewrite last_snoc.
  split_and!; [done|done| |lia|cbn; by rewrite Hd|done].
  apply apart_snoc; [done|]. intros t Ht. rewrite Ht in Hlast. by destruct Hlast.
Qed.

Lemma kept_play (h : LspHandler) (requests : list request) (s : server) :
  (0 ≤ formatDebounce h)%Z → kept h s → kept h (play requests s).1.
Proof.
  intros Hpos. revert s. induction requests as [|r requests IH]; intros s Hs; [done|].
  cbn [Throttle.play].
  pose proof (kept_Formatting h (advance s (instant r)) (token r) (document r) (range r)
    (options r) Hpos (kept_advance h s (instant r) Hs)) as Hs1.
  destruct (Formatting _ _ _ _ _) as [s1 result]. specialize (IH s1 Hs1).
  by destruct (play requests s1) as [s2 results].
Qed.

Lemma kept_start (h : LspHandler) : formatTimer h = None → kept h (start h).
Proof.
  intros Htm. unfold kept, throttled. cbn. split_and!; try done.
Qed.

(** X24: [Formatting] throttles: whatever the requests and their
    instants, two successive calls of [RunAllFormatters] are at least the
    format debounce apart. *)
Theorem Formatting_runs_apart (h : LspHandler) (requests : list request) :
  (0 ≤ formatDebounce h)%Z → formatTimer h = None →
  apart (formatDebounce h) (fst <$> formatted (play requests (start h)).1).
Proof.
  intros Hpos Htm.
  by destruct (kept_play h requests (start h) Hpos (kept_start h Htm)) as (_ & _ & Hapart & _).
Qed.

(** X25: a formatting request that comes at least the format debounce
    after the last call of [RunAllFormatters] is not throttled: it returns
    what [RunAllFormatters] returns for it. *)
Theorem Formatting_after_window (h : LspHandler) (requests : list request) (r : request) :
  (0 ≤ formatDebounce h)%Z → formatTimer h = None →
  (∀ t, last (fst <$> formatted (play requests (start h)).1) = Some t →
        (t + formatDebounce h ≤ instant r)%Z) →
  (Formatting (advance (play requests (start h)).1 (instant r)) (token r) (document r)
     (range r) (options r)).2
  = fst <$> RunAllFormatters (langHandler h) (token r) (document r) (range r) (options r).
Proof.
  intros Hpos Htm Hwindow.
  destruct (kept_play h requests (start h) Hpos (kept_start h Htm))
    as (Hd & Hl & Hapart & Hlast).
  set (s := (play requests (start h)).1) in *.
  assert (Hfree : formatTimer (handler (advance s (instant r))) = None
                  ∧ langHandler (handler (advance s (instant r))) = langHandler h).
  { unfold advance. cbn. destruct (formatTimer (handler s)) as [tm|] eqn:Etm; [|by rewrite Etm].
    destruct (last (fst <$> formatted s)) as [t|]; [|done].
    destruct Hlast as (_ & Hdl & Hst). rewrite Hst. cbn [negb andb].
    specialize (Hwindow t eq_refl).
    destruct (Z.leb_spec (deadline tm) (instant r)); [done|lia]. }
  destruct Hfree as [Hnone Hlang]. unfold Throttle.Formatting. by rewrite Hnone, Hlang.
Qed.

Lemma closed_play (requests : list request) :
  ∀ s tm,
    formatTimer (handler s) = Some tm → stopped tm = true →
    (play requests s).2 = replicate (length requests) (Some (inl []))
    ∧ formatted (play requests s).1 = formatted s
    ∧ notified (play requests s).1 = notified s.
Proof.
  induction requests as [|r requests IH]; intros s tm Htm Hst; [done|].
  cbn [Throttle.play].
  assert (Hadv : Formatting (advance s (instant r)) (token r) (document r) (range r)
                   (options r)
                 = ({| handler := handler s; now := Z.max (now s) (instant r);
                       formatted := formatted s; notified := notified s |}, Some (inl []))).
  { assert (Hsame : advance s (instant r)
                    = {| handler := handler s; now := Z.max (now s) (instant r);
                         formatted := formatted s; notified := notified s |}).
    { unfold advance. by rewrite Htm, Hst. }
    rewrite Hsame. unfold Throttle.Formatting. cbn [handler]. by rewrite Htm. }
  rewrite Hadv.
  destruct (IH {| handler := handler s; now := Z.max (now s) (instant r);
                  formatted := formatted s; notified := notified s |} tm Htm Hst)
    as (Hres & Hfmt & Hnot).
  destruct (play requests _) as [s2 results]. cbn in *. by rewrite Hres.
Qed.

(** X26: [Close] stops the format timer but leaves it in its field: when a
    format timer is pending at [Close], every later formatting request
    returns no edits, runs no formatter and sends no progress message,
    however long it comes after. *)
Theorem Close_disables_formatting (s : server) (tm : Timer) (requests : list request) :
  formatTimer (handler s) = Some tm →
  (play requests (closed s)).2 = replicate (length requests) (Some (inl []))
  ∧ formatted (play requests (closed s)).1 = formatted s
  ∧ notified (play requests (closed s)).1 = notified s.
Proof.
  intros Htm.
  apply (closed_play requests (closed s) {| deadline := deadline tm; stopped := true |});
    [|done].
  unfold closed, Close, Stop. cbn. by rewrite Htm.
Qed.

End WithEnvironment.

Lemma Formatting_runs_apart_witness :
  formatTimer cat_server = None
  ∧ apart (formatDebounce cat_server)
      (fst <$> formatted (play no_entries no_match [] copy_stdin
                            [request_at 0; request_at 5; request_at 12]
                            (start cat_server)).1).
Proof.
  split; [reflexivity|].
  apply (Formatting_runs_apart no_entries no_match [] copy_stdin cat_server
           [request_at 0; request_at 5; request_at 12]); [vm_compute; discriminate|reflexivity].
Defined.

Lemma Formatting_after_window_witness :
  (Formatting no_entries no_match [] copy_stdin
     (advance (play no_entries no_match [] copy_stdin [request_at 0] (start cat_server)).1 10)
     (lit "token") uri_a None ∅).2
  = fst <$> RunAllFormatters no_entries no_match [] copy_stdin cat_handler (lit "token") uri_a
              None ∅.
Proof.
  apply (Formatting_after_window no_entries no_match [] copy_stdin cat_server [request_at 0]
           (request_at 10)).
  - vm_compute. discriminate.
  - reflexivity.
  - intros t Ht. vm_compute in Ht. injection Ht as <-. vm_compute. discriminate.
Defined.

Lemma Close_disables_formatting_witness :
  (play no_entries no_match [] copy_stdin [request_at 100]
     (closed (play no_entries no_match [] copy_stdin [request_at 0] (start cat_server)).1)).2
  = [Some (inl [])].
Proof.
  refine (proj1 (Close_disables_formatting no_entries no_match [] copy_stdin
    (play no_entries no_match [] copy_stdin [request_at 0] (start cat_server)).1
    {| deadline := 10; stopped := false |} [request_at 100] _)).
  vm_compute. reflexivity.
Defined.

End ThrottleFacts.

(** ** Applying edits, continued *)

Module DiffMore.
Import strings Store Diff DiffFacts.

Lemma SplitAfter1_nonempty (sep : Z) (s : gostring) : SplitAfter1 sep s ≠ [].
Proof.
  destruct s as [|c s]; simpl; [done|].
  destruct (c =? sep)%Z; [done|]. by destruct (SplitAfter1 sep s).
Qed.

(** X27: [applyEdits] with one edit whose lines are not negative keeps the
    lines before the start line, writes the new text, and keeps the lines
    from the end line on; the characters of the range play no part. *)
Theorem applyEdits_single (text : gostring) (e : TextEdit) :
  (0 ≤ Line (Start (Range_ e)))%Z → (0 ≤ Line (End (Range_ e)))%Z →
  applyEdits text [e]
  = Some (concat (take (Z.to_nat (Line (Start (Range_ e)))) (SplitAfter1 newline text))
          ++ NewText e
          ++ concat (drop (Z.to_nat (Line (End (Range_ e)))) (SplitAfter1 newline text))).
Proof.
  intros Hstart Hend. unfold applyEdits. cbn [apply_loop].
  set (lines := SplitAfter1 newline text).
  rewrite Z.sub_0_r. change 0%Z with (Z.of_nat 0) at 1.
  rewrite write_lines_spec. cbn [mbind option_bind app drop].
  rewrite <- (Z2Nat.id (Line (End (Range_ e)))) at 2 by done.
  rewrite write_lines_spec. rewrite <- app_assoc. do 4 f_equal.
  apply take_ge. rewrite length_drop. lia.
Qed.

Lemma applyEdits_single_witness :
  applyEdits (lit "a" ++ [newline] ++ lit "b" ++ [newline])
    [{| Range_ := {| Start := {| Line := 1; Character := 7 |};
                     End := {| Line := 2; Character := 9 |} |};
        NewText := lit "c" ++ [newline] |}]
  = Some (lit "a" ++ [newline] ++ lit "c" ++ [newline]).
Proof.
  rewrite applyEdits_single; [reflexivity|simpl; lia|simpl; lia].
Defined.

(** X28: [applyEdits] panics when the end line of its last edit is
    negative: the loop that appends the remaining lines indexes the lines
    with it. *)
Theorem applyEdits_negative_end (text : gostring) (e : TextEdit) :
  (0 ≤ Line (Start (Range_ e)))%Z → (Line (End (Range_ e)) < 0)%Z →
  applyEdits text [e] = None.
Proof.
  intros Hstart Hend. unfold applyEdits. cbn [apply_loop].
  pose proof (SplitAfter1_nonempty newline text) as Hne.
  set (lines := SplitAfter1 newline text) in *.
  rewrite Z.sub_0_r. change 0%Z with (Z.of_nat 0) at 1.
  rewrite write_lines_spec. cbn [mbind option_bind].
  assert (0 < length lines) by (destruct lines; [done|simpl; lia]).
  destruct (Z.to_nat (Z.of_nat (length lines) - Line (End (Range_ e)))) as [|n] eqn:En; [lia|].
  cbn [write_lines].
  destruct (Z.ltb_spec (Line (End (Range_ e))) (Z.of_nat (length lines))) as [_|?]; [|lia].
  by destruct (Z.ltb_spec (Line (End (Range_ e))) 0) as [_|?]; [|lia].
Qed.

Lemma applyEdits_negative_end_witness :
  applyEdits (lit "a") [line_edit 0 (-1) (lit "b")] = None.
Proof.
  apply applyEdits_negative_end; simpl; lia.
Defined.

End DiffMore.

(** ** The selection of the configs and the linters that report nothing *)

Module SelectionFacts.
Import strings filepath Root Store Command Lint Format Account.

Section WithEnvironment.

Variable ReadDir : gostring → list DirEntry.
Variable Match : gostring → gostring → bool.
Variable Environ : list gostring.
Variable CombinedOutput : Cmd → gostring * option cmdError.
Variable NewErrorformat : list gostring → option (gostring → list errorformat.Entry).
Variable ParseLocalFileToURI : gostring → DocumentURI.
Variable WordAtUtf16 : gostring → Position → list Z.

Lemma getAllConfigsForLang_Wildcard (allConfigs : gmap gostring (list Language)) :
  getAllConfigsForLang allConfigs Wildcard
  = default [] (allConfigs !! Wildcard) ++ default [] (allConfigs !! Wildcard).
Proof. unfold getAllConfigsForLang. by destruct (allConfigs !! Wildcard). Qed.

(** X29: for a document whose language id is the wildcard key, the
    configs of the wildcard are looked up twice: every selected config is
    selected twice, for linting and for formatting, so each of its linters
    and formatters runs twice. *)
Theorem wildcard_language_selected_twice (fname : gostring)
    (allConfigs : gmap gostring (list Language)) (eventType : EventType) :
  (∃ once, getLintConfigsForDocument ReadDir Match fname Wildcard allConfigs eventType
           = once ++ once)
  ∧ (∃ once, getFormatConfigsForDocument ReadDir Match fname Wildcard allConfigs
             = once ++ once).
Proof.
  unfold getLintConfigsForDocument, getFormatConfigsForDocument.
  rewrite getAllConfigsForLang_Wildcard, !filter_app. split; by eexists.
Qed.

(** X30: a linter that exits with status zero and whose exit code is not
    ignored, or that is killed by a signal, reports nothing: when the
    formats compile and the scanner finds no entry in an empty output,
    [lintDocument] returns no diagnostic and no error, whatever the linter
    printed. *)
Theorem lintDocument_silent (rootPath : gostring) (f : fileRef) (config : Language)
    (lintOutput : gostring) (err : option cmdError)
    (efms : gostring → list errorformat.Entry) :
  CombinedOutput (buildExecCmd Environ (buildLintCommandString rootPath f config) rootPath
                    (Text f) config (LintStdin config)) = (lintOutput, err) →
  (err = None ∧ LintIgnoreExitCode config = false) ∨ err = Some (ExitError Signaled) →
  NewErrorformat (if bool_decide (length (LintFormats config) = 0) then defaultLintFormats
                  else LintFormats config) = Some efms →
  efms [] = [] →
  lintDocument Environ CombinedOutput NewErrorformat ParseLocalFileToURI WordAtUtf16 rootPath
    f config = Some (inl []).
Proof.
  intros Hout Herr Hformats Hempty. unfold lintDocument. rewrite Hout.
  assert (Hrun : runLintCommand (lintOutput, err) config = (None, None)).
  { destruct Herr as [[-> Hignore]| ->]; unfold runLintCommand; [by rewrite Hignore|done]. }
  rewrite Hrun. unfold buildErrorformats. rewrite Hformats. cbn [default].
  by rewrite Hempty.
Qed.

End WithEnvironment.

Lemma lintDocument_silent_witness :
  lintDocument [] killed_linter no_entry_scanner uri_of_path no_word (lit "/") file_a
    plain_config = Some (inl []).
Proof.
  apply (lintDocument_silent [] killed_linter no_entry_scanner uri_of_path no_word (lit "/")
           file_a plain_config (lit "a.go:1:x") (Some (ExitError Signaled)) (λ _, [])).
  - reflexivity.
  - right. reflexivity.
  - reflexivity.
  - reflexivity.
Defined.

End SelectionFacts.
